(** * RANDPA finality gadget: the round state machine and the round manager

    A shallow embedding of [randpa_round] (round.hpp) and of the engine
    [randpa] (randpa.hpp), with the properties of the specification
    stated and settled over it.

    Conventions.
    - [uint32_t] values are [N] with the wrap-around written out
      ([u32_sub]); container sizes ([size_t]) are [nat]: a set held in
      memory never comes near 2^63 elements, so [2 * size] cannot wrap.
    - [std::set] and [std::map] are [gset] and [gmap]; where the code
      iterates over one, the iteration is in increasing key order
      ([sorted_keys]).
    - A failed [FC_ASSERT] or a null dereference is the result [None] of
      the monad [M]; output on the channels is the third component of a
      result. *)

From Stdlib Require Import NArith ZArith Lia.
From stdpp Require Import base option list gmap sets sorting.

Local Open Scope N_scope.
#[local] Set Warnings "-clear-no-such-hyp".

(** ** Primitive types (types.hpp, network_messages.hpp) *)

(** Modelled from the spec: types.hpp is absent.  A [block_id_type] is a
    256-bit hash that embeds the block number in its leading 32 bits; the
    core reads the number through a pure function of the id. *)
Definition block_id_type := N.
Definition block_ids_type := list block_id_type.
Definition public_key_type := N.

Definition get_block_num (id : block_id_type) : N :=
  N.shiftr id 224 mod 2 ^ 32.

(** [uint32_t] subtraction. *)
Definition u32_sub (a b : N) : N := (a + 2 ^ 32 - b mod 2 ^ 32) mod 2 ^ 32.

Arguments get_block_num : simpl never.
Arguments u32_sub : simpl never.

(** Modelled from the spec: network_messages.hpp is absent.  A message is
    a payload with a collection of signatures, and public keys are
    recovered from the signatures; a signature is represented by the key
    that recovery yields for it.  A signature provider is represented by
    the key its signatures recover to, so that signing a payload with a
    list of providers yields that list of signatures. *)
Definition signature_type := public_key_type.
Definition signature_provider_type := public_key_type.

Record network_msg (T : Type) := mk_msg {
  data : T;
  signatures : list signature_type
}.
Arguments mk_msg {T} _ _.
Arguments data {T} _.
Arguments signatures {T} _.

Definition public_keys {T} (msg : network_msg T) : list public_key_type :=
  signatures msg.

Record prevote_type := mk_prevote {
  pv_round_num : N;
  pv_base_block : block_id_type;
  pv_blocks : block_ids_type
}.

Record precommit_type := mk_precommit {
  pc_round_num : N;
  pc_block_id : block_id_type
}.

Definition prevote_msg := network_msg prevote_type.
Definition precommit_msg := network_msg precommit_type.

Record proof_type := mk_proof {
  pf_round_num : N;
  pf_best_block : block_id_type;
  pf_prevotes : list prevote_msg;
  pf_precommits : list precommit_msg
}.

Record finality_notice_type := mk_notice {
  fn_round_num : N;
  fn_best_block : block_id_type
}.

Record finality_req_proof_type := mk_req_proof { rp_round_num : N }.
Record handshake_type := mk_handshake { hs_lib : block_id_type }.
Record handshake_ans_type := mk_handshake_ans { ha_lib : block_id_type }.

Definition finality_notice_msg := network_msg finality_notice_type.
Definition finality_req_proof_msg := network_msg finality_req_proof_type.
Definition proof_msg := network_msg proof_type.
Definition handshake_msg := network_msg handshake_type.
Definition handshake_ans_msg := network_msg handshake_ans_type.

Inductive randpa_net_msg_data :=
  | msg_prevote (m : prevote_msg)
  | msg_precommit (m : precommit_msg)
  | msg_finality_notice (m : finality_notice_msg)
  | msg_finality_req_proof (m : finality_req_proof_msg)
  | msg_proof (m : proof_msg)
  | msg_handshake (m : handshake_msg)
  | msg_handshake_ans (m : handshake_ans_msg).

#[global] Instance network_msg_eq_dec {T} `{EqDecision T} : EqDecision (network_msg T).
Proof. solve_decision. Defined.
#[global] Instance prevote_type_eq_dec : EqDecision prevote_type.
Proof. solve_decision. Defined.
#[global] Instance precommit_type_eq_dec : EqDecision precommit_type.
Proof. solve_decision. Defined.
#[global] Instance proof_type_eq_dec : EqDecision proof_type.
Proof. solve_decision. Defined.
#[global] Instance finality_notice_type_eq_dec : EqDecision finality_notice_type.
Proof. solve_decision. Defined.
#[global] Instance finality_req_proof_type_eq_dec : EqDecision finality_req_proof_type.
Proof. solve_decision. Defined.
#[global] Instance handshake_type_eq_dec : EqDecision handshake_type.
Proof. solve_decision. Defined.
#[global] Instance handshake_ans_type_eq_dec : EqDecision handshake_ans_type.
Proof. solve_decision. Defined.
#[global] Instance randpa_net_msg_data_eq_dec : EqDecision randpa_net_msg_data.
Proof. solve_decision. Defined.

(** [digest_type::hash(msg)]: the hash primitive is taken to be free of
    collisions, so the digest of a message is the message itself, tagged
    with its kind. *)
Definition digest_type := randpa_net_msg_data.

(** Iteration over a [std::set<public_key_type>]: increasing key order. *)
Definition sorted_keys (s : gset public_key_type) : list public_key_type :=
  merge_sort N.le (elements s).

(** ** The prefix tree (prefix_chain_tree.hpp) *)

(** Modelled from the spec: prefix_chain_tree.hpp is absent.  A node
    carries its block id, the creator key, the set of active BP keys, the
    prevote confirmations by voter key, and its children in insertion
    order. *)
#[warnings="-register-all"]
Inductive tree_node := mk_node {
  block_id : block_id_type;
  creator_key : public_key_type;
  active_bp_keys : gset public_key_type;
  confirmation_data : gmap public_key_type prevote_msg;
  adjacent_nodes : list tree_node
}.

(** Modelled from the spec: the tree is its root node together with the
    record of the block most recently inserted for each creator key
    (what [get_last_inserted_block] answers from). *)
Record prefix_tree := mk_tree {
  get_root : tree_node;
  last_inserted_block : gmap public_key_type block_id_type
}.

Record chain_type := mk_chain {
  base_block : block_id_type;
  blocks : block_ids_type
}.

(** First result of [f] along a list; rewriting of the first element
    that satisfies [p]. *)
Fixpoint find_first {A B} (f : A -> option B) (l : list A) : option B :=
  match l with
  | [] => None
  | x :: l' => match f x with Some r => Some r | None => find_first f l' end
  end.

Fixpoint update_first {A} (p : A -> bool) (g : A -> A) (l : list A) : list A :=
  match l with
  | [] => []
  | x :: l' => if p x then g x :: l' else x :: update_first p g l'
  end.

Module tree.

(** Modelled from the spec: [confirmation_number(N)] is the number of
    confirmations on [N] plus the confirmation numbers of its children. *)
Fixpoint confirmation_number (n : tree_node) : nat :=
  match n with
  | mk_node _ _ _ d cs => size d + sum_list (map confirmation_number cs)
  end.

(** Modelled from the spec: [has_confirmation(key)], whether the node
    holds a prevote confirmation from [key]. *)
Definition has_confirmation (n : tree_node) (key : public_key_type) : bool :=
  bool_decide (is_Some (confirmation_data n !! key)).

(** Modelled from the spec: the lookup behind [find], the first node
    with the given id in pre-order. *)
Fixpoint node_find (id : block_id_type) (n : tree_node) : option tree_node :=
  match n with
  | mk_node bid _ _ _ cs =>
      if decide (bid = id) then Some n else find_first (node_find id) cs
  end.

Definition node_mem (id : block_id_type) (n : tree_node) : bool :=
  bool_decide (is_Some (node_find id n)).

(** Modelled from the spec: in-place update of the node that
    [node_find] returns. *)
Fixpoint node_update (id : block_id_type) (f : tree_node -> tree_node)
    (n : tree_node) : tree_node :=
  match n with
  | mk_node bid c a d cs =>
      if decide (bid = id) then f n
      else mk_node bid c a d (update_first (node_mem id) (node_update id f) cs)
  end.

(** Modelled from the spec: [find(block_id) -> node?]. *)
Definition find (t : prefix_tree) (id : block_id_type) : option tree_node :=
  node_find id (get_root t).

Definition mem (t : prefix_tree) (id : block_id_type) : bool :=
  bool_decide (is_Some (find t id)).

(** Modelled from the spec: a fresh node, without confirmations or
    children. *)
Definition new_node (id : block_id_type) (creator : public_key_type)
    (active : gset public_key_type) : tree_node :=
  mk_node id creator active ∅ [].

Definition has_child (id : block_id_type) (n : tree_node) : bool :=
  bool_decide (id ∈ map block_id (adjacent_nodes n)).

Definition add_child (child : tree_node) (n : tree_node) : tree_node :=
  mk_node (block_id n) (creator_key n) (active_bp_keys n) (confirmation_data n)
          (adjacent_nodes n ++ [child]).

(** Modelled from the spec: one block under [parent].  Nothing happens
    when [parent] already has that child; a new child goes last and
    becomes the creator's last inserted block. *)
Definition insert_block (parent id : block_id_type) (creator : public_key_type)
    (active : gset public_key_type) (t : prefix_tree) : prefix_tree :=
  match find t parent with
  | None => t
  | Some p =>
      if has_child id p then t
      else mk_tree (node_update parent (add_child (new_node id creator active)) (get_root t))
                   (<[creator := id]> (last_inserted_block t))
  end.

Fixpoint insert_blocks (parent : block_id_type) (ids : block_ids_type)
    (creator : public_key_type) (active : gset public_key_type)
    (t : prefix_tree) : prefix_tree :=
  match ids with
  | [] => t
  | id :: rest =>
      insert_blocks id rest creator active (insert_block parent id creator active t)
  end.

(** Modelled from the spec: [insert(parent_id, [block_id], creator_key,
    active_bp_keys)] fails with [NodeNotFound] ([None]) if [parent_id] is
    not present; inserting an already-present child is a no-op. *)
Definition insert (t : prefix_tree) (chain : chain_type)
    (creator : public_key_type) (active : gset public_key_type)
    : option prefix_tree :=
  if mem t (base_block chain)
  then Some (insert_blocks (base_block chain) (blocks chain) creator active t)
  else None.

(** Modelled from the spec: the deepest block of [blocks] that is in
    the tree (scan from the tail), else [base_block] when it is in the
    tree. *)
Definition last_known_block (t : prefix_tree) (chain : chain_type)
    : option block_id_type :=
  match List.find (mem t) (rev (blocks chain)) with
  | Some b => Some b
  | None => if mem t (base_block chain) then Some (base_block chain) else None
  end.

Definition add_confirmation (key : public_key_type) (msg : prevote_msg)
    (n : tree_node) : tree_node :=
  if has_confirmation n key then n
  else mk_node (block_id n) (creator_key n) (active_bp_keys n)
               (<[key := msg]> (confirmation_data n)) (adjacent_nodes n).

(** Modelled from the spec: [add_confirmations(base_block, blocks[],
    voter_key, prevote_msg) -> node]: on the deepest node [T] along
    [blocks] that exists in the tree ([base_block] if none), set
    [confirmation_data[voter_key]] if absent, and return [T]. *)
Definition add_confirmations (t : prefix_tree) (chain : chain_type)
    (key : public_key_type) (msg : prevote_msg)
    : option (prefix_tree * tree_node) :=
  match last_known_block t chain with
  | None => None
  | Some id =>
      match find t id with
      | None => None
      | Some n =>
          Some (mk_tree (node_update id (add_confirmation key msg) (get_root t))
                        (last_inserted_block t),
                add_confirmation key msg n)
      end
  end.

(** Modelled from the spec: the ids from [n] down to the node
    [node_find] returns. *)
Fixpoint node_path (id : block_id_type) (n : tree_node) : option block_ids_type :=
  match n with
  | mk_node bid _ _ _ cs =>
      if decide (bid = id) then Some [bid]
      else match find_first (node_path id) cs with
           | Some p => Some (bid :: p)
           | None => None
           end
  end.

(** Modelled from the spec: [get_branch(block_id) -> (base_block,
    blocks[])], the path from the child of the root to [block_id]; [None]
    when the block is not in the tree. *)
Definition get_branch (t : prefix_tree) (id : block_id_type) : option chain_type :=
  match node_path id (get_root t) with
  | Some (b :: p) => Some (mk_chain b p)
  | _ => None
  end.

(** Modelled from the spec: [get_last_inserted_block(creator_key) ->
    node?], the most recently inserted node whose creator key matches. *)
Definition get_last_inserted_block (t : prefix_tree) (key : public_key_type)
    : option tree_node :=
  match last_inserted_block t !! key with
  | Some id => find t id
  | None => None
  end.

Fixpoint pick_deepest (cands : list (nat * tree_node)) (best : nat * tree_node)
    : nat * tree_node :=
  match cands with
  | [] => best
  | (h, n) :: rest =>
      pick_deepest rest (if (best.1 <? S h)%nat then (S h, n) else best)
  end.

Fixpoint node_head (n : tree_node) : nat * tree_node :=
  match n with
  | mk_node _ _ _ _ cs => pick_deepest (map node_head cs) (0%nat, n)
  end.

(** Modelled from the spec: [get_head() -> node], the deepest descendant
    along the longest chain; on a tie the first inserted wins. *)
Definition get_head (t : prefix_tree) : tree_node := (node_head (get_root t)).2.

(** Modelled from the spec: [set_root(node)] prunes all branches not
    containing [node] and makes [node] the new root. *)
Definition set_root (t : prefix_tree) (n : tree_node) : prefix_tree :=
  mk_tree n (last_inserted_block t).

(** Modelled from the spec: [remove_confirmations()] clears
    [confirmation_data] on every node. *)
Fixpoint node_remove_confirmations (n : tree_node) : tree_node :=
  match n with
  | mk_node id c a _ cs => mk_node id c a ∅ (map node_remove_confirmations cs)
  end.

Definition remove_confirmations (t : prefix_tree) : prefix_tree :=
  mk_tree (node_remove_confirmations (get_root t)) (last_inserted_block t).

End tree.

(** ** Containers of the engine *)

(** [boost::compute::detail::lru_cache<digest_type, boost::blank>]: the
    keys from most to least recently inserted, and the capacity. *)
Record lru_cache_type := mk_lru {
  m_capacity : N;
  m_list : list digest_type
}.

Module lru_cache.

Definition contains (c : lru_cache_type) (key : digest_type) : bool :=
  bool_decide (key ∈ m_list c).

(** Evicts the item at the end of the list. *)
Definition evict (c : lru_cache_type) : lru_cache_type :=
  mk_lru (m_capacity c) (removelast (m_list c)).

(** A key already present is left where it is; otherwise a full cache
    evicts first and the key goes to the front. *)
Definition insert (c : lru_cache_type) (key : digest_type) : lru_cache_type :=
  if contains c key then c
  else
    let c1 := if m_capacity c <=? N.of_nat (length (m_list c)) then evict c else c in
    mk_lru (m_capacity c1) (key :: m_list c1).

Definition clear (c : lru_cache_type) : lru_cache_type :=
  mk_lru (m_capacity c) [].

End lru_cache.

(** [boost::circular_buffer<proof_type>::push_front]: when the buffer is
    full the last element is dropped. *)
Definition circular_push_front (capacity : nat) (p : proof_type)
    (buf : list proof_type) : list proof_type :=
  take capacity (p :: buf).

(** Iteration over a [std::map] keyed by public keys: increasing key
    order. *)
Definition key_le {V} (a b : public_key_type * V) : Prop := a.1 <= b.1.

#[global] Instance key_le_dec {V} (a b : public_key_type * V) : Decision (key_le a b).
Proof. unfold key_le. apply _. Defined.

Definition sorted_bindings {V} (m : gmap public_key_type V)
    : list (public_key_type * V) :=
  merge_sort key_le (map_to_list m).

(** ** State of a round and of the engine *)

Module state_type.
Inductive t :=
  | init                (* init -> prevote *)
  | prevote             (* prevote -> ready_to_precommit | fail *)
  | ready_to_precommit  (* ready_to_precommit -> precommit *)
  | precommit           (* precommit -> done | fail *)
  | done                (* (gained supermajority) *)
  | fail.               (* (failed) *)

#[global] Instance eq_dec : EqDecision t.
Proof. solve_decision. Defined.
End state_type.

(** The fields of [randpa_round].  The [tree] pointer is the engine's
    [_prefix_tree] (the round methods read and write the tree of the
    engine they run in) and the three callbacks are parameters of the
    round methods.  [best_node] points to a node of the tree: the fields
    of a node that never change once it is created ([block_id],
    [active_bp_keys]) are read from the value held here, and its
    confirmations, which do change, are read from the node that the tree
    holds under that id. *)
Record randpa_round := mk_round {
  num : N;
  primary : public_key_type;
  state : state_type.t;
  proof : proof_type;
  best_node : option tree_node;
  signature_providers : list signature_provider_type;
  prevoted_keys : gset public_key_type;
  precommited_keys : gset public_key_type
}.

Definition set_state (v : state_type.t) (r : randpa_round) : randpa_round :=
  mk_round (num r) (primary r) v (proof r) (best_node r) (signature_providers r) (prevoted_keys r) (precommited_keys r).

Definition set_proof (v : proof_type) (r : randpa_round) : randpa_round :=
  mk_round (num r) (primary r) (state r) v (best_node r) (signature_providers r) (prevoted_keys r) (precommited_keys r).

Definition set_best_node (v : option tree_node) (r : randpa_round) : randpa_round :=
  mk_round (num r) (primary r) (state r) (proof r) v (signature_providers r) (prevoted_keys r) (precommited_keys r).

Definition set_prevoted_keys (v : gset public_key_type) (r : randpa_round) : randpa_round :=
  mk_round (num r) (primary r) (state r) (proof r) (best_node r) (signature_providers r) v (precommited_keys r).

Definition set_precommited_keys (v : gset public_key_type) (r : randpa_round) : randpa_round :=
  mk_round (num r) (primary r) (state r) (proof r) (best_node r) (signature_providers r) (prevoted_keys r) v.

(** The fields of [randpa] that the handlers read or write. *)
Record randpa := mk_randpa {
  _signature_providers : list signature_provider_type;
  _public_keys : list public_key_type;
  _sig_provs_by_key : gmap public_key_type signature_provider_type;
  _is_block_producer : bool;
  _prefix_tree : prefix_tree;
  _round : option randpa_round;
  _lib : block_id_type;
  _last_prooved_block_num : N;
  _peers : gmap public_key_type N;
  _peer_messages : lru_cache_type;
  _self_messages : lru_cache_type;
  _last_proofs : list proof_type;
  _is_syncing : bool;
  _is_frozen : bool
}.

Definition set_prefix_tree (v : prefix_tree) (s : randpa) : randpa :=
  mk_randpa (_signature_providers s) (_public_keys s) (_sig_provs_by_key s) (_is_block_producer s) v (_round s) (_lib s) (_last_prooved_block_num s) (_peers s) (_peer_messages s) (_self_messages s) (_last_proofs s) (_is_syncing s) (_is_frozen s).

Definition set_round (v : option randpa_round) (s : randpa) : randpa :=
  mk_randpa (_signature_providers s) (_public_keys s) (_sig_provs_by_key s) (_is_block_producer s) (_prefix_tree s) v (_lib s) (_last_prooved_block_num s) (_peers s) (_peer_messages s) (_self_messages s) (_last_proofs s) (_is_syncing s) (_is_frozen s).

Definition set_lib (v : block_id_type) (s : randpa) : randpa :=
  mk_randpa (_signature_providers s) (_public_keys s) (_sig_provs_by_key s) (_is_block_producer s) (_prefix_tree s) (_round s) v (_last_prooved_block_num s) (_peers s) (_peer_messages s) (_self_messages s) (_last_proofs s) (_is_syncing s) (_is_frozen s).

Definition set_last_prooved_block_num (v : N) (s : randpa) : randpa :=
  mk_randpa (_signature_providers s) (_public_keys s) (_sig_provs_by_key s) (_is_block_producer s) (_prefix_tree s) (_round s) (_lib s) v (_peers s) (_peer_messages s) (_self_messages s) (_last_proofs s) (_is_syncing s) (_is_frozen s).

Definition set_peers (v : gmap public_key_type N) (s : randpa) : randpa :=
  mk_randpa (_signature_providers s) (_public_keys s) (_sig_provs_by_key s) (_is_block_producer s) (_prefix_tree s) (_round s) (_lib s) (_last_prooved_block_num s) v (_peer_messages s) (_self_messages s) (_last_proofs s) (_is_syncing s) (_is_frozen s).

Definition set_peer_messages (v : lru_cache_type) (s : randpa) : randpa :=
  mk_randpa (_signature_providers s) (_public_keys s) (_sig_provs_by_key s) (_is_block_producer s) (_prefix_tree s) (_round s) (_lib s) (_last_prooved_block_num s) (_peers s) v (_self_messages s) (_last_proofs s) (_is_syncing s) (_is_frozen s).

Definition set_self_messages (v : lru_cache_type) (s : randpa) : randpa :=
  mk_randpa (_signature_providers s) (_public_keys s) (_sig_provs_by_key s) (_is_block_producer s) (_prefix_tree s) (_round s) (_lib s) (_last_prooved_block_num s) (_peers s) (_peer_messages s) v (_last_proofs s) (_is_syncing s) (_is_frozen s).

Definition set_last_proofs (v : list proof_type) (s : randpa) : randpa :=
  mk_randpa (_signature_providers s) (_public_keys s) (_sig_provs_by_key s) (_is_block_producer s) (_prefix_tree s) (_round s) (_lib s) (_last_prooved_block_num s) (_peers s) (_peer_messages s) (_self_messages s) v (_is_syncing s) (_is_frozen s).

Definition set_is_syncing (v : bool) (s : randpa) : randpa :=
  mk_randpa (_signature_providers s) (_public_keys s) (_sig_provs_by_key s) (_is_block_producer s) (_prefix_tree s) (_round s) (_lib s) (_last_prooved_block_num s) (_peers s) (_peer_messages s) (_self_messages s) (_last_proofs s) v (_is_frozen s).

Definition set_is_frozen (v : bool) (s : randpa) : randpa :=
  mk_randpa (_signature_providers s) (_public_keys s) (_sig_provs_by_key s) (_is_block_producer s) (_prefix_tree s) (_round s) (_lib s) (_last_prooved_block_num s) (_peers s) (_peer_messages s) (_self_messages s) (_last_proofs s) (_is_syncing s) v.

Definition round_width : N := 2.
Definition prevote_width : N := 1.
Definition msg_expiration_ms : Z := 1000.
Definition _proofs_cache_size : nat := 2.
Definition _messages_cache_size : N := 100 * 100 * 100.
Definition _max_finality_lag_blocks : N := 69 * 12 * 2 * 2.

(** ** Effects: state, channel output, failure *)

(** What the engine puts on its output channels. *)
Inductive output :=
  | out_net (ses_id : N) (msg : randpa_net_msg_data)  (* _out_net_channel->send *)
  | out_finality (id : block_id_type).                (* _finality_channel->send *)

Definition M (S A : Type) : Type := S -> option (A * S * list output).

Definition ret {S A} (a : A) : M S A := fun s => Some (a, s, []).

Definition bind {S A B} (m : M S A) (f : A -> M S B) : M S B :=
  fun s =>
    match m s with
    | None => None
    | Some (a, s1, o1) =>
        match f a s1 with
        | None => None
        | Some (b, s2, o2) => Some (b, s2, o1 ++ o2)
        end
    end.

Definition get {S} : M S S := fun s => Some (s, s, []).
Definition modify {S} (f : S -> S) : M S unit := fun s => Some (tt, f s, []).
Definition emit {S} (o : output) : M S unit := fun s => Some (tt, s, [o]).
Definition throw {S A} : M S A := fun _ => None.

#[global] Instance M_ret {S} : MRet (M S) := fun A => @ret S A.
#[global] Instance M_bind {S} : MBind (M S) := fun A B f m => @bind S A B m f.

Fixpoint for_each {S X} (l : list X) (f : X -> M S unit) : M S unit :=
  match l with
  | [] => ret tt
  | x :: l' => f x ;; for_each l' f
  end.

(** An engine action run from inside a round method. *)
Definition lift_engine {A} (m : M randpa A) : M (randpa_round * randpa) A :=
  fun rs =>
    match m rs.2 with
    | None => None
    | Some (a, s', o) => Some (a, (rs.1, s'), o)
    end.

Definition modify_round (f : randpa_round -> randpa_round)
    : M (randpa_round * randpa) unit :=
  modify (fun rs => (f rs.1, rs.2)).

Definition modify_tree (t : prefix_tree) : M (randpa_round * randpa) unit :=
  modify (fun rs => (rs.1, set_prefix_tree t rs.2)).

(** Key recovery from a signature, and the keys of a message
    ([msg.public_keys()]). *)
Definition recover (sig : signature_type) : public_key_type := sig.

Definition msg_public_keys {T} (msg : network_msg T) : list public_key_type :=
  map recover (signatures msg).

(** ** The round (round.hpp) *)

Module round.

Import state_type.

Definition get_num (r : randpa_round) : N := num r.
Definition get_state (r : randpa_round) : state_type.t := state r.

(** [get_proof]: asserts [state == done]. *)
Definition get_proof (r : randpa_round) : option proof_type :=
  if decide (state r = done) then Some (proof r) else None.

Definition finish (r : randpa_round) : randpa_round * bool :=
  if decide (state r ≠ done) then (set_state fail r, false) else (r, true).

Definition is_prevote_threshold_reached (node : tree_node) : bool :=
  (2 * size (active_bp_keys node) / 3 <? tree.confirmation_number node)%nat.

(** Dereferences [best_node]: [None] on a null pointer. *)
Definition is_precommit_threshold_reached (r : randpa_round) : option bool :=
  match best_node r with
  | None => None
  | Some bn =>
      Some (2 * size (active_bp_keys bn) / 3 <? length (pf_precommits (proof r)))%nat
  end.

Definition find_last_node (t : prefix_tree) (base : block_id_type)
    (blks : block_ids_type) : option tree_node :=
  match List.find (tree.mem t) (rev blks) with
  | None => tree.find t base
  | Some b => tree.find t b
  end.

Definition validate_prevote (r : randpa_round) (t : prefix_tree)
    (msg : prevote_msg) (key : public_key_type) : bool :=
  if decide (num r ≠ pv_round_num (data msg)) then false
  else if decide (key ∈ prevoted_keys r) then false
  else match find_last_node t (pv_base_block (data msg)) (pv_blocks (data msg)) with
       | None => false
       | Some node => bool_decide (key ∈ active_bp_keys node)
       end.

(** [best_node->has_confirmation(key)] reads the live node: the one the
    tree holds under the id of [best_node].  [None] when [best_node] is
    null or its node is no longer in the tree. *)
Definition validate_precommit (r : randpa_round) (t : prefix_tree)
    (msg : precommit_msg) (key : public_key_type) : option bool :=
  if decide (num r ≠ pc_round_num (data msg)) then Some false
  else if decide (key ∈ precommited_keys r) then Some false
  else match best_node r with
       | None => None
       | Some bn =>
           if decide (pc_block_id (data msg) ≠ block_id bn) then Some false
           else match tree.find t (block_id bn) with
                | None => None
                | Some live => Some (tree.has_confirmation live key)
                end
       end.

Section callbacks.

Variable prevote_bcaster : prevote_msg -> M randpa unit.
Variable precommit_bcaster : precommit_msg -> M randpa unit.
Variable done_cb : M (randpa_round * randpa) unit.

Definition add_prevote (msg : prevote_msg) : M (randpa_round * randpa) unit :=
  match msg_public_keys msg with
  | [key] =>
      rs ← get;
      match tree.add_confirmations (_prefix_tree rs.2)
              (mk_chain (pv_base_block (data msg)) (pv_blocks (data msg))) key msg with
      | None => throw
      | Some (t', max_prevote_node) =>
          modify_tree t';;
          modify_round (fun r => set_prevoted_keys ({[key]} ∪ prevoted_keys r) r);;
          if bool_decide (state rs.1 ≠ ready_to_precommit)
             && is_prevote_threshold_reached max_prevote_node
          then modify_round (fun r =>
                 set_best_node (Some max_prevote_node) (set_state ready_to_precommit r))
          else ret tt
      end
  | _ => throw
  end.

Definition add_precommit (msg : precommit_msg) : M (randpa_round * randpa) unit :=
  match msg_public_keys msg with
  | [key] =>
      modify_round (fun r => set_precommited_keys ({[key]} ∪ precommited_keys r) r);;
      modify_round (fun r =>
        set_proof (mk_proof (pf_round_num (proof r)) (pf_best_block (proof r))
                            (pf_prevotes (proof r)) (pf_precommits (proof r) ++ [msg])) r);;
      rs ← get;
      if decide (state rs.1 = done) then ret tt
      else match is_precommit_threshold_reached rs.1 with
           | None => throw
           | Some true => modify_round (set_state done);; done_cb
           | Some false => ret tt
           end
  | _ => throw
  end.

Definition prevote : M (randpa_round * randpa) unit :=
  rs ← get;
  if decide (state rs.1 ≠ init) then throw
  else
    modify_round (set_state state_type.prevote);;
    match tree.get_last_inserted_block (_prefix_tree rs.2) (primary rs.1) with
    | None => ret tt
    | Some last_node =>
        match tree.get_branch (_prefix_tree rs.2) (block_id last_node) with
        | None => throw
        | Some chain =>
            let prevote := mk_prevote (num rs.1) (base_block chain) (blocks chain) in
            for_each (signature_providers rs.1)
              (fun sig_prov => add_prevote (mk_msg prevote [sig_prov]));;
            lift_engine (prevote_bcaster (mk_msg prevote (signature_providers rs.1)))
        end
    end.

Definition precommit : M (randpa_round * randpa) unit :=
  rs ← get;
  if decide (state rs.1 ≠ ready_to_precommit) then throw
  else
    modify_round (set_state state_type.precommit);;
    match best_node rs.1 with
    | None => throw
    | Some bn =>
        let precommit := mk_precommit (num rs.1) (block_id bn) in
        for_each (signature_providers rs.1)
          (fun sig_prov => add_precommit (mk_msg precommit [sig_prov]));;
        lift_engine (precommit_bcaster (mk_msg precommit (signature_providers rs.1)))
    end.

(** The constructor: the fields are initialised and [prevote()] runs. *)
Definition new (num : N) (primary : public_key_type)
    (signature_providers : list signature_provider_type) : randpa_round :=
  mk_round num primary init (mk_proof 0 0 [] []) None signature_providers ∅ ∅.

Definition on_prevote_msg (msg : prevote_msg) : M (randpa_round * randpa) unit :=
  rs ← get;
  if bool_decide (state rs.1 ≠ state_type.prevote)
     && bool_decide (state rs.1 ≠ ready_to_precommit)
  then ret tt
  else
    for_each (signatures msg) (fun sig =>
      rs ← get;
      if validate_prevote rs.1 (_prefix_tree rs.2) msg (recover sig)
      then add_prevote (mk_msg (data msg) [sig])
      else ret tt).

Definition on_precommit_msg (msg : precommit_msg) : M (randpa_round * randpa) unit :=
  rs ← get;
  if bool_decide (state rs.1 ≠ state_type.precommit)
     && bool_decide (state rs.1 ≠ ready_to_precommit)
  then ret tt
  else
    for_each (signatures msg) (fun sig =>
      rs ← get;
      match validate_precommit rs.1 (_prefix_tree rs.2) msg (recover sig) with
      | None => throw
      | Some true => add_precommit (mk_msg (data msg) [sig])
      | Some false => ret tt
      end).

(** [proof.prevotes] receives the confirmations of the live best node in
    key order. *)
Definition end_prevote : M (randpa_round * randpa) unit :=
  rs ← get;
  if decide (state rs.1 ≠ ready_to_precommit) then modify_round (set_state fail)
  else
    match best_node rs.1 with
    | None => throw
    | Some bn =>
        match tree.find (_prefix_tree rs.2) (block_id bn) with
        | None => throw
        | Some live =>
            modify_round (fun r =>
              set_proof (mk_proof (num r) (block_id bn)
                           (pf_prevotes (proof r) ++ (sorted_bindings (confirmation_data live)).*2)
                           (pf_precommits (proof r))) r);;
            precommit
        end
    end.

End callbacks.

End round.

(** ** The engine (randpa.hpp) *)

(** Messages and events as they reach [process_msg]. *)
Record randpa_net_msg := mk_net_msg {
  ses_id : N;
  net_data : randpa_net_msg_data;
  receive_time : Z                      (* fc::time_point_sec: seconds *)
}.

Record on_accepted_block_event := mk_accepted {
  ev_block_id : block_id_type;
  ev_prev_block_id : block_id_type;
  ev_creator_key : public_key_type;
  ev_active_bp_keys : gset public_key_type;
  ev_sync : bool
}.

Record on_irreversible_event := mk_irreversible { irr_block_id : block_id_type }.
Record on_new_peer_event := mk_new_peer { np_ses_id : N }.

Inductive randpa_event_data :=
  | ev_accepted_block (e : on_accepted_block_event)
  | ev_irreversible (e : on_irreversible_event)
  | ev_new_peer (e : on_new_peer_event).

Inductive randpa_message :=
  | message_net (m : randpa_net_msg)
  | message_event (e : randpa_event_data).

(** [public_key_type{}]. *)
Definition default_public_key : public_key_type := 0.

Definition send (ses : N) (msg : randpa_net_msg_data) : M randpa unit :=
  emit (out_net ses msg).

Definition bcast (msg : randpa_net_msg_data) : M randpa unit :=
  s ← get;
  let msg_hash : digest_type := msg in
  if lru_cache.contains (_peer_messages s) msg_hash then ret tt
  else
    for_each (sorted_bindings (_peers s)) (fun peer => send peer.2 msg);;
    modify (fun s => set_peer_messages (lru_cache.insert (_peer_messages s) msg_hash) s).

(** Intersection of [_signature_providers] and [active_bp_keys]. *)
Definition get_active_signature_providers (s : randpa)
    (active : gset public_key_type) : list signature_provider_type :=
  omap (fun key => _sig_provs_by_key s !! key) (sorted_keys active).

(** A loop that accumulates and may [return false] ([None]). *)
Fixpoint fold_checked {A X} (f : A -> X -> option A) (acc : A) (l : list X)
    : option A :=
  match l with
  | [] => Some acc
  | x :: l' =>
      match f acc x with
      | None => None
      | Some acc' => fold_checked f acc' l'
      end
  end.

Definition validate_prevote (prevote : prevote_type) (prevoter_key : public_key_type)
    (best_block : block_id_type) (bp_keys : gset public_key_type) : bool :=
  if bool_decide (pv_base_block prevote ≠ best_block)
     && bool_decide (best_block ∉ pv_blocks prevote) then false
  else if bool_decide (prevoter_key ∉ bp_keys) then false
  else true.

Definition validate_precommit (precommit : precommit_type)
    (precommiter_key : public_key_type) (best_block : block_id_type)
    (bp_keys : gset public_key_type) : bool :=
  if bool_decide (pc_block_id precommit ≠ best_block) then false
  else if bool_decide (precommiter_key ∉ bp_keys) then false
  else true.

Definition validate_proof (s : randpa) (proof : proof_type) : bool :=
  let best_block := pf_best_block proof in
  match tree.find (_prefix_tree s) best_block with
  | None => false
  | Some node =>
      let bp_keys := active_bp_keys node in
      match fold_checked (fun keys prevote =>
              fold_checked (fun keys prevoter_pub_key =>
                if validate_prevote (data prevote) prevoter_pub_key best_block bp_keys
                then Some ({[prevoter_pub_key]} ∪ keys) else None)
              keys (msg_public_keys prevote))
            (∅ : gset public_key_type) (pf_prevotes proof) with
      | None => false
      | Some prevoted_keys =>
          match fold_checked (fun keys precommit =>
                  fold_checked (fun keys precommiter_pub_key =>
                    if bool_decide (precommiter_pub_key ∉ prevoted_keys) then None
                    else if validate_precommit (data precommit) precommiter_pub_key
                              best_block bp_keys
                    then Some ({[precommiter_pub_key]} ∪ keys) else None)
                  keys (msg_public_keys precommit))
                (∅ : gset public_key_type) (pf_precommits proof) with
          | None => false
          | Some precommited_keys =>
              (size (active_bp_keys node) * 2 / 3 <? size precommited_keys)%nat
          end
      end
  end.

Definition round_num (id : block_id_type) : N :=
  u32_sub (get_block_num id) 1 / round_width.

Definition num_in_round (id : block_id_type) : N :=
  u32_sub (get_block_num id) 1 mod round_width.

Definition should_start_round (s : randpa) (id : block_id_type) : bool :=
  if get_block_num id <? 1 then false
  else match _round s with
       | None => true
       | Some r => round.get_num r <? round_num id
       end.

Definition should_end_prevote (s : randpa) (id : block_id_type) : bool :=
  match _round s with
  | None => false
  | Some r =>
      bool_decide (round_num id = round.get_num r)
      && bool_decide (num_in_round id = prevote_width)
  end.

Definition is_active_bp (s : randpa) (id : block_id_type) : bool :=
  if negb (_is_block_producer s) then false
  else match tree.find (_prefix_tree s) id with
       | None => false
       | Some node_ptr =>
           existsb (fun public_key => bool_decide (public_key ∈ active_bp_keys node_ptr))
                   (_public_keys s)
       end.

Definition update_lib (lib_id : block_id_type) : M randpa unit :=
  s ← get;
  match tree.find (_prefix_tree s) lib_id with
  | Some node_ptr =>
      modify (set_prefix_tree (tree.set_root (_prefix_tree s) node_ptr))
  | None =>
      modify (set_prefix_tree
                (tree.set_root (_prefix_tree s) (tree.new_node lib_id default_public_key ∅)))
  end;;
  modify (set_lib lib_id).

Definition on_proof_gained (proof : proof_type) : M randpa unit :=
  modify (fun s => set_last_proofs
                     (circular_push_front _proofs_cache_size proof (_last_proofs s)) s);;
  modify (set_last_prooved_block_num (get_block_num (pf_best_block proof)));;
  emit (out_finality (pf_best_block proof));;
  s ← get;
  bcast (msg_finality_notice
           (mk_msg (mk_notice (pf_round_num proof) (pf_best_block proof))
                   (_signature_providers s))).

(** [finish_round] as the completion callback of the round it is called
    from, which is the engine's [_round]. *)
Definition finish_round : M (randpa_round * randpa) unit :=
  rs ← get;
  let '(r, finished) := round.finish rs.1 in
  modify_round (fun _ => r);;
  if negb finished then ret tt
  else
    match round.get_proof r with
    | None => throw
    | Some proof =>
        if get_block_num (_lib rs.2) <? get_block_num (pf_best_block proof)
        then lift_engine (on_proof_gained proof);;
             lift_engine (update_lib (pf_best_block proof))
        else ret tt
    end.

(** The callbacks that [new_round] gives a round. *)
Definition prevote_bcaster (msg : prevote_msg) : M randpa unit :=
  bcast (msg_prevote msg).
Definition precommit_bcaster (msg : precommit_msg) : M randpa unit :=
  bcast (msg_precommit msg).

(** A method called on [_round]: a null [_round] is a null dereference. *)
Definition call_round (m : M (randpa_round * randpa) unit) : M randpa unit :=
  fun s =>
    match _round s with
    | None => None
    | Some r =>
        match m (r, s) with
        | None => None
        | Some (_, (r', s'), o) => Some (tt, set_round (Some r') s', o)
        end
    end.

Definition new_round (round_num : N) (primary : public_key_type)
    (active : gset public_key_type) : M randpa unit :=
  fun s =>
    match round.prevote prevote_bcaster
            (round.new round_num primary (get_active_signature_providers s active), s) with
    | None => None
    | Some (_, (r, s'), o) => Some (tt, set_round (Some r) s', o)
    end.

Definition remove_round : M randpa unit :=
  modify (fun s => set_peer_messages (lru_cache.clear (_peer_messages s)) s);;
  modify (fun s => set_self_messages (lru_cache.clear (_self_messages s)) s);;
  modify (fun s => set_prefix_tree (tree.remove_confirmations (_prefix_tree s)) s);;
  modify (set_round None).

(** *** Handlers of network messages *)

(** [process_round_msg<T>]: [msg] is the message as the network carries
    it, [msg_round_num] its [data.round_num], and [dispatch] is
    [_round->on(msg)]. *)
Definition process_round_msg (msg : randpa_net_msg_data) (msg_round_num : N)
    (dispatch : M (randpa_round * randpa) unit) : M randpa unit :=
  s ← get;
  if _is_syncing s || _is_frozen s then ret tt
  else
    let msg_hash : digest_type := msg in
    if lru_cache.contains (_self_messages s) msg_hash then ret tt
    else
      modify (fun s => set_self_messages (lru_cache.insert (_self_messages s) msg_hash) s);;
      let last_round_num := round_num (block_id (tree.get_head (_prefix_tree s))) in
      (if decide (last_round_num = msg_round_num) then bcast msg else ret tt);;
      s ← get;
      match _round s with
      | None => ret tt
      | Some _ => call_round dispatch
      end.

Definition on_prevote (ses : N) (msg : prevote_msg) : M randpa unit :=
  process_round_msg (msg_prevote msg) (pv_round_num (data msg))
    (round.on_prevote_msg msg).

Definition on_precommit (ses : N) (msg : precommit_msg) : M randpa unit :=
  process_round_msg (msg_precommit msg) (pc_round_num (data msg))
    (round.on_precommit_msg finish_round msg).

Definition on_finality_notice (ses : N) (msg : finality_notice_msg) : M randpa unit :=
  s ← get;
  if is_active_bp s (fn_best_block (data msg))
     && (get_block_num (fn_best_block (data msg)) <=? _last_prooved_block_num s)
  then ret tt
  else send ses (msg_finality_req_proof
                   (mk_msg (mk_req_proof (fn_round_num (data msg))) (_signature_providers s))).

Definition on_finality_req_proof (ses : N) (msg : finality_req_proof_msg)
    : M randpa unit :=
  s ← get;
  match List.find (fun proof => bool_decide (pf_round_num proof = rp_round_num (data msg)))
                  (_last_proofs s) with
  | Some proof => send ses (msg_proof (mk_msg proof (_signature_providers s)))
  | None => ret tt
  end.

Definition on_proof (ses : N) (msg : proof_msg) : M randpa unit :=
  let proof := data msg in
  s ← get;
  if _is_syncing s || _is_frozen s then ret tt
  else if get_block_num (pf_best_block proof) <=? _last_prooved_block_num s then ret tt
  else if get_block_num (pf_best_block proof) <=? get_block_num (_lib s) then ret tt
  else if match _round s with
          | Some r => bool_decide (round.get_state r = state_type.done)
          | None => false
          end then ret tt
  else if negb (validate_proof s proof) then ret tt
  else
    match _round s with
    | Some r =>
        if decide (round.get_num r = pf_round_num proof)
        then modify (set_round (Some (set_state state_type.done r)))
        else ret tt
    | None => ret tt
    end;;
    on_proof_gained proof.

Definition on_handshake (ses : N) (msg : handshake_msg) : M randpa unit :=
  for_each (msg_public_keys msg) (fun public_key =>
    modify (fun s => set_peers (<[public_key := ses]> (_peers s)) s);;
    s ← get;
    send ses (msg_handshake_ans (mk_msg (mk_handshake_ans (_lib s)) (_signature_providers s)))).

Definition on_handshake_ans (ses : N) (msg : handshake_ans_msg) : M randpa unit :=
  for_each (msg_public_keys msg) (fun public_key =>
    modify (fun s => set_peers (<[public_key := ses]> (_peers s)) s)).

(** *** Handlers of events *)

Definition on_accepted_block (event : on_accepted_block_event) : M randpa unit :=
  s ← get;
  match tree.insert (_prefix_tree s)
          (mk_chain (ev_prev_block_id event) [ev_block_id event])
          (ev_creator_key event) (ev_active_bp_keys event) with
  | None => ret tt                                  (* NodeNotFoundError *)
  | Some t =>
      modify (set_prefix_tree t);;
      modify (set_is_syncing (ev_sync event));;
      modify (fun s => set_is_frozen
                (_max_finality_lag_blocks
                   <? u32_sub (get_block_num (ev_block_id event)) (get_block_num (_lib s))) s);;
      s ← get;
      if _is_syncing s || _is_frozen s then ret tt
      else
        (if should_start_round s (ev_block_id event) then
           remove_round;;
           s ← get;
           if is_active_bp s (ev_block_id event)
           then new_round (round_num (ev_block_id event)) (ev_creator_key event)
                          (ev_active_bp_keys event)
           else ret tt
         else ret tt);;
        s ← get;
        if should_end_prevote s (ev_block_id event)
        then call_round (round.end_prevote precommit_bcaster finish_round)
        else ret tt
  end.

Definition on_irreversible (event : on_irreversible_event) : M randpa unit :=
  s ← get;
  if get_block_num (irr_block_id event)
       <=? get_block_num (block_id (get_root (_prefix_tree s)))
  then ret tt
  else update_lib (irr_block_id event).

Definition on_new_peer (event : on_new_peer_event) : M randpa unit :=
  s ← get;
  send (np_ses_id event)
       (msg_handshake (mk_msg (mk_handshake (_lib s)) (_signature_providers s))).

(** *** Dispatch *)

(** [now] is the reading of the clock, in microseconds.  Key recovery is
    total here, so [check_is_valid_msg] holds of every message and the
    visitor always reaches the handler. *)
Definition process_net_msg (now : Z) (msg : randpa_net_msg) : M randpa unit :=
  if (msg_expiration_ms * 1000 <? now - receive_time msg * 1000000)%Z then ret tt
  else
    match net_data msg with
    | msg_prevote m => on_prevote (ses_id msg) m
    | msg_precommit m => on_precommit (ses_id msg) m
    | msg_finality_notice m => on_finality_notice (ses_id msg) m
    | msg_finality_req_proof m => on_finality_req_proof (ses_id msg) m
    | msg_proof m => on_proof (ses_id msg) m
    | msg_handshake m => on_handshake (ses_id msg) m
    | msg_handshake_ans m => on_handshake_ans (ses_id msg) m
    end.

Definition process_event (event : randpa_event_data) : M randpa unit :=
  match event with
  | ev_accepted_block e => on_accepted_block e
  | ev_irreversible e => on_irreversible e
  | ev_new_peer e => on_new_peer e
  end.

Definition process_msg (now : Z) (msg : randpa_message) : M randpa unit :=
  match msg with
  | message_net m => process_net_msg now m
  | message_event e => process_event e
  end.

(** *** Construction and start *)

(** The constructor ([default_key] is the key of the generated
    provider), [set_type_block_producer], [set_signature_providers] and
    [start]. *)
Definition randpa_new (default_key : public_key_type) : randpa :=
  mk_randpa [default_key] [default_public_key] ∅ false
            (mk_tree (tree.new_node 0 default_public_key ∅) ∅) None 0 0 ∅
            (mk_lru _messages_cache_size []) (mk_lru _messages_cache_size [])
            [] false false.

Definition set_type_block_producer (s : randpa) : randpa :=
  mk_randpa (_signature_providers s) (_public_keys s) (_sig_provs_by_key s) true
            (_prefix_tree s) (_round s) (_lib s) (_last_prooved_block_num s) (_peers s)
            (_peer_messages s) (_self_messages s) (_last_proofs s)
            (_is_syncing s) (_is_frozen s).

Definition set_signature_providers (providers : list signature_provider_type)
    (keys : list public_key_type) (s : randpa) : option randpa :=
  if negb (_is_block_producer s) then None
  else if negb (bool_decide (length providers = length keys)) then None
  else Some (mk_randpa providers keys
               (foldl (fun m kp => <[kp.1 := kp.2]> m) ∅ (zip keys providers))
               (_is_block_producer s) (_prefix_tree s) (_round s) (_lib s)
               (_last_prooved_block_num s) (_peers s) (_peer_messages s)
               (_self_messages s) (_last_proofs s) (_is_syncing s) (_is_frozen s)).

Definition start (t : prefix_tree) (s : randpa) : randpa :=
  set_lib (block_id (get_root t)) (set_prefix_tree t s).

(** [add_signature_provider]: asserts a block producer, then appends the
    provider and its key (the provider and key of the full-node case stay
    in the lists) and registers the provider under the key. *)
Definition add_signature_provider (signature_provider : signature_provider_type)
    (public_key : public_key_type) (s : randpa) : option randpa :=
  if negb (_is_block_producer s) then None
  else Some (mk_randpa (_signature_providers s ++ [signature_provider])
               (_public_keys s ++ [public_key])
               (<[public_key := signature_provider]> (_sig_provs_by_key s))
               (_is_block_producer s) (_prefix_tree s) (_round s) (_lib s)
               (_last_prooved_block_num s) (_peers s) (_peer_messages s)
               (_self_messages s) (_last_proofs s) (_is_syncing s) (_is_frozen s)).

(** ** The message queue (randpa.hpp, [message_queue])

    The data of the queue as one thread sees it: the mutex and the
    condition variable have no state of their own here.  A call of
    [get_next_msg_wait] that would wait for another thread has no
    result. *)
Record message_queue (T : Type) := mk_queue {
  _need_notify : bool;
  _message_queue : list T;
  _done : bool
}.
Arguments mk_queue {T} _ _ _.
Arguments _need_notify {T} _.
Arguments _message_queue {T} _.
Arguments _done {T} _.

Module queue.

(** The queue as it is constructed. *)
Definition new {T} : message_queue T := mk_queue true [] false.

Definition push_message {T} (msg : T) (q : message_queue T) : message_queue T :=
  mk_queue (_need_notify q) (_message_queue q ++ [msg]) (_done q).

(** The next message, or nothing when the queue is empty. *)
Definition get_next_msg {T} (q : message_queue T) : option T * message_queue T :=
  match _message_queue q with
  | [] => (None, mk_queue true [] (_done q))
  | msg :: rest => (Some msg, mk_queue false rest (_done q))
  end.

(** [None]: the call waits for another thread.  [Some (None, _)]: the
    queue is terminated and the call returns a null pointer. *)
Definition get_next_msg_wait {T} (q : message_queue T)
    : option (option T * message_queue T) :=
  if _need_notify q && bool_decide (_message_queue q = []) && negb (_done q)
  then None
  else if _done q then Some (None, q)
  else match _message_queue q with
       | [] => None            (* get_next_msg sets _need_notify; then the wait *)
       | _ => Some (get_next_msg q)
       end.

Definition terminate {T} (q : message_queue T) : message_queue T :=
  mk_queue (_need_notify q) (_message_queue q) true.

Definition size {T} (q : message_queue T) : nat := length (_message_queue q).

(** [n] calls of [get_next_msg], with the messages they return. *)
Fixpoint take_messages {T} (n : nat) (q : message_queue T)
    : list T * message_queue T :=
  match n with
  | O => ([], q)
  | S n' =>
      match get_next_msg q with
      | (Some msg, q') => let '(msgs, q'') := take_messages n' q' in (msg :: msgs, q'')
      | (None, q') => take_messages n' q'
      end
  end.

End queue.

(** * Sample chains and nodes *)

(** A block id with the given number in its leading 32 bits. *)
Definition sample_block_id (number hash : N) : block_id_type :=
  N.shiftl number 224 + hash.

Definition accepted (id prev : block_id_type) (creator : public_key_type)
    (active : gset public_key_type) : randpa_message :=
  message_event (ev_accepted_block (mk_accepted id prev creator active false)).

Definition irreversible (id : block_id_type) : randpa_message :=
  message_event (ev_irreversible (mk_irreversible id)).

Definition from_net (ses : N) (msg : randpa_net_msg_data) : randpa_message :=
  message_net (mk_net_msg ses msg 0).

(** A run of the engine over a list of messages, the clock at 0. *)
Definition process_all (msgs : list randpa_message) : M randpa unit :=
  for_each msgs (process_msg 0).

Definition state_after (msgs : list randpa_message) (s : randpa) : option randpa :=
  match process_all msgs s with
  | Some (_, s', _) => Some s'
  | None => None
  end.

(** A full node started on a tree whose root is block number 1. *)
Definition genesis : block_id_type := sample_block_id 1 0.

Definition full_node : randpa :=
  start (mk_tree (tree.new_node genesis default_public_key ∅) ∅) (randpa_new 99).

(** A lagging chain: block 3400 on top of the root, then made
    irreversible by the host, then block 3401. *)
Definition far_block : block_id_type := sample_block_id 3400 1.
Definition next_block : block_id_type := sample_block_id 3401 2.

Definition lagging : list randpa_message :=
  [accepted far_block genesis 11 {[11]}; irreversible far_block].

(** Blocks 2, 3 and 4 on top of the root.  Block 3 opens round 1 and
    block 4 ends its prevote phase. *)
Definition block_2 : block_id_type := sample_block_id 2 1.
Definition block_3 : block_id_type := sample_block_id 3 2.
Definition block_4 : block_id_type := sample_block_id 4 3.

(** A block producer with the key 11. *)
Definition producer : randpa :=
  start (mk_tree (tree.new_node genesis default_public_key ∅) ∅)
        (default (randpa_new 99)
           (set_signature_providers [11] [11] (set_type_block_producer (randpa_new 99)))).

Definition prevote_of (round : N) (blks : block_ids_type)
    (keys : list public_key_type) : prevote_msg :=
  mk_msg (mk_prevote round genesis blks) keys.

Definition precommit_of (round : N) (id : block_id_type)
    (keys : list public_key_type) : precommit_msg :=
  mk_msg (mk_precommit round id) keys.

(** Six block producers: the chain up to block 3, where round 1 starts
    and the local key 11 prevotes. *)
Definition six : gset public_key_type := {[11; 12; 13; 14; 15; 16]}.

Definition six_chain : list randpa_message :=
  [accepted block_2 genesis 12 six; accepted block_3 block_2 13 six].

Definition six_prevote (key : public_key_type) : randpa_message :=
  from_net 7 (msg_prevote (prevote_of 1 [block_2; block_3] [key])).

Definition round_state_after (msgs : list randpa_message) (s : randpa)
    : option state_type.t :=
  match state_after msgs s with
  | Some s' => state <$> _round s'
  | None => None
  end.

(** A node with six active BP keys and confirmations from the given
    voters. *)
Definition six_node (voters : list public_key_type) : tree_node :=
  mk_node block_3 13 six
    (list_to_map (map (fun k => (k, prevote_of 1 [block_2; block_3] [k])) voters)) [].

(** Three block producers, none of them local: a full node follows the
    chain up to block 4 and meets a peer with key 55 on session 7. *)
Definition three : gset public_key_type := {[11; 12; 13]}.

Definition three_chain : list randpa_message :=
  [accepted block_2 genesis 11 three; accepted block_3 block_2 12 three;
   accepted block_4 block_3 13 three;
   from_net 7 (msg_handshake (mk_msg (mk_handshake genesis) [55]))].

Definition follower : randpa :=
  default full_node (state_after three_chain full_node).

(** A proof of round 1 for block 4, signed by all three. *)
Definition proof_of_block_4 : proof_type :=
  mk_proof 1 block_4
    [prevote_of 1 [block_2; block_3; block_4] [11; 12; 13]]
    [precommit_of 1 block_4 [11; 12; 13]].

Definition proof_msg_of_block_4 : proof_msg := mk_msg proof_of_block_4 [55].

(** The follower once it has handled the proof of block 4. *)
Definition proved_follower : randpa :=
  default follower
    (state_after [from_net 7 (msg_proof proof_msg_of_block_4)] follower).

(** A proof of round 1 for block 3 in the chain of six, signed by five. *)
Definition proof_of_block_3 : proof_type :=
  mk_proof 1 block_3
    [prevote_of 1 [block_2; block_3] [11; 12; 13; 14; 15]]
    [precommit_of 1 block_3 [11; 12; 13; 14; 15]].

(** The producer is ready to precommit in round 1 when the proof of that
    round reaches it. *)
Definition overtaken : list randpa_message :=
  six_chain ++ map six_prevote [12; 13; 14; 15]
  ++ [from_net 7 (msg_proof (mk_msg proof_of_block_3 [55]))].

(** Two block producers, the key 11 local.  The key 12 prevotes; a
    precommit signed with the key 11 arrives from the network before the
    prevote phase ends; then block 4 ends the prevote phase and the node
    signs its own precommit. *)
Definition two : gset public_key_type := {[11; 12]}.

Definition twice_precommitted : list randpa_message :=
  [accepted block_2 genesis 12 two; accepted block_3 block_2 12 two;
   from_net 7 (msg_prevote (prevote_of 1 [block_2; block_3] [12]));
   from_net 7 (msg_precommit (precommit_of 1 block_3 [11]));
   accepted block_4 block_3 12 two].

(** The engine and its round at the end of a run. *)
Definition engine_after (msgs : list randpa_message) (s : randpa) : randpa :=
  default s (state_after msgs s).

Definition round_after (msgs : list randpa_message) (s : randpa) : randpa_round :=
  default (round.new 0 0 []) (_round (engine_after msgs s)).

(** A node whose root is block number 0, and a block numbered 0 on top
    of it. *)
Definition origin_node : randpa :=
  start (mk_tree (tree.new_node (sample_block_id 0 0) default_public_key ∅) ∅)
        (default (randpa_new 99)
           (set_signature_providers [11] [11] (set_type_block_producer (randpa_new 99)))).

Definition block_zero : on_accepted_block_event :=
  mk_accepted (sample_block_id 0 5) (sample_block_id 0 0) 11 {[11]} false.

(** The producer among six, just before block 3 is accepted: round 0,
    started on block 2, is the current round. *)
Definition before_block_3 : randpa :=
  engine_after [accepted block_2 genesis 12 six] producer.

Definition block_3_event : on_accepted_block_event :=
  mk_accepted block_3 block_2 13 six false.

Definition tree_with_block_3 : prefix_tree :=
  default (_prefix_tree before_block_3)
    (tree.insert (_prefix_tree before_block_3) (mk_chain block_2 [block_3]) 13 six).

(** The state an engine action leaves and what it puts on the channels. *)
Definition state_of {S A} (m : M S A) (s : S) : S :=
  match m s with
  | Some (_, s', _) => s'
  | None => s
  end.

Definition output_of {S A} (m : M S A) (s : S) : list output :=
  match m s with
  | Some (_, _, o) => o
  | None => []
  end.

(** The configuration of a block producer with the key 11. *)
Definition configured : randpa :=
  default (randpa_new 99)
    (set_signature_providers [11] [11] (set_type_block_producer (randpa_new 99))).

(** The producer among six and its round 1: with four prevotes (its own
    and three from the network) the round is in its prevote phase; with
    five it is ready to precommit. *)
Definition voting_round : randpa_round * randpa :=
  (round_after (six_chain ++ map six_prevote [12; 13; 14]) producer,
   engine_after (six_chain ++ map six_prevote [12; 13; 14]) producer).

Definition ready_round : randpa_round * randpa :=
  (round_after (six_chain ++ map six_prevote [12; 13; 14; 15]) producer,
   engine_after (six_chain ++ map six_prevote [12; 13; 14; 15]) producer).

(** * Predicates of the specification *)

(** [preserves R m]: every run of [m] takes a state to an [R]-related
    one. *)
Definition preserves {S A} (R : S -> S -> Prop) (m : M S A) : Prop :=
  forall s a s' o, m s = Some (a, s', o) -> R s s'.

(** A relation on engine states, seen from inside a round method. *)
Definition on_engine (R : randpa -> randpa -> Prop)
    : randpa_round * randpa -> randpa_round * randpa -> Prop :=
  fun rs rs' => R rs.2 rs'.2.

(** The root of the tree is the last irreversible block. *)
Definition lib_is_root (s : randpa) : Prop :=
  block_id (get_root (_prefix_tree s)) = _lib s.

(** What no round method and no callback of a round changes: the gates,
    the cache of handled messages; and [_lib] only moves forward, staying
    the root of the tree. *)
Record stable (s s' : randpa) : Prop := mk_stable {
  stable_syncing : _is_syncing s' = _is_syncing s;
  stable_frozen : _is_frozen s' = _is_frozen s;
  stable_self_messages : _self_messages s' = _self_messages s;
  stable_lib : lib_is_root s ->
               lib_is_root s' /\ get_block_num (_lib s) <= get_block_num (_lib s')
}.

(** [_lib] only moves forward, staying the root of the tree. *)
Definition lib_mono (s s' : randpa) : Prop :=
  lib_is_root s ->
  lib_is_root s' /\ get_block_num (_lib s) <= get_block_num (_lib s').

(** States the engine can be in: [start], then any messages and events. *)
Inductive reachable : randpa -> Prop :=
  | reachable_start t s : reachable (start t s)
  | reachable_step now msg s s' o :
      reachable s -> process_msg now msg s = Some (tt, s', o) -> reachable s'.

(** What every handler but the one of accepted blocks guarantees. *)
Record steady (s s' : randpa) : Prop := mk_steady {
  steady_syncing : _is_syncing s' = _is_syncing s;
  steady_frozen : _is_frozen s' = _is_frozen s;
  steady_lib : lib_mono s s'
}.

(** [on_accepted_block] in two parts: the state once the block is in the
    tree [t] and the gates are set, and the scheduling of rounds that
    follows when neither gate is closed. *)
Definition after_insert (event : on_accepted_block_event) (t : prefix_tree)
    (s : randpa) : randpa :=
  set_is_frozen
    (_max_finality_lag_blocks
       <? u32_sub (get_block_num (ev_block_id event)) (get_block_num (_lib s)))
    (set_is_syncing (ev_sync event) (set_prefix_tree t s)).

Definition schedule_round (event : on_accepted_block_event) : M randpa unit :=
  s ← get;
  (if should_start_round s (ev_block_id event) then
     remove_round;;
     s ← get;
     if is_active_bp s (ev_block_id event)
     then new_round (round_num (ev_block_id event)) (ev_creator_key event)
                    (ev_active_bp_keys event)
     else ret tt
   else ret tt);;
  s ← get;
  if should_end_prevote s (ev_block_id event)
  then call_round (round.end_prevote precommit_bcaster finish_round)
  else ret tt.

(** The state [remove_round] leaves. *)
Definition round_removed (s : randpa) : randpa :=
  set_round None
    (set_prefix_tree (tree.remove_confirmations (_prefix_tree s))
       (set_self_messages (lru_cache.clear (_self_messages s))
          (set_peer_messages (lru_cache.clear (_peer_messages s)) s))).

(** The value of [_is_frozen] after a message: an accepted block that
    enters the tree assigns it from the lag, nothing else touches it. *)
Definition frozen_after (msg : randpa_message) (s : randpa) : bool :=
  match msg with
  | message_event (ev_accepted_block event) =>
      match tree.insert (_prefix_tree s)
              (mk_chain (ev_prev_block_id event) [ev_block_id event])
              (ev_creator_key event) (ev_active_bp_keys event) with
      | Some _ =>
          _max_finality_lag_blocks
            <? u32_sub (get_block_num (ev_block_id event)) (get_block_num (_lib s))
      | None => _is_frozen s
      end
  | _ => _is_frozen s
  end.

(** Prevote and precommit messages. *)
Definition is_round_phase (msg : randpa_net_msg_data) : bool :=
  match msg with
  | msg_prevote _ | msg_precommit _ => true
  | _ => false
  end.

(** A round that is done holds more entries in [proof.precommits] than
    two thirds of the active BP keys of its best node. *)
Definition precommit_quorum (r : randpa_round) : Prop :=
  state r = state_type.done ->
  exists bn, best_node r = Some bn
             /\ (2 * size (active_bp_keys bn) / 3 < length (pf_precommits (proof r)))%nat.

(** An invariant of the round, as a relation between the states before
    and after a round method; and of the engine's round. *)
Definition round_keeps (I : randpa_round -> Prop)
    : randpa_round * randpa -> randpa_round * randpa -> Prop :=
  fun rs rs' => I rs.1 -> I rs'.1.

Definition engine_keeps (I : randpa_round -> Prop) : randpa -> randpa -> Prop :=
  fun s s' => (forall r, _round s = Some r -> I r) -> (forall r, _round s' = Some r -> I r).

Definition is_proof_msg (msg : randpa_message) : bool :=
  match msg with
  | message_net m => match net_data m with msg_proof _ => true | _ => false end
  | message_event _ => false
  end.

(** States reached from a start without a round, when no [proof_msg] is
    handled. *)
Inductive reachable_without_proof : randpa -> Prop :=
  | rwp_start t s : _round s = None -> reachable_without_proof (start t s)
  | rwp_step now msg s s' o :
      reachable_without_proof s -> is_proof_msg msg = false ->
      process_msg now msg s = Some (tt, s', o) -> reachable_without_proof s'.

(** The fields of a round that are given to its constructor. *)
Definition round_identity (n : N) (p : public_key_type)
    (providers : list signature_provider_type) (r : randpa_round) : Prop :=
  num r = n /\ primary r = p /\ signature_providers r = providers.

(** The configuration of the engine: what [set_signature_providers],
    [add_signature_provider] and [set_type_block_producer] set. *)
Definition same_config (s s' : randpa) : Prop :=
  _signature_providers s' = _signature_providers s
  /\ _public_keys s' = _public_keys s
  /\ _sig_provs_by_key s' = _sig_provs_by_key s
  /\ _is_block_producer s' = _is_block_producer s.

Definition same_peers (s s' : randpa) : Prop := _peers s' = _peers s.

(** No key of [_peers] is forgotten. *)
Definition peers_kept (s s' : randpa) : Prop := dom (_peers s) ⊆ dom (_peers s').

(** Handshakes and their answers. *)
Definition is_handshake (msg : randpa_message) : bool :=
  match msg with
  | message_net m =>
      match net_data m with
      | msg_handshake _ | msg_handshake_ans _ => true
      | _ => false
      end
  | message_event _ => false
  end.

(** The session a message came from, or the session of a new peer. *)
Definition origin (msg : randpa_message) : option N :=
  match msg with
  | message_net m => Some (ses_id m)
  | message_event (ev_new_peer e) => Some (np_ses_id e)
  | message_event _ => None
  end.

(** What the engine may put on its channels in the state [s], handling a
    message from the session [to]: network messages for that session or
    for the session of a peer, and on the finality channel blocks ahead
    of [_lib]. *)
Definition expected (to : option N) (s : randpa) (x : output) : Prop :=
  match x with
  | out_net ses _ => Some ses = to \/ exists key, _peers s !! key = Some ses
  | out_finality id => lib_is_root s -> get_block_num (_lib s) < get_block_num id
  end.

(** [_peers] is unchanged and [_lib] has not moved back. *)
Definition calm (s s' : randpa) : Prop := _peers s' = _peers s /\ lib_mono s s'.

(** The states of a round in the order a round goes through them. *)
Definition state_rank (st : state_type.t) : nat :=
  match st with
  | state_type.init => 0
  | state_type.prevote => 1
  | state_type.ready_to_precommit => 2
  | state_type.precommit => 3
  | state_type.done => 4
  | state_type.fail => 5
  end.

(** The methods by which a round takes messages and comes to its end:
    [on(prevote_msg)], [on(precommit_msg)], [end_prevote] and [finish],
    with the callbacks the engine gives a round.  ([set_state], by which
    the engine assigns a state, is not among them.) *)
Inductive round_call :=
  | call_on_prevote (msg : prevote_msg)
  | call_on_precommit (msg : precommit_msg)
  | call_end_prevote
  | call_finish.

Definition run_call (c : round_call) : M (randpa_round * randpa) unit :=
  match c with
  | call_on_prevote msg => round.on_prevote_msg msg
  | call_on_precommit msg => round.on_precommit_msg finish_round msg
  | call_end_prevote => round.end_prevote precommit_bcaster finish_round
  | call_finish => modify_round (fun r => (round.finish r).1)
  end.

(** What such a method may do to a round. *)
Record advances (r r' : randpa_round) : Prop := mk_advances {
  adv_num : num r' = num r;
  adv_primary : primary r' = primary r;
  adv_providers : signature_providers r' = signature_providers r;
  adv_prevoted : prevoted_keys r ⊆ prevoted_keys r';
  adv_precommited : precommited_keys r ⊆ precommited_keys r';
  adv_precommits : pf_precommits (proof r) `prefix_of` pf_precommits (proof r');
  adv_rank : (state_rank (state r) <= state_rank (state r'))%nat;
  adv_best : (2 <= state_rank (state r))%nat -> best_node r' = best_node r
}.

(** The states in which a round takes prevotes, and those in which it
    takes precommits. *)
Definition voting (r : randpa_round) : Prop :=
  state r = state_type.prevote \/ state r = state_type.ready_to_precommit.

Definition committing (r : randpa_round) : Prop :=
  state r = state_type.ready_to_precommit \/ state r = state_type.precommit
  \/ state r = state_type.done.

(** The best block of the proof of a round that is done is not ahead of
    [_lib]. *)
Definition final_if_done (rs : randpa_round * randpa) : Prop :=
  state rs.1 = state_type.done ->
  get_block_num (pf_best_block (proof rs.1)) <= get_block_num (_lib rs.2).

(** Two block producers, the key 11 local: the round 1 of the producer
    once the key 12 has prevoted, and once its prevote phase has ended. *)
Definition two_ready : randpa_round * randpa :=
  (round_after [accepted block_2 genesis 12 two; accepted block_3 block_2 12 two;
                from_net 7 (msg_prevote (prevote_of 1 [block_2; block_3] [12]))] producer,
   engine_after [accepted block_2 genesis 12 two; accepted block_3 block_2 12 two;
                 from_net 7 (msg_prevote (prevote_of 1 [block_2; block_3] [12]))] producer).

Definition two_committing : randpa_round * randpa :=
  state_of (run_call call_end_prevote) two_ready.

(** Block 4, the second block of round 1, among the two. *)
Definition block_4_event : on_accepted_block_event :=
  mk_accepted block_4 block_3 12 two false.

(** The value of [_is_syncing] after a message: an accepted block that
    enters the tree assigns it from the event, nothing else touches it. *)
Definition syncing_after (msg : randpa_message) (s : randpa) : bool :=
  match msg with
  | message_event (ev_accepted_block event) =>
      match tree.insert (_prefix_tree s)
              (mk_chain (ev_prev_block_id event) [ev_block_id event])
              (ev_creator_key event) (ev_active_bp_keys event) with
      | Some _ => ev_sync event
      | None => _is_syncing s
      end
  | _ => _is_syncing s
  end.

Definition same_syncing (s s' : randpa) : Prop := _is_syncing s' = _is_syncing s.

(** The gates, for the messages they stop: the flags as the handler of
    an accepted block sets them, and as they are for a prevote, a
    precommit or a proof. *)
Definition gated (msg : randpa_message) (s : randpa) : bool :=
  match msg with
  | message_event (ev_accepted_block _) => syncing_after msg s || frozen_after msg s
  | message_event _ => false
  | message_net m =>
      match net_data m with
      | msg_prevote _ | msg_precommit _ | msg_proof _ => _is_syncing s || _is_frozen s
      | _ => false
      end
  end.

(** A full node that has frozen on block 3400. *)
Definition frozen_node : randpa :=
  engine_after [accepted far_block genesis 11 {[11]}] full_node.

(** [emits Q m]: whatever [m] puts on a channel satisfies [Q] in the
    state [m] started from. *)
Definition emits {S A} (Q : S -> output -> Prop) (m : M S A) : Prop :=
  forall s a s' o x, m s = Some (a, s', o) -> x ∈ o -> Q s x.

Definition on_engine_out (Q : randpa -> output -> Prop)
    : randpa_round * randpa -> output -> Prop :=
  fun rs x => Q rs.2 x.

(** * Properties *)

(** ** The monad *)

Ltac unfold_M :=
  unfold mbind, mret, M_bind, M_ret, bind, ret, get, modify, emit, throw,
         lift_engine, modify_round, modify_tree in *.

#[global] Instance on_engine_preorder R : PreOrder R -> PreOrder (on_engine R).
Proof.
  intros [Hr Ht]. split.
  - intros rs. apply Hr.
  - intros a b c Hab Hbc. exact (Ht _ _ _ Hab Hbc).
Qed.

Section preserves.
Context {S : Type} (R : S -> S -> Prop) `{!PreOrder R}.

Lemma preserves_ret {A} (a : A) : preserves R (mret a : M S A).
Proof. intros s b s' o H. unfold_M. by simplify_eq. Qed.

Lemma preserves_get : preserves R (get : M S S).
Proof. intros s b s' o H. unfold_M. by simplify_eq. Qed.

Lemma preserves_emit x : preserves R (emit x : M S unit).
Proof. intros s b s' o H. unfold_M. by simplify_eq. Qed.

Lemma preserves_throw {A} : preserves R (throw : M S A).
Proof. intros s b s' o H. discriminate. Qed.

Lemma preserves_modify (f : S -> S) :
  (forall s, R s (f s)) -> preserves R (modify f).
Proof. intros Hf s b s' o H. unfold_M. simplify_eq. apply Hf. Qed.

Lemma preserves_bind {A B} (m : M S A) (f : A -> M S B) :
  preserves R m -> (forall a, preserves R (f a)) -> preserves R (m ≫= f).
Proof.
  intros Hm Hf s b s' o H. unfold mbind, M_bind, bind in H.
  destruct (m s) as [[[a s1] o1]|] eqn:E1; [|done].
  destruct (f a s1) as [[[b' s2] o2]|] eqn:E2; [|done].
  simplify_eq. etrans; [eapply Hm | eapply Hf]; eauto.
Qed.

Lemma preserves_for_each {X} (l : list X) (f : X -> M S unit) :
  (forall x, preserves R (f x)) -> preserves R (for_each l f).
Proof.
  intros Hf. induction l as [|x l IH]; simpl.
  - apply (preserves_ret tt).
  - apply preserves_bind; auto.
Qed.
End preserves.

Lemma preserves_weaken {S A} (R R' : S -> S -> Prop) (m : M S A) :
  (forall s s', R s s' -> R' s s') -> preserves R m -> preserves R' m.
Proof. intros HR Hm s a s' o H. eapply HR, Hm, H. Qed.

Lemma preserves_lift_engine {A} R (m : M randpa A) :
  preserves R m -> preserves (on_engine R) (lift_engine m).
Proof.
  intros Hm [r s] a [r' s'] o H. unfold lift_engine in H; simpl in H.
  destruct (m s) as [[[a' s1] o1]|] eqn:E; [|done]. simplify_eq.
  eapply Hm, E.
Qed.

Lemma preserves_modify_round R `{!PreOrder R} f :
  preserves (on_engine R) (modify_round f).
Proof. apply preserves_modify. intros [r s]. unfold on_engine. done. Qed.

Lemma bind_Some {S A B} (m : M S A) (f : A -> M S B) s b s2 o :
  bind m f s = Some (b, s2, o) ->
  exists a s1 o1 o2, m s = Some (a, s1, o1) /\ f a s1 = Some (b, s2, o2) /\ o = o1 ++ o2.
Proof.
  unfold bind. destruct (m s) as [[[a s1] o1]|]; [|done].
  destruct (f a s1) as [[[b' s2'] o2]|] eqn:E; [|done].
  intros; simplify_eq. eauto 10.
Qed.

Lemma bind_get {S B} (f : S -> M S B) s :
  bind get f s =
    match f s s with Some (b, s2, o2) => Some (b, s2, o2) | None => None end.
Proof. reflexivity. Qed.

#[global] Instance round_keeps_preorder I : PreOrder (round_keeps I).
Proof.
  split.
  - intros rs H. exact H.
  - intros a b c Hab Hbc H. exact (Hbc (Hab H)).
Qed.

#[global] Instance engine_keeps_preorder I : PreOrder (engine_keeps I).
Proof.
  split.
  - intros s H. exact H.
  - intros a b c Hab Hbc H. exact (Hbc (Hab H)).
Qed.

Lemma keeps_lift_engine {A} I (m : M randpa A) : preserves (round_keeps I) (lift_engine m).
Proof.
  intros [r s] a [r' s'] o H. unfold lift_engine in H; simpl in H.
  destruct (m s) as [[[a' s1] o1]|]; [|done]. simplify_eq. intros Hr. exact Hr.
Qed.

Lemma keeps_modify_round I f :
  (forall r, I r -> I (f r)) -> preserves (round_keeps I) (modify_round f).
Proof. intros Hf. apply preserves_modify. intros [r s] Hr. exact (Hf r Hr). Qed.

Lemma keeps_modify_tree I t : preserves (round_keeps I) (modify_tree t).
Proof. apply preserves_modify. intros [r s] Hr. exact Hr. Qed.

Lemma for_each_emit {S X} (l : list X) (f : X -> output) (s : S) :
  for_each l (fun x => emit (f x)) s = Some (tt, s, map f l).
Proof.
  induction l as [|x l IH]; [done|].
  cbn [for_each]. unfold mbind, M_bind, bind. unfold emit at 1. by rewrite IH.
Qed.

(** ** The prefix tree *)

Lemma tree_node_induction (P : tree_node -> Prop) :
  (forall id c a d cs, Forall P cs -> P (mk_node id c a d cs)) ->
  forall n, P n.
Proof.
  intros H. fix IH 1. intros [id c a d cs]. apply H.
  induction cs as [|x cs IHcs]; constructor; [apply IH | apply IHcs].
Qed.

Lemma find_first_Some {A B} (f : A -> option B) l r :
  find_first f l = Some r -> exists x, x ∈ l /\ f x = Some r.
Proof.
  induction l as [|x l IH]; simpl; [done|].
  destruct (f x) eqn:E; intros H.
  - simplify_eq. exists x. split; [left | done].
  - destruct (IH H) as (y & ? & ?). exists y. split; [by right | done].
Qed.

Lemma node_find_block_id id n x :
  tree.node_find id n = Some x -> block_id x = id.
Proof.
  revert x. induction n as [bid c a d cs IH] using tree_node_induction.
  intros x. simpl. case_decide.
  - intros; by simplify_eq.
  - intros (y & Hy & Hf)%find_first_Some.
    rewrite Forall_forall in IH. eauto.
Qed.

Lemma node_update_block_id id f n :
  (forall x, block_id (f x) = block_id x) ->
  block_id (tree.node_update id f n) = block_id n.
Proof. intros Hf. destruct n; simpl. case_decide; [apply Hf | done]. Qed.

Lemma insert_block_root parent id c a t :
  block_id (get_root (tree.insert_block parent id c a t)) = block_id (get_root t).
Proof.
  unfold tree.insert_block. destruct (tree.find t parent); [|done].
  destruct (tree.has_child id t0); [done|]. simpl.
  by apply node_update_block_id.
Qed.

Lemma insert_blocks_root ids : forall parent c a t,
  block_id (get_root (tree.insert_blocks parent ids c a t)) = block_id (get_root t).
Proof.
  induction ids as [|id ids IH]; intros; simpl; [done|].
  by rewrite IH, insert_block_root.
Qed.

Lemma insert_root t chain c a t' :
  tree.insert t chain c a = Some t' ->
  block_id (get_root t') = block_id (get_root t).
Proof.
  unfold tree.insert. destruct (tree.mem t (base_block chain)); [|done].
  intros; simplify_eq. apply insert_blocks_root.
Qed.

Lemma add_confirmation_block_id key msg x :
  block_id (tree.add_confirmation key msg x) = block_id x.
Proof. unfold tree.add_confirmation. by destruct (tree.has_confirmation x key). Qed.

Lemma add_confirmation_active key msg x :
  active_bp_keys (tree.add_confirmation key msg x) = active_bp_keys x.
Proof. unfold tree.add_confirmation. by destruct (tree.has_confirmation x key). Qed.

Lemma add_confirmations_root t chain key msg t' n :
  tree.add_confirmations t chain key msg = Some (t', n) ->
  block_id (get_root t') = block_id (get_root t).
Proof.
  unfold tree.add_confirmations.
  destruct (tree.last_known_block t chain); [|done].
  destruct (tree.find t b); [|done]. intros; simplify_eq. simpl.
  apply node_update_block_id, add_confirmation_block_id.
Qed.

Lemma remove_confirmations_root t :
  block_id (get_root (tree.remove_confirmations t)) = block_id (get_root t).
Proof. unfold tree.remove_confirmations. simpl. by destruct (get_root t). Qed.

(** ** Engine actions, as equations *)

#[global] Instance stable_preorder : PreOrder stable.
Proof.
  split.
  - intros s. by split.
  - intros a b c [] []. split; try congruence.
    intros Ha. destruct (stable_lib0 Ha) as [Hb ?].
    destruct (stable_lib1 Hb) as [Hc ?]. split; [done | lia].
Qed.

Lemma bcast_eq msg s :
  bcast msg s =
    if lru_cache.contains (_peer_messages s) msg then Some (tt, s, [])
    else Some (tt, set_peer_messages (lru_cache.insert (_peer_messages s) msg) s,
               map (fun peer => out_net peer.2 msg) (sorted_bindings (_peers s)) ++ []).
Proof.
  unfold bcast, send. unfold mbind, M_bind, bind at 1. unfold get at 1.
  destruct (lru_cache.contains (_peer_messages s) msg); [done|].
  unfold bind. by rewrite (for_each_emit _ (fun peer => out_net peer.2 msg)).
Qed.

Lemma on_proof_gained_eq proof s :
  let s1 := set_last_prooved_block_num (get_block_num (pf_best_block proof))
              (set_last_proofs (circular_push_front _proofs_cache_size proof (_last_proofs s)) s) in
  let notice := msg_finality_notice
                  (mk_msg (mk_notice (pf_round_num proof) (pf_best_block proof))
                          (_signature_providers s)) in
  on_proof_gained proof s =
    match bcast notice s1 with
    | Some (_, s2, o) => Some (tt, s2, out_finality (pf_best_block proof) :: o)
    | None => None
    end.
Proof.
  intros s1 notice. unfold on_proof_gained. unfold_M. simpl.
  fold s1. change (_signature_providers s1) with (_signature_providers s). fold notice.
  by destruct (bcast notice s1) as [[[[] s2] o]|].
Qed.

Lemma bcast_stable msg : preserves stable (bcast msg).
Proof.
  intros s a s' o. rewrite bcast_eq.
  destruct (lru_cache.contains _ _); intros; simplify_eq; by split.
Qed.

Lemma on_proof_gained_stable proof : preserves stable (on_proof_gained proof).
Proof.
  intros s a s' o. rewrite on_proof_gained_eq. cbv zeta.
  destruct (bcast _ _) as [[[[] s2] o2]|] eqn:E; [|done].
  intros; simplify_eq. apply bcast_stable in E. etrans; [|exact E]. by split.
Qed.

Lemma on_proof_gained_lib proof s a s' o :
  on_proof_gained proof s = Some (a, s', o) ->
  _lib s' = _lib s /\ _prefix_tree s' = _prefix_tree s /\ _round s' = _round s.
Proof.
  rewrite on_proof_gained_eq. cbv zeta. rewrite bcast_eq.
  destruct (lru_cache.contains _ _); intros; by simplify_eq.
Qed.

Lemma tree_find_block_id t id x : tree.find t id = Some x -> block_id x = id.
Proof. apply node_find_block_id. Qed.

Lemma update_lib_eq lib_id s :
  update_lib lib_id s =
    Some (tt,
          set_lib lib_id
            (set_prefix_tree
               (tree.set_root (_prefix_tree s)
                  (default (tree.new_node lib_id default_public_key ∅)
                           (tree.find (_prefix_tree s) lib_id))) s),
          []).
Proof. unfold update_lib. unfold_M. by destruct (tree.find _ _). Qed.

Lemma update_lib_stable lib_id s a s' o :
  get_block_num (_lib s) <= get_block_num lib_id ->
  update_lib lib_id s = Some (a, s', o) -> stable s s'.
Proof.
  intros Hle. rewrite update_lib_eq. intros; simplify_eq. split; try done.
  intros _. split; [|done]. unfold lib_is_root. simpl.
  destruct (tree.find _ _) eqn:E; simpl; [by apply tree_find_block_id in E | done].
Qed.

(** ** The round methods leave the engine [stable] *)

Ltac preserve_step :=
  lazymatch goal with
  | |- preserves _ (mbind _ _) => apply preserves_bind; [apply _ | | intros ?]
  | |- preserves _ (ret _) => apply (preserves_ret _ _)
  | |- preserves _ (mret _) => apply (preserves_ret _ _)
  | |- preserves _ get => apply preserves_get; apply _
  | |- preserves _ throw => apply preserves_throw
  | |- preserves _ (emit _) => apply preserves_emit; apply _
  | |- preserves _ (send _ _) => apply preserves_emit; apply _
  | |- preserves (on_engine _) (modify_round _) => apply preserves_modify_round; apply _
  | |- preserves (round_keeps _) (modify_round _) =>
      apply keeps_modify_round; intros ? Hkeep
  | |- preserves (round_keeps _) (modify_tree _) => apply keeps_modify_tree
  | |- preserves (round_keeps _) (lift_engine _) => apply keeps_lift_engine
  | |- preserves _ (for_each _ _) => apply preserves_for_each; [apply _ | intros ?]
  | |- preserves _ (lift_engine _) => apply preserves_lift_engine
  | |- preserves _ (match ?x with _ => _ end) => destruct x eqn:?
  | |- preserves _ (let '(_, _) := ?x in _) => destruct x eqn:?
  end.

Ltac preserve := repeat preserve_step.

Section round_stable.

Variable prevote_bcaster : prevote_msg -> M randpa unit.
Variable precommit_bcaster : precommit_msg -> M randpa unit.
Variable done_cb : M (randpa_round * randpa) unit.

Hypothesis prevote_bcaster_stable : forall msg, preserves stable (prevote_bcaster msg).
Hypothesis precommit_bcaster_stable : forall msg, preserves stable (precommit_bcaster msg).
Hypothesis done_cb_stable : preserves (on_engine stable) done_cb.

Lemma set_prefix_tree_stable t s :
  block_id (get_root t) = block_id (get_root (_prefix_tree s)) ->
  stable s (set_prefix_tree t s).
Proof.
  intros Ht. split; try done. unfold lib_is_root. simpl. rewrite Ht. done.
Qed.

Lemma add_prevote_stable msg : preserves (on_engine stable) (round.add_prevote msg).
Proof.
  intros [r s] a [r' s'] o H. unfold round.add_prevote in H.
  destruct (msg_public_keys msg) as [|key [|]]; try done.
  unfold_M. simpl in H.
  destruct (tree.add_confirmations _ _ _ _) as [[t' n]|] eqn:E; [|done].
  apply add_confirmations_root in E.
  assert (s' = set_prefix_tree t' s) as ->.
  { destruct (_ && _); simpl in H; by simplify_eq. }
  by apply set_prefix_tree_stable.
Qed.

Lemma add_precommit_stable msg :
  preserves (on_engine stable) (round.add_precommit done_cb msg).
Proof. unfold round.add_precommit. preserve. apply done_cb_stable. Qed.

Lemma prevote_stable : preserves (on_engine stable) (round.prevote prevote_bcaster).
Proof.
  unfold round.prevote. preserve.
  - apply add_prevote_stable.
  - apply prevote_bcaster_stable.
Qed.

Lemma precommit_stable :
  preserves (on_engine stable) (round.precommit precommit_bcaster done_cb).
Proof.
  unfold round.precommit. preserve.
  - apply add_precommit_stable.
  - apply precommit_bcaster_stable.
Qed.

Lemma on_prevote_msg_stable msg :
  preserves (on_engine stable) (round.on_prevote_msg msg).
Proof. unfold round.on_prevote_msg. preserve. apply add_prevote_stable. Qed.

Lemma on_precommit_msg_stable msg :
  preserves (on_engine stable) (round.on_precommit_msg done_cb msg).
Proof. unfold round.on_precommit_msg. preserve. apply add_precommit_stable. Qed.

Lemma end_prevote_stable :
  preserves (on_engine stable) (round.end_prevote precommit_bcaster done_cb).
Proof. unfold round.end_prevote. preserve. apply precommit_stable. Qed.

End round_stable.

(** ** The callbacks and the handlers *)

#[global] Instance lib_mono_preorder : PreOrder lib_mono.
Proof.
  split.
  - intros s ?. done.
  - intros a b c Hab Hbc Ha. destruct (Hab Ha) as [Hb ?].
    destruct (Hbc Hb) as [Hc ?]. split; [done | lia].
Qed.

Lemma stable_lib_mono s s' : stable s s' -> lib_mono s s'.
Proof. intros [] ?. auto. Qed.

Lemma finish_round_stable : preserves (on_engine stable) finish_round.
Proof.
  intros [r s] a [r' s'] o H. unfold finish_round in H.
  unfold mbind, M_bind, bind at 1, get at 1 in H. cbn [fst snd] in H.
  destruct (round.finish r) as [r1 finished] eqn:Ef.
  unfold bind at 1, modify_round, modify in H. cbn [fst snd] in H.
  destruct finished; cbn [negb] in H; [|unfold ret in H; by simplify_eq].
  destruct (round.get_proof r1) as [proof|]; [|done].
  destruct (_ <? _) eqn:Hlt; [|unfold ret in H; by simplify_eq].
  apply N.ltb_lt in Hlt.
  unfold bind, lift_engine in H. cbn [fst snd] in H.
  destruct (on_proof_gained proof s) as [[[[] s1] o1]|] eqn:E1; [|done].
  cbn [fst snd] in H.
  destruct (update_lib _ s1) as [[[[] s2] o2]|] eqn:E2; [|done].
  simplify_eq. unfold on_engine; simpl.
  etrans; [eapply on_proof_gained_stable, E1|].
  apply on_proof_gained_lib in E1 as (Hl & _ & _).
  eapply update_lib_stable; [|exact E2]. rewrite Hl. lia.
Qed.

Lemma prevote_bcaster_stable msg : preserves stable (prevote_bcaster msg).
Proof. apply bcast_stable. Qed.

Lemma precommit_bcaster_stable msg : preserves stable (precommit_bcaster msg).
Proof. apply bcast_stable. Qed.

Lemma set_round_stable r s : stable s (set_round r s).
Proof. by split. Qed.

Lemma call_round_stable m :
  preserves (on_engine stable) m -> preserves stable (call_round m).
Proof.
  intros Hm s a s' o H. unfold call_round in H.
  destruct (_round s) as [r|]; [|done].
  destruct (m (r, s)) as [[[[] [r' s1]] o1]|] eqn:E; [|done]. simplify_eq.
  etrans; [exact (Hm _ _ _ _ E) | apply set_round_stable].
Qed.

Lemma new_round_stable n primary active :
  preserves stable (new_round n primary active).
Proof.
  intros s a s' o H. unfold new_round in H.
  destruct (round.prevote _ _) as [[[[] [r' s1]] o1]|] eqn:E; [|done]. simplify_eq.
  etrans; [|apply set_round_stable].
  exact (prevote_stable _ prevote_bcaster_stable _ _ _ _ E).
Qed.

Lemma remove_round_lib_mono : preserves lib_mono remove_round.
Proof.
  intros s a s' o H Hs. unfold remove_round in H. unfold_M. simplify_eq.
  split; [|done]. unfold lib_is_root in *.
  change (block_id (get_root (tree.remove_confirmations (_prefix_tree s))) = _lib s).
  by rewrite remove_confirmations_root.
Qed.

Lemma remove_round_frozen s a s' o :
  remove_round s = Some (a, s', o) ->
  _is_frozen s' = _is_frozen s /\ _is_syncing s' = _is_syncing s.
Proof. unfold remove_round. unfold_M. intros; by simplify_eq. Qed.

#[global] Instance steady_preorder : PreOrder steady.
Proof.
  split.
  - intros s. by split.
  - intros a b c [] []. split; try congruence. by etrans.
Qed.

Lemma stable_steady s s' : stable s s' -> steady s s'.
Proof. intros H. destruct H as [? ? ? ?]. split; try done. Qed.

Lemma lru_contains_insert c key : lru_cache.contains (lru_cache.insert c key) key = true.
Proof.
  unfold lru_cache.insert. destruct (lru_cache.contains c key) eqn:E; [done|].
  unfold lru_cache.contains. simpl. apply bool_decide_eq_true. left.
Qed.

(** A round-phase message is dropped unchanged, or recorded in
    [_self_messages] and then handled by actions that leave the engine
    [stable]. *)
Lemma process_round_msg_cases msg n dispatch s s' o :
  preserves (on_engine stable) dispatch ->
  process_round_msg msg n dispatch s = Some (tt, s', o) ->
  (s' = s /\ o = [] /\
   (_is_syncing s || _is_frozen s = true \/ lru_cache.contains (_self_messages s) msg = true))
  \/ (_is_syncing s || _is_frozen s = false /\
      lru_cache.contains (_self_messages s) msg = false /\
      stable (set_self_messages (lru_cache.insert (_self_messages s) msg) s) s').
Proof.
  intros Hd H. unfold process_round_msg in H.
  unfold mbind, M_bind, bind at 1, get at 1 in H.
  destruct (_is_syncing s || _is_frozen s) eqn:Eg.
  { unfold ret in H. simplify_eq. left. auto. }
  destruct (lru_cache.contains (_self_messages s) msg) eqn:Ec.
  { unfold ret in H. simplify_eq. left. auto. }
  right. split; [done|]. split; [done|].
  unfold bind at 1, modify at 1 in H.
  set (s1 := set_self_messages _ s) in *.
  assert (preserves stable
    ((if decide (round_num (block_id (tree.get_head (_prefix_tree s))) = n)
      then bcast msg else ret tt) ≫= fun _ =>
     get ≫= fun s2 => match _round s2 with
                      | Some _ => call_round dispatch
                      | None => ret tt
                      end)) as Hp.
  { preserve; try apply bcast_stable. by apply call_round_stable. }
  destruct (bind _ _ s1) as [[[[] s2] o2]|] eqn:E in H; [|done]. simplify_eq.
  exact (Hp _ _ _ _ E).
Qed.

Lemma on_prevote_steady ses msg : preserves steady (on_prevote ses msg).
Proof.
  intros s [] s' o H.
  apply process_round_msg_cases in H as [(-> & _)|(_ & _ & H)];
    [done | | apply on_prevote_msg_stable].
  etrans; [|apply stable_steady, H]. by split.
Qed.

Lemma on_precommit_steady ses msg : preserves steady (on_precommit ses msg).
Proof.
  intros s [] s' o H.
  apply process_round_msg_cases in H as [(-> & _)|(_ & _ & H)];
    [done | | apply on_precommit_msg_stable, finish_round_stable].
  etrans; [|apply stable_steady, H]. by split.
Qed.

Lemma on_finality_notice_eq ses msg s :
  on_finality_notice ses msg s =
    Some (tt, s,
          if is_active_bp s (fn_best_block (data msg))
             && (get_block_num (fn_best_block (data msg)) <=? _last_prooved_block_num s)
          then []
          else [out_net ses (msg_finality_req_proof
                  (mk_msg (mk_req_proof (fn_round_num (data msg))) (_signature_providers s)))]).
Proof. unfold on_finality_notice, send. unfold_M. by destruct (_ && _). Qed.

Lemma on_finality_req_proof_state ses msg s a s' o :
  on_finality_req_proof ses msg s = Some (a, s', o) -> s' = s.
Proof.
  unfold on_finality_req_proof, send. unfold_M.
  destruct (List.find _ _); intros; by simplify_eq.
Qed.

Lemma on_proof_stable ses msg : preserves stable (on_proof ses msg).
Proof.
  unfold on_proof. preserve; try apply on_proof_gained_stable;
    apply preserves_modify; intros; apply set_round_stable.
Qed.

Lemma set_peers_stable p s : stable s (set_peers p s).
Proof. by split. Qed.

Lemma on_handshake_stable ses msg : preserves stable (on_handshake ses msg).
Proof.
  unfold on_handshake. preserve.
  apply preserves_modify; intros; apply set_peers_stable.
Qed.

Lemma on_handshake_ans_stable ses msg : preserves stable (on_handshake_ans ses msg).
Proof.
  unfold on_handshake_ans. preserve.
  apply preserves_modify; intros; apply set_peers_stable.
Qed.

Lemma on_irreversible_steady event : preserves steady (on_irreversible event).
Proof.
  intros s a s' o H. unfold on_irreversible in H.
  unfold mbind, M_bind, bind, get in H.
  destruct (_ <=? _) eqn:E.
  { unfold ret in H. by simplify_eq. }
  apply N.leb_gt in E.
  destruct (update_lib _ s) as [[[[] s1] o1]|] eqn:Eu; [|done]. simplify_eq.
  rewrite update_lib_eq in Eu. simplify_eq. split; try done.
  intros Hs. split.
  - unfold lib_is_root. simpl.
    destruct (tree.find _ _) eqn:Ef; simpl; [by apply tree_find_block_id in Ef | done].
  - simpl. rewrite <- Hs. lia.
Qed.

Lemma on_new_peer_state event s a s' o :
  on_new_peer event s = Some (a, s', o) -> s' = s.
Proof. unfold on_new_peer, send. unfold_M. intros; by simplify_eq. Qed.

Lemma on_accepted_block_eq event s :
  on_accepted_block event s =
    match tree.insert (_prefix_tree s)
            (mk_chain (ev_prev_block_id event) [ev_block_id event])
            (ev_creator_key event) (ev_active_bp_keys event) with
    | None => Some (tt, s, [])
    | Some t =>
        if ev_sync event || _is_frozen (after_insert event t s)
        then Some (tt, after_insert event t s, [])
        else schedule_round event (after_insert event t s)
    end.
Proof.
  unfold on_accepted_block. unfold mbind, M_bind, bind at 1, get at 1.
  destruct (tree.insert _ _ _ _) as [t|]; [|done].
  unfold bind at 1 2 3 4, modify at 1 2 3, get at 1. cbn [app].
  change (set_is_frozen _ _) with (after_insert event t s).
  change (_is_syncing (after_insert event t s)) with (ev_sync event).
  destruct (ev_sync event || _is_frozen (after_insert event t s)); [done|].
  unfold schedule_round, mbind, M_bind. rewrite bind_get.
  by destruct (bind _ _ _) as [[[[] ?] ?]|].
Qed.

Lemma schedule_round_stable_after_removal event :
  preserves stable
    (s ← get;
     if is_active_bp s (ev_block_id event)
     then new_round (round_num (ev_block_id event)) (ev_creator_key event)
                    (ev_active_bp_keys event)
     else ret tt).
Proof. preserve. apply new_round_stable. Qed.

Lemma end_prevote_call_stable :
  preserves stable (call_round (round.end_prevote precommit_bcaster finish_round)).
Proof.
  apply call_round_stable, end_prevote_stable;
    [apply precommit_bcaster_stable | apply finish_round_stable].
Qed.

Lemma schedule_round_lib_mono event : preserves lib_mono (schedule_round event).
Proof.
  unfold schedule_round. preserve.
  - apply remove_round_lib_mono.
  - eapply preserves_weaken; [apply stable_lib_mono | apply new_round_stable].
  - eapply preserves_weaken; [apply stable_lib_mono | apply end_prevote_call_stable].
Qed.

Lemma schedule_round_frozen event s a s' o :
  schedule_round event s = Some (a, s', o) -> _is_frozen s' = _is_frozen s.
Proof.
  assert (preserves (fun s s' => _is_frozen s' = _is_frozen s) (schedule_round event)) as H.
  { assert (PreOrder (fun s s' : randpa => _is_frozen s' = _is_frozen s)).
    { split; [done | intros ???; congruence]. }
    unfold schedule_round. preserve.
    - intros ???? Hr. by apply remove_round_frozen in Hr as [? ?].
    - eapply preserves_weaken; [apply stable_frozen | apply new_round_stable].
    - eapply preserves_weaken; [apply stable_frozen | apply end_prevote_call_stable]. }
  apply H.
Qed.

(** ** Every message *)

Lemma on_accepted_block_lib_mono event : preserves lib_mono (on_accepted_block event).
Proof.
  intros s a s' o. rewrite on_accepted_block_eq.
  destruct (tree.insert _ _ _ _) as [t|] eqn:Ei; [|intros; by simplify_eq].
  assert (lib_mono s (after_insert event t s)) as H1.
  { intros Hs. split; [|done]. unfold lib_is_root in *. simpl.
    by rewrite (insert_root _ _ _ _ _ Ei). }
  destruct (_ || _); [intros; by simplify_eq|].
  intros H. etrans; [exact H1 | exact (schedule_round_lib_mono _ _ _ _ _ H)].
Qed.

Lemma on_accepted_block_frozen event s a s' o :
  on_accepted_block event s = Some (a, s', o) ->
  _is_frozen s' = frozen_after (message_event (ev_accepted_block event)) s.
Proof.
  rewrite on_accepted_block_eq. simpl.
  destruct (tree.insert _ _ _ _) as [t|] eqn:Ei; [|intros; by simplify_eq].
  destruct (_ || _); [intros; by simplify_eq|].
  intros H. by apply schedule_round_frozen in H.
Qed.

Lemma process_net_msg_steady now msg : preserves steady (process_net_msg now msg).
Proof.
  unfold process_net_msg. destruct (_ <? _)%Z; [apply (preserves_ret _ _)|].
  destruct (net_data msg).
  - apply on_prevote_steady.
  - apply on_precommit_steady.
  - intros s a s' o. rewrite on_finality_notice_eq. intros; by simplify_eq.
  - intros s a s' o H. by apply on_finality_req_proof_state in H as ->.
  - eapply preserves_weaken; [apply stable_steady | apply on_proof_stable].
  - eapply preserves_weaken; [apply stable_steady | apply on_handshake_stable].
  - eapply preserves_weaken; [apply stable_steady | apply on_handshake_ans_stable].
Qed.

Lemma process_msg_lib_mono now msg : preserves lib_mono (process_msg now msg).
Proof.
  destruct msg as [m|[e|e|e]]; simpl.
  - eapply preserves_weaken; [apply steady_lib | apply process_net_msg_steady].
  - apply on_accepted_block_lib_mono.
  - eapply preserves_weaken; [apply steady_lib | apply on_irreversible_steady].
  - intros s a s' o H. by apply on_new_peer_state in H as ->.
Qed.

Lemma reachable_lib_is_root s : reachable s -> lib_is_root s.
Proof.
  induction 1 as [t s|now msg s s' o _ IH H]; [done|].
  by apply (process_msg_lib_mono _ _ _ _ _ _ H).
Qed.

Lemma reachable_process_all s msgs s' o :
  reachable s -> process_all msgs s = Some (tt, s', o) -> reachable s'.
Proof.
  revert s o. induction msgs as [|msg msgs IH]; intros s o Hr H.
  - unfold process_all in H. simpl in H. unfold ret in H. by simplify_eq.
  - unfold process_all in H. cbn [for_each] in H.
    unfold mbind, M_bind, bind in H.
    destruct (process_msg 0 msg s) as [[[[] s1] o1]|] eqn:E1; [|done].
    destruct (for_each msgs _ s1) as [[[[] s2] o2]|] eqn:E2; [|done].
    simplify_eq. eapply IH; [|exact E2]. eapply reachable_step; eauto.
Qed.






(** ** Validation of a proof *)

Lemma forallb_elem_of {A} (f : A -> bool) (l : list A) :
  forallb f l = true <-> forall x, x ∈ l -> f x = true.
Proof.
  rewrite forallb_forall. split; intros H x Hx; apply H; by apply list_elem_of_In.
Qed.

Lemma elem_of_concat_map {A B} (f : A -> list B) (l : list A) (x : B) :
  x ∈ concat (map f l) <-> exists m, m ∈ l /\ x ∈ f m.
Proof.
  induction l as [|a l IH]; simpl.
  - split; [by intros ?%not_elem_of_nil | by intros (? & ?%not_elem_of_nil & _)].
  - rewrite elem_of_app, IH. split.
    + intros [?|(m & ? & ?)]; [exists a | exists m]; split; try done; by constructor.
    + intros (m & [->|?]%elem_of_cons & ?); [by left | right; eauto].
Qed.

Lemma fold_checked_keys (f : gset public_key_type -> public_key_type -> option (gset public_key_type))
    (chk : public_key_type -> bool) :
  (forall acc k, f acc k = if chk k then Some ({[k]} ∪ acc) else None) ->
  forall keys acc,
    fold_checked f acc keys =
      if forallb chk keys then Some (list_to_set keys ∪ acc) else None.
Proof.
  intros Hf. induction keys as [|k keys IH]; intros acc; simpl.
  - f_equal. set_solver.
  - rewrite Hf. destruct (chk k); simpl; [|done].
    rewrite IH. destruct (forallb chk keys); [|done]. f_equal. set_solver.
Qed.

Lemma fold_checked_msgs {T}
    (f : gset public_key_type -> network_msg T -> option (gset public_key_type))
    (chk : network_msg T -> public_key_type -> bool) :
  (forall acc m, f acc m =
     if forallb (chk m) (msg_public_keys m)
     then Some (list_to_set (msg_public_keys m) ∪ acc) else None) ->
  forall msgs acc,
    fold_checked f acc msgs =
      if forallb (fun m => forallb (chk m) (msg_public_keys m)) msgs
      then Some (list_to_set (concat (map msg_public_keys msgs)) ∪ acc) else None.
Proof.
  intros Hf. induction msgs as [|m msgs IH]; intros acc; simpl.
  - f_equal. set_solver.
  - rewrite Hf. destruct (forallb (chk m) (msg_public_keys m)); simpl; [|done].
    rewrite IH. destruct (forallb _ msgs); [|done]. f_equal.
    rewrite list_to_set_app_L. set_solver.
Qed.

Lemma validate_prevote_true prevote key best bp_keys :
  validate_prevote prevote key best bp_keys = true <->
  (pv_base_block prevote = best \/ best ∈ pv_blocks prevote) /\ key ∈ bp_keys.
Proof.
  unfold validate_prevote.
  destruct (decide (pv_base_block prevote = best));
    destruct (decide (best ∈ pv_blocks prevote));
    destruct (decide (key ∈ bp_keys));
    repeat first [rewrite bool_decide_eq_true_2 by done
                 | rewrite bool_decide_eq_false_2 by (by try apply dec_stable)
                 | rewrite bool_decide_eq_false_2 by tauto];
    simpl; intuition congruence.
Qed.

Lemma validate_precommit_true precommit key best bp_keys :
  validate_precommit precommit key best bp_keys = true <->
  pc_block_id precommit = best /\ key ∈ bp_keys.
Proof.
  unfold validate_precommit.
  destruct (decide (pc_block_id precommit = best));
    destruct (decide (key ∈ bp_keys));
    repeat first [rewrite bool_decide_eq_true_2 by done
                 | rewrite bool_decide_eq_false_2 by tauto];
    simpl; intuition congruence.
Qed.

(** C3: [validate_proof] accepts a proof exactly when its best block is
    a node [T] of the tree, every prevote key comes with a prevote that
    names the best block (as base or in its blocks) and is an active BP
    key of [T], every precommit key is among the prevote keys, names the
    best block and is an active BP key of [T], and the distinct precommit
    keys number more than [2 * |active_bp_keys T| / 3]. *)
Theorem validate_proof_iff s proof :
  validate_proof s proof = true <->
  exists T,
    tree.find (_prefix_tree s) (pf_best_block proof) = Some T
    /\ (forall prevote K,
          prevote ∈ pf_prevotes proof -> K ∈ msg_public_keys prevote ->
          (pv_base_block (data prevote) = pf_best_block proof
           \/ pf_best_block proof ∈ pv_blocks (data prevote))
          /\ K ∈ active_bp_keys T)
    /\ (forall precommit K,
          precommit ∈ pf_precommits proof -> K ∈ msg_public_keys precommit ->
          (exists prevote, prevote ∈ pf_prevotes proof /\ K ∈ msg_public_keys prevote)
          /\ pc_block_id (data precommit) = pf_best_block proof
          /\ K ∈ active_bp_keys T)
    /\ (2 * size (active_bp_keys T) / 3
        < size (list_to_set (concat (map msg_public_keys (pf_precommits proof)))
                  : gset public_key_type))%nat.
Proof.
  unfold validate_proof.
  destruct (tree.find _ _) as [T|]; [|split; [done | by intros (? & ? & _)]].
  set (best := pf_best_block proof).
  rewrite (fold_checked_msgs _
             (fun m k => validate_prevote (data m) k best (active_bp_keys T))).
  2:{ intros acc m. by apply fold_checked_keys. }
  destruct (@forallb (network_msg prevote_type) _ _) eqn:Epv.
  2:{ split; [done|]. intros (T' & ? & Hpv & _). simplify_eq.
      apply not_true_iff_false in Epv. destruct Epv.
      apply forallb_elem_of. intros m Hm. apply forallb_elem_of. intros k Hk.
      apply validate_prevote_true. eauto. }
  set (prevoted := list_to_set _ ∪ ∅).
  assert (forall K, K ∈ prevoted <->
            exists m, m ∈ pf_prevotes proof /\ K ∈ msg_public_keys m) as Hprev.
  { intros K. unfold prevoted.
    rewrite elem_of_union, elem_of_list_to_set, elem_of_concat_map.
    split; [intros [?|[]%not_elem_of_empty]; done | by left]. }
  rewrite (fold_checked_msgs _
             (fun m k => negb (bool_decide (k ∉ prevoted))
                         && validate_precommit (data m) k best (active_bp_keys T))).
  2:{ intros acc m. apply fold_checked_keys. intros acc' k.
      by destruct (bool_decide (k ∉ prevoted)). }
  rewrite forallb_elem_of in Epv.
  destruct (@forallb (network_msg precommit_type) _ _) eqn:Epc.
  - rewrite forallb_elem_of in Epc. rewrite (right_id_L ∅ (∪)).
    rewrite Nat.ltb_lt, (Nat.mul_comm (size _) 2). split.
    + intros Hsz. exists T. split; [done|]. split; [|split; [|done]].
      * intros m K Hm HK. apply validate_prevote_true.
        specialize (Epv m Hm). rewrite forallb_elem_of in Epv. auto.
      * intros m K Hm HK. specialize (Epc m Hm). rewrite forallb_elem_of in Epc.
        specialize (Epc K HK). apply andb_true_iff in Epc as [Hin Hv].
        apply validate_precommit_true in Hv.
        apply negb_true_iff, bool_decide_eq_false in Hin.
        split; [apply Hprev; by apply dec_stable | done].
    + intros (T' & ? & _ & _ & Hsz). by simplify_eq.
  - split; [done|]. intros (T' & ? & _ & Hpc & _). simplify_eq.
    apply not_true_iff_false in Epc. destruct Epc.
    apply forallb_elem_of. intros m Hm. apply forallb_elem_of. intros k Hk.
    destruct (Hpc m k Hm Hk) as (Hin & ? & ?).
    apply andb_true_iff. split.
    + apply negb_true_iff, bool_decide_eq_false. intros Hn. apply Hn, Hprev, Hin.
    + by apply validate_precommit_true.
Qed.

(** ** Thresholds *)

Lemma floor_two_thirds_lt (n c : nat) : (2 * n / 3 < c <-> 2 * n < 3 * c)%nat.
Proof.
  split; intros H.
  - pose proof (Nat.div_mod_eq (2 * n) 3) as E.
    pose proof (Nat.mod_upper_bound (2 * n) 3). lia.
  - apply Nat.Div0.div_lt_upper_bound. lia.
Qed.

(** C6: both threshold tests are the strict comparison of a count with
    [floor (2 n / 3)], in exact integer arithmetic: the prevote test on
    [confirmation_number], the precommit test on the number of entries
    of [proof.precommits]; each amounts to [2 n < 3 count].  With six
    active BP keys four prevotes do not cross the threshold and five do,
    on a node and in a run of the round. *)
Theorem thresholds_are_strict_floor :
  (forall node,
     round.is_prevote_threshold_reached node = true <->
     (2 * size (active_bp_keys node) / 3 < tree.confirmation_number node)%nat)
  /\ (forall node,
        round.is_prevote_threshold_reached node = true <->
        (2 * size (active_bp_keys node) < 3 * tree.confirmation_number node)%nat)
  /\ (forall r bn,
        round.is_precommit_threshold_reached (set_best_node (Some bn) r) = Some true <->
        (2 * size (active_bp_keys bn) / 3 < length (pf_precommits (proof r)))%nat)
  /\ size (active_bp_keys (six_node [11; 12; 13; 14])) = 6%nat
  /\ tree.confirmation_number (six_node [11; 12; 13; 14]) = 4%nat
  /\ round.is_prevote_threshold_reached (six_node [11; 12; 13; 14]) = false
  /\ tree.confirmation_number (six_node [11; 12; 13; 14; 15]) = 5%nat
  /\ round.is_prevote_threshold_reached (six_node [11; 12; 13; 14; 15]) = true
  /\ round_state_after (six_chain ++ map six_prevote [12; 13; 14]) producer
     = Some state_type.prevote
  /\ round_state_after (six_chain ++ map six_prevote [12; 13; 14; 15]) producer
     = Some state_type.ready_to_precommit.
Proof.
  split; [|split; [|split]].
  - intros node. unfold round.is_prevote_threshold_reached. apply Nat.ltb_lt.
  - intros node. unfold round.is_prevote_threshold_reached.
    rewrite Nat.ltb_lt. apply floor_two_thirds_lt.
  - intros r bn. unfold round.is_precommit_threshold_reached. simpl.
    rewrite <- Nat.ltb_lt. split; [by intros [= ->] | by intros ->].
  - repeat (refine (conj _ _); [vm_compute; reflexivity|]).
    vm_compute; reflexivity.
Qed.

(** ** Finality notices *)

(** C5, as the code has it: on a finality notice the engine leaves its
    state alone and sends one [finality_req_proof] for the noticed round
    to the notifying session, unless the local node is an active BP at
    the noticed block and that block's number is at most
    [_last_prooved_block_num]; so the request is sent exactly when the
    node is not an active BP at that block or the block is ahead of the
    last proved one. *)
Theorem finality_notice_requests_proof ses msg s :
  let request :=
    out_net ses (msg_finality_req_proof
                   (mk_msg (mk_req_proof (fn_round_num (data msg))) (_signature_providers s))) in
  exists o,
    on_finality_notice ses msg s = Some (tt, s, o)
    /\ (o = [request] \/ o = [])
    /\ (o = [request] <->
        is_active_bp s (fn_best_block (data msg)) = false
        \/ _last_prooved_block_num s < get_block_num (fn_best_block (data msg))).
Proof.
  intros request. rewrite on_finality_notice_eq. eexists. split; [done|].
  destruct (is_active_bp s _) eqn:Ea; cbn [andb].
  - destruct (_ <=? _) eqn:El.
    + apply N.leb_le in El. split; [by right|]. split; [done|]. intros [?|?]; [done|lia].
    + apply N.leb_gt in El. split; [by left|]. split; [by right | done].
  - split; [by left|]. split; [by left | done].
Qed.

(** C5 as stated fails: a full node that already holds the proof of
    block 4 is notified of block 4 again; it is not behind, and it sends
    the request all the same. *)
Lemma finality_notice_request_when_not_behind :
  on_finality_notice 8 (mk_msg (mk_notice 1 block_4) [55]) proved_follower
  = Some (tt, proved_follower,
          [out_net 8 (msg_finality_req_proof (mk_msg (mk_req_proof 1) [99]))])
  /\ is_active_bp proved_follower block_4 = false
  /\ ~ (_last_prooved_block_num proved_follower < get_block_num block_4).
Proof.
  split; [vm_compute; reflexivity|]. split; [vm_compute; reflexivity|].
  intros H. vm_compute in H. discriminate H.
Qed.

(** ** Replays *)

Lemma process_round_msg_dropped msg n dispatch s :
  _is_syncing s || _is_frozen s = true
  \/ lru_cache.contains (_self_messages s) msg = true ->
  process_round_msg msg n dispatch s = Some (tt, s, []).
Proof.
  intros H. unfold process_round_msg. unfold mbind, M_bind. rewrite bind_get.
  destruct (_is_syncing s || _is_frozen s); [done|].
  destruct H as [H|H]; [done|]. by rewrite H.
Qed.

Lemma process_round_msg_replay msg n n' dispatch dispatch' s s' o :
  preserves (on_engine stable) dispatch ->
  process_round_msg msg n dispatch s = Some (tt, s', o) ->
  process_round_msg msg n' dispatch' s' = Some (tt, s', []).
Proof.
  intros Hd H. apply process_round_msg_cases in H as [(-> & _ & H)|(Hg & _ & H)]; [| |done].
  - by apply process_round_msg_dropped.
  - apply process_round_msg_dropped. right.
    rewrite (stable_self_messages _ _ H). apply lru_contains_insert.
Qed.

Lemma bcast_twice msg s :
  exists s' o, bcast msg s = Some (tt, s', o) /\ bcast msg s' = Some (tt, s', []).
Proof.
  rewrite bcast_eq. destruct (lru_cache.contains (_peer_messages s) msg) eqn:E.
  - exists s, []. split; [done|]. by rewrite bcast_eq, E.
  - eexists _, _. split; [done|]. rewrite bcast_eq. simpl.
    by rewrite lru_contains_insert.
Qed.



(** ** Local votes *)

Lemma find_first_is_Some {A B} (f g : A -> option B) (l l' : list A) :
  Forall2 (fun x y => is_Some (f x) <-> is_Some (g y)) l l' ->
  is_Some (find_first f l) <-> is_Some (find_first g l').
Proof.
  induction 1 as [|x y l l' Hxy _ IH]; simpl; [done|].
  destruct (f x) eqn:Ef, (g y) eqn:Eg.
  - split; eauto.
  - destruct Hxy as [Hxy _]. destruct Hxy as [? [=]]. eauto.
  - destruct Hxy as [_ Hxy]. destruct Hxy as [? [=]]. eauto.
  - exact IH.
Qed.

Lemma update_first_Forall2 {A} (P : A -> A -> Prop) (p : A -> bool) (g : A -> A) l :
  (forall x, P x x) -> Forall (fun x => P x (g x)) l ->
  Forall2 P l (update_first p g l).
Proof.
  intros Hrefl. induction 1 as [|x l Hx _ IH]; simpl; [constructor|].
  destruct (p x); constructor; auto.
  clear -Hrefl. induction l; constructor; auto.
Qed.

(** An update that keeps the block id and the children of the node it
    touches keeps every block of the tree findable. *)
Lemma node_mem_update id id' f n :
  (forall x, block_id (f x) = block_id x /\ adjacent_nodes (f x) = adjacent_nodes x) ->
  is_Some (tree.node_find id (tree.node_update id' f n)) <->
  is_Some (tree.node_find id n).
Proof.
  intros Hf. induction n as [bid c a d cs IH] using tree_node_induction.
  cbn [tree.node_update]. case_decide as Hb.
  - destruct (Hf (mk_node bid c a d cs)) as [Hid Hcs].
    destruct (f (mk_node bid c a d cs)) as [bid' c' a' d' cs']. simpl in *. subst.
    by case_decide.
  - cbn [tree.node_find]. case_decide; [done|].
    symmetry. apply find_first_is_Some.
    apply update_first_Forall2; [done|].
    eapply Forall_impl; [exact IH|]. intros x Hx. by symmetry.
Qed.

Lemma add_confirmation_shape key msg x :
  block_id (tree.add_confirmation key msg x) = block_id x
  /\ adjacent_nodes (tree.add_confirmation key msg x) = adjacent_nodes x.
Proof. unfold tree.add_confirmation. by destruct (tree.has_confirmation x key). Qed.

Lemma add_confirmations_mem t chain key msg t' n id :
  tree.add_confirmations t chain key msg = Some (t', n) ->
  tree.mem t' id = tree.mem t id.
Proof.
  unfold tree.add_confirmations.
  destruct (tree.last_known_block t chain) as [b|]; [|done].
  destruct (tree.find t b); [|done]. intros; simplify_eq.
  unfold tree.mem, tree.find. simpl. apply bool_decide_ext.
  apply node_mem_update, add_confirmation_shape.
Qed.

Lemma last_known_block_mem t chain b :
  tree.last_known_block t chain = Some b -> tree.mem t b = true.
Proof.
  unfold tree.last_known_block.
  destruct (List.find _ _) eqn:E.
  - intros; simplify_eq. by apply find_some in E as [_ ?].
  - destruct (tree.mem t (base_block chain)) eqn:Em; intros; by simplify_eq.
Qed.

Lemma find_ext {A} (p q : A -> bool) l :
  (forall x, p x = q x) -> List.find p l = List.find q l.
Proof. intros H. induction l as [|x l IH]; simpl; [done|]. by rewrite H, IH. Qed.

Lemma add_confirmations_last_known t chain key msg t' n chain' :
  tree.add_confirmations t chain key msg = Some (t', n) ->
  tree.last_known_block t' chain' = tree.last_known_block t chain'.
Proof.
  intros H. unfold tree.last_known_block.
  rewrite (find_ext (tree.mem t') (tree.mem t))
    by (intros; eapply add_confirmations_mem, H).
  by rewrite (add_confirmations_mem _ _ _ _ _ _ _ H).
Qed.

Lemma add_confirmations_total t chain key msg b :
  tree.last_known_block t chain = Some b ->
  is_Some (tree.add_confirmations t chain key msg).
Proof.
  intros H. unfold tree.add_confirmations. rewrite H.
  apply last_known_block_mem in H. unfold tree.mem in H.
  apply bool_decide_eq_true in H as [x Hx]. rewrite Hx. eauto.
Qed.

(** The path to a node of the tree starts at the root and ends at that
    node. *)
Lemma node_path_of_find id n x :
  tree.node_find id n = Some x ->
  exists p, tree.node_path id n = Some (block_id n :: p)
            /\ last (block_id n :: p) = Some id.
Proof.
  revert x. induction n as [bid c a d cs IH] using tree_node_induction.
  intros x. simpl. case_decide as Hb.
  - intros _. exists []. by subst.
  - intros H. induction cs as [|y cs IHcs]; [done|]. simpl in H |- *.
    apply Forall_cons in IH as [IHy IHcs'].
    destruct (tree.node_find id y) as [z|] eqn:Ey.
    + destruct (IHy _ eq_refl) as (p & -> & Hl). eexists. split; [done|].
      by rewrite last_cons, Hl.
    + assert (tree.node_path id y = None) as ->.
      { clear -Ey. revert Ey. induction y as [bid c a d cs IH] using tree_node_induction.
        simpl. case_decide; [done|]. intros Hf.
        induction cs as [|z cs IHcs]; [done|]. simpl in *.
        apply Forall_cons in IH as [IHz IHcs'].
        destruct (tree.node_find id z); [done|]. rewrite IHz by done. auto. }
      auto.
Qed.

Lemma get_branch_last_known t id x :
  tree.find t id = Some x ->
  exists chain, tree.get_branch t id = Some chain
                /\ is_Some (tree.last_known_block t chain).
Proof.
  intros Hx. unfold tree.get_branch.
  destruct (node_path_of_find _ _ _ Hx) as (p & -> & Hl).
  eexists. split; [done|]. unfold tree.last_known_block. simpl.
  destruct (List.find _ _); [eauto|].
  assert (tree.mem t (block_id (get_root t)) = true) as ->; [|eauto].
  apply bool_decide_eq_true. unfold tree.find.
  destruct (get_root t); simpl. rewrite decide_True by done. eauto.
Qed.

Lemma add_prevote_local r s prevote (sig : signature_provider_type) :
  is_Some (tree.last_known_block (_prefix_tree s)
             (mk_chain (pv_base_block prevote) (pv_blocks prevote))) ->
  exists r' t',
    round.add_prevote (mk_msg prevote [sig]) (r, s)
      = Some (tt, (r', set_prefix_tree t' s), [])
    /\ prevoted_keys r' = {[recover sig]} ∪ prevoted_keys r
    /\ signature_providers r' = signature_providers r
    /\ (forall chain, tree.last_known_block t' chain
                      = tree.last_known_block (_prefix_tree s) chain).
Proof.
  intros [b Hb]. unfold round.add_prevote.
  cbn [msg_public_keys signatures map data].
  unfold mbind, M_bind. rewrite bind_get. cbn [fst snd].
  destruct (add_confirmations_total _ _ (recover sig) (mk_msg prevote [sig]) _ Hb)
    as [[t' n] Ht].
  rewrite Ht. unfold_M. cbn [fst snd].
  destruct (_ && _); cbn [fst snd app];
    eexists _, t'; (split; [reflexivity|]); simpl;
    (split; [done|]); (split; [done|]);
    intros chain; eapply add_confirmations_last_known, Ht.
Qed.

Lemma for_each_add_prevote_local prevote sigs : forall r s,
  is_Some (tree.last_known_block (_prefix_tree s)
             (mk_chain (pv_base_block prevote) (pv_blocks prevote))) ->
  exists r' t',
    for_each sigs (fun sig_prov : signature_provider_type =>
                     round.add_prevote (mk_msg prevote [sig_prov])) (r, s)
      = Some (tt, (r', set_prefix_tree t' s), [])
    /\ prevoted_keys r' = list_to_set (map recover sigs) ∪ prevoted_keys r
    /\ signature_providers r' = signature_providers r.
Proof.
  induction sigs as [|sig sigs IH]; intros r s Hs.
  - exists r, (_prefix_tree s). simpl. unfold ret.
    split; [by destruct s|]. split; [set_solver | done].
  - destruct (add_prevote_local r s prevote sig Hs) as (r1 & t1 & E1 & Hk1 & Hp1 & Hl1).
    destruct (IH r1 (set_prefix_tree t1 s)) as (r2 & t2 & E2 & Hk2 & Hp2).
    { simpl. by rewrite Hl1. }
    exists r2, t2. cbn [for_each]. unfold mbind, M_bind, bind.
    rewrite E1, E2. split; [done|]. split; [|congruence].
    rewrite Hk2, Hk1. simpl. set_solver.
Qed.

Lemma on_proof_gained_total proof s :
  exists s' o, on_proof_gained proof s = Some (tt, s', o).
Proof.
  rewrite on_proof_gained_eq. cbv zeta. rewrite bcast_eq.
  destruct (lru_cache.contains _ _); eauto.
Qed.

Lemma finish_round_done r s :
  state r = state_type.done ->
  exists s' o, finish_round (r, s) = Some (tt, (r, s'), o).
Proof.
  intros Hd. unfold finish_round. unfold mbind, M_bind. rewrite bind_get.
  cbn [fst snd]. unfold round.finish. rewrite decide_False by (by intros []).
  unfold bind at 1, modify_round, modify. cbn [fst snd negb].
  unfold round.get_proof. rewrite decide_True by done.
  destruct (_ <? _); [|unfold ret; eauto].
  unfold bind, lift_engine. cbn [fst snd].
  destruct (on_proof_gained_total (proof r) s) as (s1 & o1 & ->). cbn [fst snd].
  rewrite update_lib_eq. eauto.
Qed.

Lemma add_precommit_local r s precommit (sig : signature_provider_type) bn :
  best_node r = Some bn ->
  exists r' s' o,
    round.add_precommit finish_round (mk_msg precommit [sig]) (r, s)
      = Some (tt, (r', s'), o)
    /\ precommited_keys r' = {[recover sig]} ∪ precommited_keys r
    /\ pf_precommits (proof r') = pf_precommits (proof r) ++ [mk_msg precommit [sig]]
    /\ best_node r' = best_node r
    /\ signature_providers r' = signature_providers r.
Proof.
  intros Hbn. unfold round.add_precommit.
  cbn [msg_public_keys signatures map data].
  unfold mbind, M_bind. unfold bind at 1 2, modify_round, modify. cbn [fst snd].
  rewrite bind_get. cbn [fst snd state set_proof set_precommited_keys].
  destruct (decide (state r = state_type.done)).
  { unfold ret. eexists _, _, _. split; [reflexivity|]. by simpl. }
  unfold round.is_precommit_threshold_reached. cbn [best_node set_proof set_precommited_keys].
  rewrite Hbn. destruct (_ <? _)%nat; [|unfold ret; eexists _, _, _; split; [reflexivity|]; by simpl].
  unfold bind, modify. cbn [fst snd].
  match goal with |- context [finish_round (?r1, ?s1)] =>
    destruct (finish_round_done r1 s1 eq_refl) as (s' & o & ->) end.
  eexists _, _, _. split; [reflexivity|]. by simpl.
Qed.

Lemma for_each_add_precommit_local precommit sigs bn : forall r s,
  best_node r = Some bn ->
  exists r' s' o,
    for_each sigs
      (fun sig_prov : signature_provider_type =>
         round.add_precommit finish_round (mk_msg precommit [sig_prov])) (r, s)
      = Some (tt, (r', s'), o)
    /\ precommited_keys r' = list_to_set (map recover sigs) ∪ precommited_keys r
    /\ pf_precommits (proof r')
       = pf_precommits (proof r) ++ map (fun sig_prov => mk_msg precommit [sig_prov]) sigs
    /\ signature_providers r' = signature_providers r.
Proof.
  induction sigs as [|sig sigs IH]; intros r s Hbn.
  - exists r, s, []. simpl. unfold ret. split; [done|].
    split; [set_solver|]. by rewrite app_nil_r.
  - destruct (add_precommit_local r s precommit sig bn Hbn)
      as (r1 & s1 & o1 & E1 & Hk1 & Hp1 & Hb1 & Hs1).
    destruct (IH r1 s1) as (r2 & s2 & o2 & E2 & Hk2 & Hp2 & Hs2); [congruence|].
    exists r2, s2, (o1 ++ o2). cbn [for_each]. unfold mbind, M_bind, bind.
    rewrite E1, E2. split; [done|]. split; [|split; [|congruence]].
    + rewrite Hk2, Hk1. simpl. set_solver.
    + rewrite Hp2, Hp1. simpl. by rewrite <- app_assoc.
Qed.

(** C10: locally signed votes are not validated.  [prevote()], whenever
    it finds the primary's last block, records the key of every local
    signature provider in [prevoted_keys]; [precommit()] appends one
    precommit per local provider to [proof.precommits] and records every
    such key in [precommited_keys].  Both do so for any round, tree and
    keys: no test of the round number, of a key recorded before, of the
    best block, of an earlier prevote or of membership in the active BP
    keys stands in the way. *)
Theorem local_votes_bypass_validation r s last_node r2 s2 bn :
  tree.get_last_inserted_block (_prefix_tree s) (primary r) = Some last_node ->
  (exists r' s' o,
     round.prevote prevote_bcaster (set_state state_type.init r, s)
       = Some (tt, (r', s'), o)
     /\ prevoted_keys r'
        = list_to_set (map recover (signature_providers r)) ∪ prevoted_keys r)
  /\ (exists r' s' o,
        round.precommit precommit_bcaster finish_round
          (set_best_node (Some bn) (set_state state_type.ready_to_precommit r2), s2)
          = Some (tt, (r', s'), o)
        /\ precommited_keys r'
           = list_to_set (map recover (signature_providers r2)) ∪ precommited_keys r2
        /\ pf_precommits (proof r')
           = pf_precommits (proof r2)
             ++ map (fun sig_prov =>
                       mk_msg (mk_precommit (num r2) (block_id bn)) [sig_prov])
                    (signature_providers r2)).
Proof.
  intros Hlast. split.
  - unfold round.prevote. unfold mbind, M_bind. rewrite bind_get.
    cbn [fst snd state set_state]. rewrite decide_False by (by intros []).
    unfold bind at 1, modify_round, modify. cbn [fst snd primary set_state].
    rewrite Hlast.
    assert (tree.find (_prefix_tree s) (block_id last_node) = Some last_node) as Hf.
    { unfold tree.get_last_inserted_block in Hlast.
      destruct (_ !! _) as [id|]; [|done].
      by rewrite (tree_find_block_id _ _ _ Hlast). }
    destruct (get_branch_last_known _ _ _ Hf) as (chain & -> & Hk).
    cbn [num signature_providers set_state].
    set (pv := mk_prevote (num r) (base_block chain) (blocks chain)).
    destruct (for_each_add_prevote_local pv (signature_providers r)
                (set_state state_type.prevote (set_state state_type.init r)) s)
      as (r1 & t1 & E1 & Hk1 & Hs1); [by destruct chain|].
    unfold bind, lift_engine. rewrite E1. cbn [fst snd].
    unfold prevote_bcaster. rewrite bcast_eq.
    destruct (lru_cache.contains _ _); eexists _, _, _; (split; [reflexivity|]);
      by rewrite Hk1.
  - unfold round.precommit. unfold mbind, M_bind. rewrite bind_get.
    cbn [fst snd state set_state set_best_node]. rewrite decide_False by (by intros []).
    unfold bind at 1, modify_round, modify.
    cbn [fst snd best_node num signature_providers set_state set_best_node].
    set (pc := mk_precommit (num r2) (block_id bn)).
    unfold bind, lift_engine.
    match goal with |- context [for_each _ _ (?r0, _)] =>
      destruct (for_each_add_precommit_local pc (signature_providers r2) bn r0 s2 eq_refl)
        as (r1 & s1 & o1 & E1 & Hk1 & Hp1 & Hs1) end.
    rewrite E1. cbn [fst snd].
    unfold precommit_bcaster. rewrite bcast_eq.
    destruct (lru_cache.contains _ _); eexists _, _, _; (split; [reflexivity|]);
      by rewrite Hk1, Hp1.
Qed.

Lemma local_votes_bypass_validation_witness :
  (exists r' s' o,
     round.prevote prevote_bcaster (set_state state_type.init (round.new 1 13 [77]), follower)
       = Some (tt, (r', s'), o)
     /\ prevoted_keys r'
        = list_to_set (map recover (signature_providers (round.new 1 13 [77])))
          ∪ prevoted_keys (round.new 1 13 [77]))
  /\ (exists r' s' o,
        round.precommit precommit_bcaster finish_round
          (set_best_node (Some (six_node []))
             (set_state state_type.ready_to_precommit (round.new 1 13 [77])), follower)
          = Some (tt, (r', s'), o)
        /\ precommited_keys r'
           = list_to_set (map recover (signature_providers (round.new 1 13 [77])))
             ∪ precommited_keys (round.new 1 13 [77])
        /\ pf_precommits (proof r')
           = pf_precommits (proof (round.new 1 13 [77]))
             ++ map (fun sig_prov =>
                       mk_msg (mk_precommit (num (round.new 1 13 [77]))
                                            (block_id (six_node []))) [sig_prov])
                    (signature_providers (round.new 1 13 [77]))).
Proof.
  apply (local_votes_bypass_validation (round.new 1 13 [77]) follower
           (default (six_node [])
              (tree.get_last_inserted_block (_prefix_tree follower) 13))).
  vm_compute. reflexivity.
Defined.

(** A round with the provider 77 on the tree of the follower: its local
    prevote is one that the validation of network prevotes rejects, 77
    not being an active BP key. *)
Lemma local_prevote_would_be_rejected :
  round.validate_prevote (set_state state_type.prevote (round.new 1 13 [77]))
    (_prefix_tree follower) (prevote_of 1 [block_2; block_3; block_4] [77]) 77 = false
  /\ tree.get_branch (_prefix_tree follower) block_4
     = Some (mk_chain genesis [block_2; block_3; block_4]).
Proof. split; vm_compute; reflexivity. Qed.

(** ** Proof messages *)

(** C1, as the code has it: a valid [proof_msg] for a block ahead of
    both [_last_prooved_block_num] and [_lib], handled while the node is
    neither syncing nor frozen and its round, if any, is not done, is
    cached, moves [_last_prooved_block_num] to that block, marks the
    round done when the round numbers agree, emits the block on the
    finality channel and broadcasts one [finality_notice] (to every peer,
    unless its digest is in [_peer_messages]).  It does not touch [_lib]
    or the tree.  The same [proof_msg], from any session, is then
    dropped: no change, no output. *)
Theorem proof_msg_gains_finality ses msg s :
  let best := pf_best_block (data msg) in
  let notice := msg_finality_notice
                  (mk_msg (mk_notice (pf_round_num (data msg)) best)
                          (_signature_providers s)) in
  _is_syncing s || _is_frozen s = false ->
  _last_prooved_block_num s < get_block_num best ->
  get_block_num (_lib s) < get_block_num best ->
  (forall r, _round s = Some r -> state r <> state_type.done) ->
  validate_proof s (data msg) = true ->
  exists s',
    on_proof ses msg s
      = Some (tt, s',
              out_finality best
              :: (if lru_cache.contains (_peer_messages s) notice then []
                  else map (fun peer => out_net peer.2 notice) (sorted_bindings (_peers s))))
    /\ _lib s' = _lib s
    /\ _prefix_tree s' = _prefix_tree s
    /\ _last_prooved_block_num s' = get_block_num best
    /\ _last_proofs s' = circular_push_front _proofs_cache_size (data msg) (_last_proofs s)
    /\ _round s'
       = (fun r => if decide (round.get_num r = pf_round_num (data msg))
                   then set_state state_type.done r else r) <$> _round s
    /\ (forall ses', on_proof ses' msg s' = Some (tt, s', [])).
Proof.
  intros best notice Hg Hp Hl Hr Hv.
  assert (forall s0, _is_syncing s0 || _is_frozen s0 = false ->
            (get_block_num best <=? _last_prooved_block_num s0) = false ->
            (get_block_num best <=? get_block_num (_lib s0)) = false ->
            match _round s0 with
            | Some r => bool_decide (round.get_state r = state_type.done)
            | None => false
            end = false ->
            validate_proof s0 (data msg) = true ->
            forall ses0, on_proof ses0 msg s0 =
              ((match _round s0 with
                | Some r => if decide (round.get_num r = pf_round_num (data msg))
                            then modify (set_round (Some (set_state state_type.done r)))
                            else ret tt
                | None => ret tt
                end) ≫= fun _ => on_proof_gained (data msg)) s0) as Hon.
  { intros s0 H1 H2 H3 H4 H5 ses0. unfold on_proof. unfold mbind, M_bind.
    rewrite bind_get. fold best. rewrite H1, H2, H3, H4, H5. cbn [negb].
    match goal with |- match ?x with _ => _ end = _ =>
      by destruct x as [[[[] ?] ?]|] end. }
  assert (match _round s with
          | Some r => bool_decide (round.get_state r = state_type.done)
          | None => false
          end = false) as Hnd.
  { destruct (_round s) as [r|] eqn:Er; [|done].
    apply bool_decide_eq_false. by apply Hr. }
  rewrite (Hon s Hg (proj2 (N.leb_gt _ _) Hp) (proj2 (N.leb_gt _ _) Hl) Hnd Hv).
  unfold mbind, M_bind, bind.
  set (s1 := match _round s with
             | Some r => if decide (round.get_num r = pf_round_num (data msg))
                         then set_round (Some (set_state state_type.done r)) s else s
             | None => s
             end).
  assert (match _round s with
          | Some r => if decide (round.get_num r = pf_round_num (data msg))
                      then modify (set_round (Some (set_state state_type.done r)))
                      else ret tt
          | None => ret tt
          end s = Some (tt, s1, [])) as ->.
  { unfold s1. clear. destruct (_round s) as [r|]; [|done].
    destruct (decide (round.get_num r = _)); reflexivity. }
  rewrite on_proof_gained_eq. cbv zeta. rewrite bcast_eq.
  assert (_signature_providers s1 = _signature_providers s
          /\ _peer_messages s1 = _peer_messages s /\ _peers s1 = _peers s
          /\ _lib s1 = _lib s /\ _prefix_tree s1 = _prefix_tree s
          /\ _last_proofs s1 = _last_proofs s
          /\ _round s1 = (fun r => if decide (round.get_num r = pf_round_num (data msg))
                                   then set_state state_type.done r else r) <$> _round s)
    as (Hs1 & Hs2 & Hs3 & Hs4 & Hs5 & Hs6 & Hs7).
  { unfold s1. clear. destruct (_round s) as [r|] eqn:Er; [|by rewrite Er].
    destruct (decide (round.get_num r = _)); simpl; rewrite ?Er;
      [rewrite decide_True by done | rewrite decide_False by done]; done. }
  cbn [_peer_messages _peers _signature_providers set_last_prooved_block_num set_last_proofs].
  rewrite Hs1, Hs2, Hs3. fold best. fold notice.
  assert (forall s2, _last_prooved_block_num s2 = get_block_num best ->
            _is_syncing s2 = _is_syncing s -> _is_frozen s2 = _is_frozen s ->
            forall ses', on_proof ses' msg s2 = Some (tt, s2, [])) as Hdrop.
  { intros s2 H1 H2 H3 ses'. unfold on_proof. unfold mbind, M_bind. rewrite bind_get.
    rewrite H2, H3, Hg. fold best. rewrite H1, N.leb_refl. done. }
  assert (_is_syncing s1 = _is_syncing s /\ _is_frozen s1 = _is_frozen s) as [Hy Hz].
  { unfold s1. clear. destruct (_round s) as [r|]; [|done].
    by destruct (decide (round.get_num r = _)). }
  destruct (lru_cache.contains (_peer_messages s) notice);
    eexists; (split; [rewrite ?app_nil_r; reflexivity|]);
    cbn [_lib _prefix_tree _last_prooved_block_num _last_proofs _round
         set_peer_messages set_last_prooved_block_num set_last_proofs];
    rewrite Hs4, Hs5, Hs6, Hs7; repeat (split; [done|]);
    apply Hdrop; simpl; done.
Qed.

Lemma proof_msg_gains_finality_witness :
  exists s',
    on_proof 7 proof_msg_of_block_4 follower
      = Some (tt, s',
              [out_finality block_4;
               out_net 7 (msg_finality_notice (mk_msg (mk_notice 1 block_4) [99]))])
    /\ _lib s' = _lib follower
    /\ _last_prooved_block_num s' = get_block_num block_4
    /\ on_proof 7 proof_msg_of_block_4 s' = Some (tt, s', []).
Proof.
  destruct (proof_msg_gains_finality 7 proof_msg_of_block_4 follower)
    as (s' & H1 & H2 & _ & H4 & _ & _ & H7).
  - vm_compute. reflexivity.
  - vm_compute. reflexivity.
  - vm_compute. reflexivity.
  - intros r H. vm_compute in H. discriminate H.
  - vm_compute. reflexivity.
  - exists s'. split; [|split; [exact H2 | split; [exact H4 | apply H7]]].
    rewrite H1. f_equal.
Defined.

(** C1 as stated fails: the follower, with [_lib] at the root, handles a
    valid proof for block 4, which is ahead of [_last_prooved_block_num]
    and of [_lib]; it emits block 4 and the notice, and [_lib] is still
    the root, not block 4. *)
Lemma proof_msg_leaves_lib :
  _lib follower = genesis
  /\ validate_proof follower proof_of_block_4 = true
  /\ _last_prooved_block_num follower < get_block_num block_4
  /\ get_block_num (_lib follower) < get_block_num block_4
  /\ process_msg 0 (from_net 7 (msg_proof proof_msg_of_block_4)) follower
     = Some (tt, proved_follower,
             [out_finality block_4;
              out_net 7 (msg_finality_notice (mk_msg (mk_notice 1 block_4) [99]))])
  /\ _lib proved_follower = genesis
  /\ _lib proved_follower <> block_4.
Proof.
  repeat (refine (conj _ _); [vm_compute; reflexivity|]).
  intros H. vm_compute in H. discriminate H.
Qed.

(** ** The quorum of a round that is done *)

Section round_quorum.

Variable prevote_bcaster' : prevote_msg -> M randpa unit.
Variable precommit_bcaster' : precommit_msg -> M randpa unit.
Variable done_cb : M (randpa_round * randpa) unit.

Hypothesis done_cb_quorum : preserves (round_keeps precommit_quorum) done_cb.

Lemma add_prevote_quorum msg :
  preserves (round_keeps precommit_quorum) (round.add_prevote msg).
Proof.
  unfold round.add_prevote. preserve.
  - done.
  - intros Hd. discriminate Hd.
Qed.

Lemma add_precommit_quorum msg :
  preserves (round_keeps precommit_quorum) (round.add_precommit done_cb msg).
Proof.
  intros [r s] a [r' s'] o H Hq. unfold round.add_precommit in H.
  destruct (msg_public_keys msg) as [|key [|]]; try done.
  unfold mbind, M_bind in H. unfold bind at 1 2, modify_round, modify in H.
  cbn [fst snd] in H. rewrite bind_get in H. cbn [fst snd state set_proof set_precommited_keys] in H.
  set (r1 := set_proof _ _) in H.
  assert (precommit_quorum r1) as Hq1.
  { intros Hd. destruct (Hq Hd) as (bn & Hbn & Hlt). exists bn. split; [done|].
    change (pf_precommits (proof r1)) with (pf_precommits (proof r) ++ [msg]).
    rewrite length_app. by apply Nat.lt_lt_add_r. }
  destruct (decide (state r = state_type.done)).
  { unfold ret in H. by simplify_eq. }
  destruct (round.is_precommit_threshold_reached r1) as [[|]|] eqn:Et;
    [|unfold ret in H; by simplify_eq|done].
  unfold bind, modify in H. cbn [fst snd] in H.
  destruct (done_cb _) as [[[[] [r2 s2]] o2]|] eqn:Ed; [|done]. simplify_eq.
  apply (done_cb_quorum _ _ _ _ Ed). simpl. intros _.
  unfold round.is_precommit_threshold_reached in Et.
  destruct (best_node r1) as [bn|] eqn:Eb; [|done]. exists bn. split; [done|].
  simplify_eq. by apply Nat.ltb_lt.
Qed.

Lemma prevote_quorum :
  preserves (round_keeps precommit_quorum) (round.prevote prevote_bcaster').
Proof.
  unfold round.prevote. preserve; try apply add_prevote_quorum.
  all: intros Hd; discriminate Hd.
Qed.

Lemma precommit_quorum_kept :
  preserves (round_keeps precommit_quorum) (round.precommit precommit_bcaster' done_cb).
Proof.
  unfold round.precommit. preserve; try apply add_precommit_quorum.
  all: intros Hd; discriminate Hd.
Qed.

Lemma on_prevote_msg_quorum msg :
  preserves (round_keeps precommit_quorum) (round.on_prevote_msg msg).
Proof. unfold round.on_prevote_msg. preserve. apply add_prevote_quorum. Qed.

Lemma on_precommit_msg_quorum msg :
  preserves (round_keeps precommit_quorum) (round.on_precommit_msg done_cb msg).
Proof. unfold round.on_precommit_msg. preserve. apply add_precommit_quorum. Qed.

Lemma end_prevote_quorum :
  preserves (round_keeps precommit_quorum) (round.end_prevote precommit_bcaster' done_cb).
Proof.
  unfold round.end_prevote. preserve; try apply precommit_quorum_kept.
  - intros Hd; discriminate Hd.
  - intros Hd. destruct (Hkeep Hd) as (bn & ? & ?). by exists bn.
Qed.

End round_quorum.

Lemma finish_round_quorum : preserves (round_keeps precommit_quorum) finish_round.
Proof.
  intros [r s] a [r' s'] o H Hq. unfold finish_round in H.
  unfold mbind, M_bind in H.
  apply bind_Some in H as (rs0 & rs1 & o0 & o0' & Hget & H & ->).
  unfold get in Hget. simplify_eq. cbn [fst snd] in H.
  destruct (round.finish r) as [r1 finished] eqn:Ef.
  apply bind_Some in H as ([] & [r0 s0] & o1 & o2 & Hm & H & ->).
  unfold modify_round, modify in Hm. cbn [fst snd] in Hm.
  assert (r0 = r1 /\ s0 = s) as [-> ->] by (by simplify_eq). clear Hm.
  assert (r' = r1) as ->.
  { assert (preserves (round_keeps (fun x => x = r1))
              (if negb finished then ret tt
               else match round.get_proof r1 with
                    | Some proof =>
                        if get_block_num (_lib s) <? get_block_num (pf_best_block proof)
                        then lift_engine (on_proof_gained proof);;
                             lift_engine (update_lib (pf_best_block proof))
                        else ret tt
                    | None => throw
                    end)) as Hp by preserve.
    by apply (Hp _ _ _ _ H). }
  unfold round.finish in Ef. simpl. case_decide; simplify_eq; [|done].
  intros Hd. discriminate Hd.
Qed.

Lemma call_round_keeps I m :
  preserves (round_keeps I) m -> preserves (engine_keeps I) (call_round m).
Proof.
  intros Hm s a s' o H Hs. unfold call_round in H.
  destruct (_round s) as [r|] eqn:Er; [|done].
  destruct (m (r, s)) as [[[[] [r' s1]] o1]|] eqn:E; [|done]. simplify_eq.
  intros r2. simpl. intros [= <-]. apply (Hm _ _ _ _ E). simpl. auto.
Qed.

Lemma new_round_keeps n primary active :
  preserves (engine_keeps precommit_quorum) (new_round n primary active).
Proof.
  intros s a s' o H _. unfold new_round in H.
  destruct (round.prevote _ _) as [[[[] [r' s1]] o1]|] eqn:E; [|done]. simplify_eq.
  intros r2. simpl. intros [= <-].
  apply (prevote_quorum _ _ _ _ _ E). intros Hd. discriminate Hd.
Qed.

(** Engine actions that leave [_round] as it is. *)
Lemma same_round_keeps I s s' : _round s' = _round s -> engine_keeps I s s'.
Proof. intros E H. by rewrite E. Qed.

Lemma bcast_keeps I msg : preserves (engine_keeps I) (bcast msg).
Proof.
  intros s a s' o. rewrite bcast_eq.
  destruct (lru_cache.contains _ _); intros; simplify_eq; by apply same_round_keeps.
Qed.

Lemma process_round_msg_keeps msg n dispatch :
  preserves (round_keeps precommit_quorum) dispatch ->
  preserves (engine_keeps precommit_quorum) (process_round_msg msg n dispatch).
Proof.
  intros Hd. unfold process_round_msg. preserve; try apply bcast_keeps.
  - apply preserves_modify. intros s0. by apply same_round_keeps.
  - by apply call_round_keeps.
Qed.

Lemma schedule_round_keeps event :
  preserves (engine_keeps precommit_quorum) (schedule_round event).
Proof.
  unfold schedule_round. preserve.
  - intros s0 x s1 o H _ r Hr. unfold remove_round in H. unfold_M. by simplify_eq.
  - apply new_round_keeps.
  - apply call_round_keeps, end_prevote_quorum, finish_round_quorum.
Qed.

Lemma process_msg_keeps now msg :
  is_proof_msg msg = false ->
  preserves (engine_keeps precommit_quorum) (process_msg now msg).
Proof.
  intros Hp. destruct msg as [m|[e|e|e]]; simpl.
  - unfold process_net_msg. destruct (_ <? _)%Z; [apply (preserves_ret _ _)|].
    simpl in Hp. destruct (net_data m); try done.
    + apply process_round_msg_keeps, on_prevote_msg_quorum.
    + apply process_round_msg_keeps, on_precommit_msg_quorum, finish_round_quorum.
    + intros s a s' o. rewrite on_finality_notice_eq. intros; by simplify_eq.
    + intros s a s' o H. by apply on_finality_req_proof_state in H as ->.
    + unfold on_handshake. preserve.
      apply preserves_modify. intros s0. by apply same_round_keeps.
    + unfold on_handshake_ans. preserve.
      apply preserves_modify. intros s0. by apply same_round_keeps.
  - intros s a s' o. rewrite on_accepted_block_eq.
    destruct (tree.insert _ _ _ _) as [t|]; [|intros; by simplify_eq].
    destruct (_ || _); [intros; simplify_eq; by apply same_round_keeps|].
    intros H. etrans; [|exact (schedule_round_keeps _ _ _ _ _ H)].
    by apply same_round_keeps.
  - unfold on_irreversible. preserve.
    intros s0 x s1 o. rewrite update_lib_eq. intros; simplify_eq.
    by apply same_round_keeps.
  - intros s a s' o H. by apply on_new_peer_state in H as ->.
Qed.


Lemma rwp_process_all s msgs s' o :
  reachable_without_proof s ->
  forallb (fun msg => negb (is_proof_msg msg)) msgs = true ->
  process_all msgs s = Some (tt, s', o) ->
  reachable_without_proof s'.
Proof.
  revert s o. induction msgs as [|msg msgs IH]; intros s o Hr Hn H.
  - unfold process_all in H. simpl in H. unfold ret in H. by simplify_eq.
  - unfold process_all in H. cbn [for_each] in H. unfold mbind, M_bind in H.
    apply bind_Some in H as ([] & s1 & o1 & o2 & H1 & H2 & ->).
    simpl in Hn. apply andb_true_iff in Hn as [Hm Hn].
    eapply IH; [|exact Hn|exact H2].
    eapply rwp_step; [exact Hr| |exact H1]. by apply negb_true_iff.
Qed.



(** The threshold test of [add_precommit] counts entries: with two
    active BP keys, a network precommit signed with the local key 11 and
    the node's own precommit make two entries from one key, and the round
    is done, and block 3 final, on the precommit of a single producer. *)
Lemma done_round_with_one_precommitter :
  reachable_without_proof (engine_after twice_precommitted producer)
  /\ state (round_after twice_precommitted producer) = state_type.done
  /\ length (pf_precommits (proof (round_after twice_precommitted producer))) = 2%nat
  /\ size (precommited_keys (round_after twice_precommitted producer)) = 1%nat
  /\ (size <$> (active_bp_keys <$> best_node (round_after twice_precommitted producer)))
     = Some 2%nat
  /\ _lib (engine_after twice_precommitted producer) = block_3.
Proof.
  split.
  - apply (rwp_process_all producer twice_precommitted _ [out_finality block_3]).
    + unfold producer. apply rwp_start. vm_compute. reflexivity.
    + reflexivity.
    + vm_compute. reflexivity.
  - repeat (refine (conj _ _); [vm_compute; reflexivity|]). vm_compute. reflexivity.
Qed.

(** ** What a round never changes about itself *)

Section round_identity.

Variable prevote_bcaster' : prevote_msg -> M randpa unit.
Variable precommit_bcaster' : precommit_msg -> M randpa unit.
Variable done_cb : M (randpa_round * randpa) unit.
Variable I : randpa_round -> Prop.

Hypothesis I_state : forall v r, I r -> I (set_state v r).
Hypothesis I_proof : forall v r, I r -> I (set_proof v r).
Hypothesis I_best_node : forall v r, I r -> I (set_best_node v r).
Hypothesis I_prevoted_keys : forall v r, I r -> I (set_prevoted_keys v r).
Hypothesis I_precommited_keys : forall v r, I r -> I (set_precommited_keys v r).
Hypothesis done_cb_keeps : preserves (round_keeps I) done_cb.

Ltac kept :=
  repeat first [apply I_state | apply I_proof | apply I_best_node
               | apply I_prevoted_keys | apply I_precommited_keys];
  assumption.

Lemma add_prevote_keeps msg : preserves (round_keeps I) (round.add_prevote msg).
Proof. unfold round.add_prevote. preserve; kept. Qed.

Lemma add_precommit_keeps msg :
  preserves (round_keeps I) (round.add_precommit done_cb msg).
Proof. unfold round.add_precommit. preserve; kept. Qed.

Lemma prevote_keeps : preserves (round_keeps I) (round.prevote prevote_bcaster').
Proof. unfold round.prevote. preserve; try kept. apply add_prevote_keeps. Qed.

Lemma precommit_keeps :
  preserves (round_keeps I) (round.precommit precommit_bcaster' done_cb).
Proof. unfold round.precommit. preserve; try kept. apply add_precommit_keeps. Qed.

Lemma end_prevote_keeps :
  preserves (round_keeps I) (round.end_prevote precommit_bcaster' done_cb).
Proof. unfold round.end_prevote. preserve; try kept. apply precommit_keeps. Qed.

End round_identity.

Lemma finish_round_keeps I :
  (forall v r, I r -> I (set_state v r)) ->
  preserves (round_keeps I) finish_round.
Proof.
  intros I_state [r s] a [r' s'] o H Hq. unfold finish_round in H.
  unfold mbind, M_bind in H.
  apply bind_Some in H as (rs0 & rs1 & o0 & o0' & Hget & H & ->).
  unfold get in Hget. simplify_eq. cbn [fst snd] in H.
  destruct (round.finish r) as [r1 finished] eqn:Ef.
  apply bind_Some in H as ([] & [r0 s0] & o1 & o2 & Hm & H & ->).
  unfold modify_round, modify in Hm. cbn [fst snd] in Hm.
  assert (r0 = r1 /\ s0 = s) as [-> ->] by (by simplify_eq). clear Hm.
  assert (preserves (round_keeps I)
            (if negb finished then ret tt
             else match round.get_proof r1 with
                  | Some proof =>
                      if get_block_num (_lib s) <? get_block_num (pf_best_block proof)
                      then lift_engine (on_proof_gained proof);;
                           lift_engine (update_lib (pf_best_block proof))
                      else ret tt
                  | None => throw
                  end)) as Hp by preserve.
  apply (Hp _ _ _ _ H). simpl.
  unfold round.finish in Ef. case_decide; simplify_eq; [by apply I_state | done].
Qed.

Lemma remove_round_eq s : remove_round s = Some (tt, round_removed s, []).
Proof. reflexivity. Qed.

Lemma node_remove_confirmations_number n :
  tree.confirmation_number (tree.node_remove_confirmations n) = 0%nat.
Proof.
  induction n as [id c a d cs IH] using tree_node_induction. simpl.
  rewrite map_size_empty. simpl.
  induction cs as [|x cs IHcs]; [done|]. apply Forall_cons in IH as [Hx Hcs].
  simpl. rewrite Hx. simpl. auto.
Qed.

Lemma get_active_signature_providers_spec s active p :
  p ∈ get_active_signature_providers s active <->
  exists key, key ∈ active /\ _sig_provs_by_key s !! key = Some p.
Proof.
  unfold get_active_signature_providers. rewrite list_elem_of_omap.
  unfold sorted_keys. split.
  - intros (key & Hk & Hp). exists key. split; [|done].
    rewrite merge_sort_Permutation in Hk. by apply elem_of_elements in Hk.
  - intros (key & Hk & Hp). exists key. split; [|done].
    rewrite merge_sort_Permutation. by apply elem_of_elements.
Qed.

Lemma is_active_bp_true s id :
  is_active_bp s id = true ->
  _is_block_producer s = true
  /\ exists key node, key ∈ _public_keys s
                      /\ tree.find (_prefix_tree s) id = Some node
                      /\ key ∈ active_bp_keys node.
Proof.
  unfold is_active_bp. destruct (_is_block_producer s); [|done]. simpl.
  destruct (tree.find _ _) as [node|]; [|done].
  intros (key & Hk & Ha)%existsb_exists. split; [done|].
  exists key, node. split; [by apply list_elem_of_In|]. split; [done|].
  by apply bool_decide_eq_true in Ha.
Qed.

Lemma should_start_round_iff s id :
  should_start_round s id = true <->
  1 <= get_block_num id
  /\ (_round s = None \/ exists r, _round s = Some r /\ round.get_num r < round_num id).
Proof.
  unfold should_start_round. destruct (get_block_num id <? 1) eqn:E.
  - apply N.ltb_lt in E. split; [done | lia].
  - apply N.ltb_ge in E. destruct (_round s) as [r|].
    + rewrite N.ltb_lt. split.
      * intros. split; [done|]. right. eauto.
      * intros [_ [?|(r' & ? & ?)]]; [done | by simplify_eq].
    + split; [auto | done].
Qed.

(** ** Scheduling of rounds *)

Lemma round_identity_setters n p providers :
  (forall v r, round_identity n p providers r -> round_identity n p providers (set_state v r))
  /\ (forall v r, round_identity n p providers r -> round_identity n p providers (set_proof v r))
  /\ (forall v r, round_identity n p providers r -> round_identity n p providers (set_best_node v r))
  /\ (forall v r, round_identity n p providers r -> round_identity n p providers (set_prevoted_keys v r))
  /\ (forall v r, round_identity n p providers r -> round_identity n p providers (set_precommited_keys v r)).
Proof. repeat (refine (conj _ _)); intros v r (? & ? & ?); by repeat split. Qed.

Lemma new_round_identity n p active s s' o :
  new_round n p active s = Some (tt, s', o) ->
  exists r, _round s' = Some r
            /\ round_identity n p (get_active_signature_providers s active) r.
Proof.
  unfold new_round. intros H.
  destruct (round.prevote _ _) as [[[[] [r s1]] o1]|] eqn:E; [|done]. simplify_eq.
  exists r. split; [done|].
  destruct (round_identity_setters n p (get_active_signature_providers s active))
    as (H1 & H2 & H3 & H4 & H5).
  by apply (prevote_keeps prevote_bcaster _ H1 H3 H4 _ _ _ _ E).
Qed.

Lemma end_prevote_identity (I : randpa_round -> Prop) s s' o :
  (forall v r, I r -> I (set_state v r)) ->
  (forall v r, I r -> I (set_proof v r)) ->
  (forall v r, I r -> I (set_precommited_keys v r)) ->
  call_round (round.end_prevote precommit_bcaster finish_round) s = Some (tt, s', o) ->
  (forall r, _round s = Some r -> I r) ->
  forall r, _round s' = Some r -> I r.
Proof.
  intros H1 H2 H5 H. eapply (call_round_keeps I); [|exact H].
  apply end_prevote_keeps; auto. by apply finish_round_keeps.
Qed.




(** * Further properties of the engine and of the round *)

(** ** A frame rule for the handlers

    A preorder on engine states that the elementary writes respect is
    respected by the round methods, by the callbacks and by the handlers
    built from those writes. *)

Section frame.

Variable R : randpa -> randpa -> Prop.
Context {R_preorder : PreOrder R}.

Hypothesis R_tree : forall t s, R s (set_prefix_tree t s).
Hypothesis R_lib : forall v s, R s (set_lib v s).
Hypothesis R_round : forall v s, R s (set_round v s).
Hypothesis R_last_prooved : forall v s, R s (set_last_prooved_block_num v s).
Hypothesis R_last_proofs : forall p s,
  R s (set_last_proofs (circular_push_front _proofs_cache_size p (_last_proofs s)) s).
Hypothesis R_peer_insert : forall msg s,
  R s (set_peer_messages (lru_cache.insert (_peer_messages s) msg) s).
Hypothesis R_self_insert : forall msg s,
  R s (set_self_messages (lru_cache.insert (_self_messages s) msg) s).
Hypothesis R_peer_clear : forall s,
  R s (set_peer_messages (lru_cache.clear (_peer_messages s)) s).
Hypothesis R_self_clear : forall s,
  R s (set_self_messages (lru_cache.clear (_self_messages s)) s).
Hypothesis R_syncing : forall v s, R s (set_is_syncing v s).
Hypothesis R_frozen : forall v s, R s (set_is_frozen v s).
Hypothesis R_peers : forall k v s, R s (set_peers (<[k := v]> (_peers s)) s).

Lemma bcast_frame msg : preserves R (bcast msg).
Proof.
  intros s a s' o. rewrite bcast_eq.
  destruct (lru_cache.contains _ _); intros; simplify_eq; [done | apply R_peer_insert].
Qed.

Lemma on_proof_gained_frame proof : preserves R (on_proof_gained proof).
Proof.
  unfold on_proof_gained. preserve; try apply bcast_frame;
    apply preserves_modify; intros; auto.
Qed.

Lemma update_lib_frame lib_id : preserves R (update_lib lib_id).
Proof.
  intros s a s' o. rewrite update_lib_eq. intros; simplify_eq.
  etrans; [apply R_tree | apply R_lib].
Qed.

Lemma finish_round_frame : preserves (on_engine R) finish_round.
Proof.
  unfold finish_round. preserve.
  - apply on_proof_gained_frame.
  - apply update_lib_frame.
Qed.

Lemma add_prevote_frame msg : preserves (on_engine R) (round.add_prevote msg).
Proof.
  intros [r s] a [r' s'] o H. unfold round.add_prevote in H.
  destruct (msg_public_keys msg) as [|key [|]]; try done.
  unfold_M. simpl in H.
  destruct (tree.add_confirmations _ _ _ _) as [[t' n]|] eqn:E; [|done].
  assert (s' = set_prefix_tree t' s) as ->.
  { destruct (_ && _); simpl in H; by simplify_eq. }
  apply R_tree.
Qed.

Lemma add_precommit_frame msg :
  preserves (on_engine R) (round.add_precommit finish_round msg).
Proof. unfold round.add_precommit. preserve. apply finish_round_frame. Qed.

Lemma round_prevote_frame : preserves (on_engine R) (round.prevote prevote_bcaster).
Proof. unfold round.prevote. preserve; [apply add_prevote_frame | apply bcast_frame]. Qed.

Lemma round_precommit_frame :
  preserves (on_engine R) (round.precommit precommit_bcaster finish_round).
Proof.
  unfold round.precommit. preserve; [apply add_precommit_frame | apply bcast_frame].
Qed.

Lemma on_prevote_msg_frame msg : preserves (on_engine R) (round.on_prevote_msg msg).
Proof. unfold round.on_prevote_msg. preserve. apply add_prevote_frame. Qed.

Lemma on_precommit_msg_frame msg :
  preserves (on_engine R) (round.on_precommit_msg finish_round msg).
Proof. unfold round.on_precommit_msg. preserve. apply add_precommit_frame. Qed.

Lemma end_prevote_frame :
  preserves (on_engine R) (round.end_prevote precommit_bcaster finish_round).
Proof. unfold round.end_prevote. preserve. apply round_precommit_frame. Qed.

Lemma call_round_frame m :
  preserves (on_engine R) m -> preserves R (call_round m).
Proof.
  intros Hm s a s' o H. unfold call_round in H.
  destruct (_round s) as [r|]; [|done].
  destruct (m (r, s)) as [[[[] [r' s1]] o1]|] eqn:E; [|done]. simplify_eq.
  etrans; [exact (Hm _ _ _ _ E) | apply R_round].
Qed.

Lemma new_round_frame n primary active : preserves R (new_round n primary active).
Proof.
  intros s a s' o H. unfold new_round in H.
  destruct (round.prevote _ _) as [[[[] [r' s1]] o1]|] eqn:E; [|done]. simplify_eq.
  etrans; [exact (round_prevote_frame _ _ _ _ E) | apply R_round].
Qed.

Lemma process_round_msg_frame msg n dispatch :
  preserves (on_engine R) dispatch ->
  preserves R (process_round_msg msg n dispatch).
Proof.
  intros Hd. unfold process_round_msg. preserve; try apply bcast_frame.
  - apply preserves_modify. intros. apply R_self_insert.
  - by apply call_round_frame.
Qed.

Lemma on_proof_frame ses msg : preserves R (on_proof ses msg).
Proof.
  unfold on_proof. preserve; try apply on_proof_gained_frame;
    apply preserves_modify; intros; apply R_round.
Qed.

Lemma on_handshake_frame ses msg : preserves R (on_handshake ses msg).
Proof.
  unfold on_handshake. preserve. apply preserves_modify. intros. apply R_peers.
Qed.

Lemma on_handshake_ans_frame ses msg : preserves R (on_handshake_ans ses msg).
Proof.
  unfold on_handshake_ans. preserve. apply preserves_modify. intros. apply R_peers.
Qed.

Lemma remove_round_frame : preserves R remove_round.
Proof.
  unfold remove_round. preserve; apply preserves_modify; intros; auto.
Qed.

Lemma schedule_round_frame event : preserves R (schedule_round event).
Proof.
  unfold schedule_round. preserve.
  - apply remove_round_frame.
  - apply new_round_frame.
  - apply call_round_frame, end_prevote_frame.
Qed.

Lemma on_accepted_block_frame event : preserves R (on_accepted_block event).
Proof.
  intros s a s' o. rewrite on_accepted_block_eq.
  destruct (tree.insert _ _ _ _) as [t|]; [|intros; by simplify_eq].
  assert (R s (after_insert event t s)) as H1.
  { unfold after_insert. etrans; [apply R_tree|]. etrans; [apply R_syncing|]. apply R_frozen. }
  destruct (_ || _); [intros; by simplify_eq|].
  intros H. etrans; [exact H1 | exact (schedule_round_frame _ _ _ _ _ H)].
Qed.

Lemma on_irreversible_frame event : preserves R (on_irreversible event).
Proof. unfold on_irreversible. preserve. apply update_lib_frame. Qed.

(** Every message but a handshake or its answer, which write [_peers]. *)
Lemma process_msg_frame_rest now msg :
  is_handshake msg = false -> preserves R (process_msg now msg).
Proof.
  intros Hh. destruct msg as [m|[e|e|e]]; simpl.
  - unfold process_net_msg. destruct (_ <? _)%Z; [apply (preserves_ret _ _)|].
    simpl in Hh. destruct (net_data m); try done.
    + apply process_round_msg_frame, on_prevote_msg_frame.
    + apply process_round_msg_frame, on_precommit_msg_frame.
    + intros s a s' o. rewrite on_finality_notice_eq. intros; by simplify_eq.
    + intros s a s' o H. by apply on_finality_req_proof_state in H as ->.
    + apply on_proof_frame.
  - apply on_accepted_block_frame.
  - apply on_irreversible_frame.
  - intros s a s' o H. by apply on_new_peer_state in H as ->.
Qed.

Lemma process_msg_frame now msg : preserves R (process_msg now msg).
Proof.
  destruct (is_handshake msg) eqn:Hh; [|by apply process_msg_frame_rest].
  destruct msg as [m|]; [|done]. simpl. unfold process_net_msg.
  destruct (_ <? _)%Z; [apply (preserves_ret _ _)|].
  simpl in Hh. destruct (net_data m); try done.
  - apply on_handshake_frame.
  - apply on_handshake_ans_frame.
Qed.

End frame.

(** ** Round numbers *)

Lemma get_block_num_lt id : get_block_num id < 2 ^ 32.
Proof. unfold get_block_num. apply N.mod_lt. done. Qed.

Lemma u32_sub_one n : n < 2 ^ 32 ->
  u32_sub n 1 = if decide (n = 0) then 2 ^ 32 - 1 else n - 1.
Proof.
  intros Hn. unfold u32_sub. rewrite (N.mod_small 1) by done.
  case_decide as E.
  - subst. by vm_compute.
  - replace (n + 2 ^ 32 - 1) with ((n - 1) + 1 * 2 ^ 32) by lia.
    rewrite N.Div0.mod_add. apply N.mod_small. lia.
Qed.

(** X1: [round_num] and [num_in_round] split the block number, less one,
    by the round width: a block numbered [n >= 1] is block
    [num_in_round] (0 or 1) of round [round_num], with
    [n = 2 * round_num + num_in_round + 1].  The subtraction is unsigned:
    a block numbered 0 falls in round 2147483647, at the position where
    the prevote phase ends. *)
Theorem round_num_decomposition id :
  num_in_round id < round_width
  /\ (1 <= get_block_num id ->
      get_block_num id = round_width * round_num id + num_in_round id + 1)
  /\ (get_block_num id = 0 ->
      round_num id = 2147483647 /\ num_in_round id = prevote_width).
Proof.
  pose proof (get_block_num_lt id) as Hlt.
  unfold round_num, num_in_round. rewrite (u32_sub_one _ Hlt).
  split; [apply N.mod_lt; done|]. split.
  - intros H1. rewrite decide_False by lia.
    pose proof (N.div_mod (get_block_num id - 1) round_width) as Hd.
    unfold round_width in *. lia.
  - intros ->. by vm_compute.
Qed.

(** ** Signature providers *)

Lemma foldl_insert_lookup (l : list (public_key_type * signature_provider_type)) :
  forall (m : gmap public_key_type signature_provider_type) key,
  NoDup l.*1 ->
  foldl (fun m kp => <[kp.1 := kp.2]> m) m l !! key
  = match list_find (fun kp => kp.1 = key) l with
    | Some (_, kp) => Some kp.2
    | None => m !! key
    end.
Proof.
  induction l as [|[k p] l IH]; intros m key Hn; [done|].
  apply NoDup_cons in Hn as [Hk Hn]. cbn [foldl list_find fst snd].
  rewrite IH by done. case_decide as E; simpl in E.
  - subst k. destruct (list_find _ l) as [[i kp]|] eqn:El; simpl.
    + apply list_find_Some in El as (Hi & <- & _). destruct Hk.
      apply list_elem_of_fmap. exists kp. split; [done|]. by eapply list_elem_of_lookup_2.
    + by rewrite lookup_insert_eq.
  - destruct (list_find _ l) as [[i kp]|]; simpl; [done|].
    by rewrite lookup_insert_ne.
Qed.

Lemma set_signature_providers_Some providers keys s s' :
  set_signature_providers providers keys s = Some s' ->
  _is_block_producer s = true /\ length providers = length keys
  /\ _sig_provs_by_key s' = foldl (fun m kp => <[kp.1 := kp.2]> m) ∅ (zip keys providers)
  /\ _signature_providers s' = providers /\ _public_keys s' = keys.
Proof.
  unfold set_signature_providers. destruct (_is_block_producer s); [|done]. simpl.
  case_bool_decide; [|done]. simpl. intros; by simplify_eq.
Qed.

(** X2: [set_signature_providers] succeeds only on a block producer and
    with as many providers as keys.  With distinct keys, the map it
    builds gives for the i-th key the i-th provider and nothing for any
    other key, so that [get_active_signature_providers] returns exactly
    the providers whose key is among the active ones. *)
Theorem set_signature_providers_lookup providers keys s s' :
  set_signature_providers providers keys s = Some s' ->
  NoDup keys ->
  _is_block_producer s = true
  /\ length providers = length keys
  /\ (forall i key, keys !! i = Some key -> _sig_provs_by_key s' !! key = providers !! i)
  /\ (forall key, key ∉ keys -> _sig_provs_by_key s' !! key = None)
  /\ (forall active p,
        p ∈ get_active_signature_providers s' active
        <-> exists i key, keys !! i = Some key /\ key ∈ active /\ providers !! i = Some p).
Proof.
  intros (Hbp & Hlen & Hmap & _ & _)%set_signature_providers_Some Hn.
  assert (fst <$> zip keys providers = keys) as Hfst by (apply fst_zip; lia).
  assert (forall key, _sig_provs_by_key s' !! key
            = match list_find (fun kp => kp.1 = key) (zip keys providers) with
              | Some (_, kp) => Some kp.2
              | None => None
              end) as Hl.
  { intros key. rewrite Hmap, foldl_insert_lookup by (by rewrite Hfst).
    by destruct (list_find _ _) as [[]|]. }
  assert (forall i key, keys !! i = Some key ->
            _sig_provs_by_key s' !! key = providers !! i) as Hi.
  { intros i key Hk. rewrite Hl.
    destruct (lookup_lt_is_Some_2 providers i) as [p Hp].
    { rewrite Hlen. by eapply lookup_lt_Some. }
    assert (zip keys providers !! i = Some (key, p)) as Hz.
    { rewrite lookup_zip_with. rewrite Hk. simpl. rewrite Hp. done. }
    destruct (list_find _ _) as [[j [k' p']]|] eqn:Ef.
    - apply list_find_Some in Ef as (Hj & Hk' & _). simpl in *. subst k'.
      assert (keys !! j = Some key) as Hkj.
      { rewrite <- Hfst, list_lookup_fmap, Hj. done. }
      rewrite (NoDup_lookup _ _ _ _ Hn Hk Hkj).
      rewrite lookup_zip_with in Hj. rewrite Hkj in Hj. simpl in Hj.
      destruct (providers !! j); simpl in *; congruence.
    - eapply list_find_None, Forall_lookup_1 in Ef; [|exact Hz]. done. }
  assert (forall key, key ∉ keys -> _sig_provs_by_key s' !! key = None) as Ho.
  { intros key Hk. rewrite Hl.
    destruct (list_find _ _) as [[j [k' p']]|] eqn:Ef; [|done].
    apply list_find_Some in Ef as (Hj & Hk' & _). simpl in *. subst k'.
    destruct Hk. rewrite <- Hfst. apply list_elem_of_fmap. exists (key, p').
    split; [done|]. by eapply list_elem_of_lookup_2. }
  split; [done|]. split; [done|]. split; [done|]. split; [done|].
  intros active p. rewrite get_active_signature_providers_spec. split.
  - intros (key & Ha & Hp). destruct (decide (key ∈ keys)) as [Hk|Hk].
    + apply list_elem_of_lookup in Hk as [i Hk]. exists i, key.
      split; [done|]. split; [done|]. by rewrite <- (Hi _ _ Hk).
    + by rewrite Ho in Hp.
  - intros (i & key & Hk & Ha & Hp). exists key. split; [done|].
    by rewrite (Hi _ _ Hk).
Qed.

Lemma set_signature_providers_lookup_witness :
  _is_block_producer (set_type_block_producer (randpa_new 99)) = true
  /\ length [11] = length [11]
  /\ (forall i key, [11] !! i = Some key -> _sig_provs_by_key configured !! key = [11] !! i)
  /\ (forall key, key ∉ [11] -> _sig_provs_by_key configured !! key = None)
  /\ (forall active p,
        p ∈ get_active_signature_providers configured active
        <-> exists i key, [11] !! i = Some key /\ key ∈ active /\ [11] !! i = Some p).
Proof.
  refine (set_signature_providers_lookup [11] [11] (set_type_block_producer (randpa_new 99))
            configured _ _).
  - vm_compute. reflexivity.
  - apply NoDup_singleton.
Defined.

(** X3: [add_signature_provider] after [set_signature_providers] leaves
    the engine as [set_signature_providers] does with the provider and
    the key appended to its lists. *)
Theorem add_signature_provider_extends providers keys sp key s s1 :
  set_signature_providers providers keys s = Some s1 ->
  add_signature_provider sp key s1
  = set_signature_providers (providers ++ [sp]) (keys ++ [key]) s.
Proof.
  unfold set_signature_providers, add_signature_provider.
  destruct (_is_block_producer s) eqn:Ebp; [|done]. simpl.
  case_bool_decide as Hlen; [|done]. simpl. intros [= <-]. simpl.
  rewrite bool_decide_eq_true_2 by (rewrite !length_app; simpl; lia).
  simpl. f_equal. f_equal.
  rewrite zip_with_app by done. by rewrite foldl_app.
Qed.

Lemma add_signature_provider_extends_witness :
  add_signature_provider 12 12 configured
  = set_signature_providers [11; 12] [11; 12] (set_type_block_producer (randpa_new 99)).
Proof.
  refine (add_signature_provider_extends [11] [11] 12 12
            (set_type_block_producer (randpa_new 99)) configured _).
  vm_compute. reflexivity.
Defined.

(** ** Peers *)

Lemma set_peers_same s : set_peers (_peers s) s = s.
Proof. by destruct s. Qed.

Lemma on_handshake_eq ses (msg : handshake_msg) s :
  on_handshake ses msg s
  = Some (tt, set_peers (foldl (fun m k => <[k := ses]> m) (_peers s) (msg_public_keys msg)) s,
          replicate (length (msg_public_keys msg))
            (out_net ses (msg_handshake_ans
                            (mk_msg (mk_handshake_ans (_lib s)) (_signature_providers s))))).
Proof.
  unfold on_handshake. revert s.
  induction (msg_public_keys msg) as [|k keys IH]; intros s.
  - simpl. unfold ret. by rewrite set_peers_same.
  - cbn [for_each]. unfold mbind, M_bind in *. unfold bind at 1. unfold bind at 1.
    unfold modify at 1. unfold bind at 1. unfold get at 1. unfold send at 1, emit at 1.
    by rewrite IH.
Qed.

Lemma on_handshake_ans_eq ses (msg : handshake_ans_msg) s :
  on_handshake_ans ses msg s
  = Some (tt, set_peers (foldl (fun m k => <[k := ses]> m) (_peers s) (msg_public_keys msg)) s,
          []).
Proof.
  unfold on_handshake_ans. revert s.
  induction (msg_public_keys msg) as [|k keys IH]; intros s.
  - simpl. unfold ret. by rewrite set_peers_same.
  - cbn [for_each]. unfold mbind, M_bind in *. unfold bind at 1.
    unfold modify at 1. by rewrite IH.
Qed.

Lemma foldl_register_lookup ses keys : forall (peers : gmap public_key_type N) key,
  foldl (fun m k => <[k := ses]> m) peers keys !! key
  = if decide (key ∈ keys) then Some ses else peers !! key.
Proof.
  induction keys as [|k keys IH]; intros peers key; [done|].
  simpl. rewrite IH. destruct (decide (key ∈ keys)) as [Hk|Hk].
  - rewrite decide_True; [done | by right].
  - destruct (decide (key = k)) as [->|Hne].
    + rewrite decide_True by left. by rewrite lookup_insert_eq.
    + rewrite decide_False by (intros [?|?]%elem_of_cons; done).
      by rewrite lookup_insert_ne.
Qed.

(** X4: a handshake and a handshake answer change nothing but [_peers],
    where every key of the message is mapped to the session it came
    from, the other keys staying as they were.  A handshake is answered
    once for each of its signatures, with [_lib]; one without signatures
    registers nobody and gets no answer.  A handshake answer is not
    answered. *)
Theorem handshakes_register_peers ses s :
  (forall msg : handshake_msg, exists peers',
     on_handshake ses msg s
     = Some (tt, set_peers peers' s,
             replicate (length (signatures msg))
               (out_net ses (msg_handshake_ans
                               (mk_msg (mk_handshake_ans (_lib s)) (_signature_providers s)))))
     /\ (forall key, peers' !! key
           = if decide (key ∈ msg_public_keys msg) then Some ses else _peers s !! key))
  /\ (forall msg : handshake_ans_msg, exists peers',
        on_handshake_ans ses msg s = Some (tt, set_peers peers' s, [])
        /\ (forall key, peers' !! key
              = if decide (key ∈ msg_public_keys msg) then Some ses else _peers s !! key)).
Proof.
  split; intros msg;
    exists (foldl (fun m k => <[k := ses]> m) (_peers s) (msg_public_keys msg));
    (split; [|apply foldl_register_lookup]).
  - rewrite on_handshake_eq. unfold msg_public_keys. by rewrite length_map.
  - apply on_handshake_ans_eq.
Qed.

Lemma elem_of_sorted_bindings {V} (m : gmap public_key_type V) k v :
  (k, v) ∈ sorted_bindings m <-> m !! k = Some v.
Proof.
  unfold sorted_bindings. rewrite merge_sort_Permutation. apply elem_of_map_to_list.
Qed.

(** X5: [bcast] of a message whose digest is not in [_peer_messages]
    sends the message once for every key of [_peers], to the session of
    that key, and to no other session; it leaves [_peers] as it is and
    records the digest. *)
Theorem bcast_reaches_every_peer msg s :
  lru_cache.contains (_peer_messages s) msg = false ->
  exists s' o,
    bcast msg s = Some (tt, s', o)
    /\ length o = size (_peers s)
    /\ (forall x, x ∈ o <-> exists key ses, _peers s !! key = Some ses /\ x = out_net ses msg)
    /\ _peers s' = _peers s
    /\ lru_cache.contains (_peer_messages s') msg = true.
Proof.
  intros Hc. rewrite bcast_eq, Hc. eexists _, _. split; [done|].
  split; [|split; [|split]].
  - rewrite app_nil_r, length_map. unfold sorted_bindings.
    rewrite merge_sort_Permutation. by rewrite length_map_to_list.
  - intros x. rewrite app_nil_r, list_elem_of_fmap. split.
    + intros ([k v] & -> & Hk). exists k, v. split; [|done].
      by apply elem_of_sorted_bindings.
    + intros (k & v & Hk & ->). exists (k, v). split; [done|].
      by apply elem_of_sorted_bindings.
  - done.
  - simpl. apply lru_contains_insert.
Qed.

Lemma bcast_reaches_every_peer_witness :
  exists s' o,
    bcast (msg_precommit (precommit_of 1 block_4 [11])) follower = Some (tt, s', o)
    /\ length o = size (_peers follower)
    /\ (forall x, x ∈ o <-> exists key ses,
          _peers follower !! key = Some ses
          /\ x = out_net ses (msg_precommit (precommit_of 1 block_4 [11])))
    /\ _peers s' = _peers follower
    /\ lru_cache.contains (_peer_messages s') (msg_precommit (precommit_of 1 block_4 [11]))
       = true.
Proof.
  apply (bcast_reaches_every_peer (msg_precommit (precommit_of 1 block_4 [11])) follower).
  vm_compute. reflexivity.
Defined.

(** ** The cache of proofs *)

Lemma on_proof_gained_last_proofs proof s s' o :
  on_proof_gained proof s = Some (tt, s', o) ->
  _last_proofs s' = circular_push_front _proofs_cache_size proof (_last_proofs s)
  /\ _signature_providers s' = _signature_providers s.
Proof.
  rewrite on_proof_gained_eq. cbv zeta. rewrite bcast_eq.
  destruct (lru_cache.contains _ _); intros; by simplify_eq.
Qed.

(** X6: once [on_proof_gained] has taken a proof, a [finality_req_proof]
    for the round of that proof is answered with that proof, sent to the
    asking session only, whatever was cached before.  A request for
    another round is answered with the proof that was the most recent
    one before, if that is a proof of the requested round, and is not
    answered otherwise: two proofs are kept.  A request changes
    nothing. *)
Theorem proof_cache_round_trip proof s s1 o ses (msg : finality_req_proof_msg) :
  on_proof_gained proof s = Some (tt, s1, o) ->
  on_finality_req_proof ses msg s1
  = Some (tt, s1,
          if decide (pf_round_num proof = rp_round_num (data msg))
          then [out_net ses (msg_proof (mk_msg proof (_signature_providers s)))]
          else match head (_last_proofs s) with
               | Some earlier =>
                   if decide (pf_round_num earlier = rp_round_num (data msg))
                   then [out_net ses (msg_proof (mk_msg earlier (_signature_providers s)))]
                   else []
               | None => []
               end).
Proof.
  intros (Hl & Hs)%on_proof_gained_last_proofs.
  unfold on_finality_req_proof. unfold mbind, M_bind. rewrite bind_get.
  rewrite Hl, Hs. unfold circular_push_front, _proofs_cache_size. cbn [take List.find].
  case_bool_decide as E1; [by rewrite decide_True|]. rewrite decide_False by done.
  destruct (_last_proofs s) as [|earlier rest]; [done|]. cbn [take List.find head].
  case_bool_decide as E2; [by rewrite decide_True|]. by rewrite decide_False.
Qed.

Lemma proof_cache_round_trip_witness :
  on_finality_req_proof 8 (mk_msg (mk_req_proof 1) [])
    (state_of (on_proof_gained proof_of_block_4) follower)
  = Some (tt, state_of (on_proof_gained proof_of_block_4) follower,
          [out_net 8 (msg_proof (mk_msg proof_of_block_4 [99]))]).
Proof.
  refine (proof_cache_round_trip proof_of_block_4 follower _
            (output_of (on_proof_gained proof_of_block_4) follower)
            8 (mk_msg (mk_req_proof 1) []) _).
  vm_compute. reflexivity.
Defined.

(** ** Proof messages, again *)

(** X7: a [proof_msg] is handled without failure, and all or nothing:
    either the engine is left as it was and nothing is sent, or all the
    gates were open (not syncing, not frozen, the block ahead of
    [_last_prooved_block_num] and of [_lib], the round not done), the
    proof is valid for the tree of the engine, and its block goes out on
    the finality channel. *)
Theorem proof_msg_all_or_nothing ses msg s :
  exists s' o,
    on_proof ses msg s = Some (tt, s', o)
    /\ ((s' = s /\ o = [])
        \/ (_is_syncing s || _is_frozen s = false
            /\ _last_prooved_block_num s < get_block_num (pf_best_block (data msg))
            /\ get_block_num (_lib s) < get_block_num (pf_best_block (data msg))
            /\ (forall r, _round s = Some r -> state r <> state_type.done)
            /\ validate_proof s (data msg) = true
            /\ out_finality (pf_best_block (data msg)) ∈ o)).
Proof.
  unfold on_proof. unfold mbind, M_bind. rewrite bind_get.
  destruct (_is_syncing s || _is_frozen s) eqn:Eg; [exists s, []; split; [done | by left]|].
  destruct (_ <=? _last_prooved_block_num s) eqn:Ep; [exists s, []; split; [done | by left]|].
  destruct (_ <=? get_block_num (_lib s)) eqn:El; [exists s, []; split; [done | by left]|].
  destruct (match _round s with Some r => _ | None => false end) eqn:Er;
    [exists s, []; split; [done | by left]|].
  destruct (validate_proof s (data msg)) eqn:Ev; [|exists s, []; split; [done | by left]].
  cbn [negb]. apply N.leb_gt in Ep, El.
  assert (forall r, _round s = Some r -> state r <> state_type.done) as Hr.
  { intros r Hs. rewrite Hs in Er. by apply bool_decide_eq_false in Er. }
  assert (forall s0, exists s' o,
            on_proof_gained (data msg) s0 = Some (tt, s', o)
            /\ out_finality (pf_best_block (data msg)) ∈ o) as Hg.
  { intros s0. rewrite on_proof_gained_eq. cbv zeta. rewrite bcast_eq.
    destruct (lru_cache.contains _ _); eexists _, _; (split; [done | left]). }
  unfold bind.
  destruct (_round s) as [r|].
  - destruct (decide _).
    + unfold modify. destruct (Hg (set_round (Some (set_state state_type.done r)) s))
        as (s' & o & -> & Ho). eexists _, _. split; [done|]. right. simpl. auto 10.
    + unfold ret. destruct (Hg s) as (s' & o & -> & Ho).
      eexists _, _. split; [done|]. right. simpl. auto 10.
  - unfold ret. destruct (Hg s) as (s' & o & -> & Ho).
    eexists _, _. split; [done|]. right. simpl. auto 10.
Qed.

(** ** What the messages leave alone *)

#[global] Instance same_config_preorder : PreOrder same_config.
Proof.
  split.
  - intros s. by repeat split.
  - intros a b c (? & ? & ? & ?) (? & ? & ? & ?). repeat split; congruence.
Qed.



#[global] Instance same_peers_preorder : PreOrder same_peers.
Proof.
  split.
  - intros s. reflexivity.
  - intros a b c Hab Hbc. unfold same_peers in *. congruence.
Qed.

#[global] Instance peers_kept_preorder : PreOrder peers_kept.
Proof.
  split.
  - intros s. unfold peers_kept. set_solver.
  - intros a b c Hab Hbc. unfold peers_kept in *. set_solver.
Qed.




(** ** Invariants of the round, through the engine *)

Section round_invariant.

Variable I : randpa_round -> Prop.

Hypothesis I_state : forall v r, I r -> I (set_state v r).
Hypothesis I_proof : forall v r, I r -> I (set_proof v r).
Hypothesis I_best_node : forall v r, I r -> I (set_best_node v r).
Hypothesis I_prevoted_keys : forall v r, I r -> I (set_prevoted_keys v r).
Hypothesis I_precommited_keys : forall v r, I r -> I (set_precommited_keys v r).

Lemma on_prevote_msg_invariant msg :
  preserves (round_keeps I) (round.on_prevote_msg msg).
Proof. unfold round.on_prevote_msg. preserve. by apply add_prevote_keeps. Qed.

Lemma on_precommit_msg_invariant msg :
  preserves (round_keeps I) (round.on_precommit_msg finish_round msg).
Proof.
  unfold round.on_precommit_msg. preserve.
  apply add_precommit_keeps; auto. by apply finish_round_keeps.
Qed.

Lemma end_prevote_invariant :
  preserves (round_keeps I) (round.end_prevote precommit_bcaster finish_round).
Proof. apply end_prevote_keeps; auto. by apply finish_round_keeps. Qed.

Lemma process_round_msg_invariant msg n dispatch :
  preserves (round_keeps I) dispatch ->
  preserves (engine_keeps I) (process_round_msg msg n dispatch).
Proof.
  intros Hd. unfold process_round_msg. preserve; try apply bcast_keeps.
  - apply preserves_modify. intros s0. by apply same_round_keeps.
  - by apply call_round_keeps.
Qed.

Lemma on_proof_gained_invariant proof : preserves (engine_keeps I) (on_proof_gained proof).
Proof.
  intros s a s' o. rewrite on_proof_gained_eq. cbv zeta. rewrite bcast_eq.
  destruct (lru_cache.contains _ _); intros; simplify_eq; by apply same_round_keeps.
Qed.

Lemma on_proof_invariant ses msg : preserves (engine_keeps I) (on_proof ses msg).
Proof.
  intros s a s' o H. unfold on_proof in H. unfold mbind, M_bind in H.
  rewrite bind_get in H.
  destruct (_ || _); [unfold ret in H; by simplify_eq|].
  destruct (_ <=? _last_prooved_block_num s); [unfold ret in H; by simplify_eq|].
  destruct (_ <=? get_block_num (_lib s)); [unfold ret in H; by simplify_eq|].
  destruct (match _round s with Some r => _ | None => false end);
    [unfold ret in H; by simplify_eq|].
  destruct (negb _); [unfold ret in H; by simplify_eq|].
  destruct (bind _ _ s) as [[[[] s2] o2]|] eqn:E; [|done].
  assert (s2 = s') as -> by (by simplify_eq). clear H.
  apply bind_Some in E as ([] & s1 & o1 & o1' & E1 & E2 & ->).
  etrans; [|exact (on_proof_gained_invariant _ _ _ _ _ E2)].
  destruct (_round s) as [r|] eqn:Er; [|unfold ret in E1; by simplify_eq].
  destruct (decide _); [|unfold ret in E1; by simplify_eq].
  unfold modify in E1. assert (s1 = set_round (Some (set_state state_type.done r)) s)
    as -> by (by simplify_eq).
  intros Hs r0. simpl. intros [= <-]. apply I_state. by apply Hs.
Qed.

Lemma process_net_msg_invariant now msg : preserves (engine_keeps I) (process_net_msg now msg).
Proof.
  unfold process_net_msg. destruct (_ <? _)%Z; [apply (preserves_ret _ _)|].
  destruct (net_data msg).
  - apply process_round_msg_invariant, on_prevote_msg_invariant.
  - apply process_round_msg_invariant, on_precommit_msg_invariant.
  - intros s a s' o. rewrite on_finality_notice_eq. intros; by simplify_eq.
  - intros s a s' o H. by apply on_finality_req_proof_state in H as ->.
  - apply on_proof_invariant.
  - intros s a s' o. rewrite on_handshake_eq. intros; simplify_eq.
    by apply same_round_keeps.
  - intros s a s' o. rewrite on_handshake_ans_eq. intros; simplify_eq.
    by apply same_round_keeps.
Qed.

(** The round that [schedule_round] leaves is the one it found, or one
    constructed for the block of the event after the old one was
    removed. *)
Lemma schedule_round_invariant event s s' o :
  schedule_round event s = Some (tt, s', o) ->
  (should_start_round s (ev_block_id event) = true ->
   is_active_bp (round_removed s) (ev_block_id event) = true ->
   forall r, round_identity (round_num (ev_block_id event)) (ev_creator_key event)
               (get_active_signature_providers (round_removed s) (ev_active_bp_keys event)) r ->
             I r) ->
  engine_keeps I s s'.
Proof.
  intros H Hnew. unfold schedule_round in H. unfold mbind, M_bind in H.
  rewrite bind_get in H.
  destruct (bind _ _ s) as [[[[] s2] o2]|] eqn:E; [|done].
  assert (s2 = s') as -> by (by simplify_eq). clear H.
  apply bind_Some in E as ([] & s1 & o1 & o1' & E1 & E2 & ->).
  assert (engine_keeps I s s1) as H1.
  { destruct (should_start_round s (ev_block_id event)) eqn:Es.
    - apply bind_Some in E1 as ([] & s0 & o0 & o0' & Er & E1 & ->).
      rewrite remove_round_eq in Er. assert (s0 = round_removed s) as -> by (by simplify_eq).
      rewrite bind_get in E1.
      destruct (is_active_bp (round_removed s) (ev_block_id event)) eqn:Ea.
      + destruct (new_round _ _ _ _) as [[[[] s3] o3]|] eqn:En; [|done].
        assert (s3 = s1) as -> by (by simplify_eq).
        apply new_round_identity in En as (r & Hr & Hi).
        intros _ r'. rewrite Hr. intros [= <-]. by apply Hnew.
      + unfold ret in E1. assert (s1 = round_removed s) as -> by (by simplify_eq).
        intros _ r'. simpl. done.
    - unfold ret in E1. by simplify_eq. }
  etrans; [exact H1|]. rewrite bind_get in E2.
  destruct (should_end_prevote s1 (ev_block_id event)).
  - assert (call_round (round.end_prevote precommit_bcaster finish_round) s1
            = Some (tt, s', o1')) as Hc.
    { destruct (call_round _ s1) as [[[[] ?] ?]|]; by simplify_eq. }
    exact (call_round_keeps I _ end_prevote_invariant _ _ _ _ Hc).
  - unfold ret in E2. by simplify_eq.
Qed.

Lemma on_irreversible_invariant event : preserves (engine_keeps I) (on_irreversible event).
Proof.
  unfold on_irreversible. preserve.
  intros s0 x s1 o. rewrite update_lib_eq. intros; simplify_eq.
  by apply same_round_keeps.
Qed.

End round_invariant.

Lemma on_accepted_block_invariant (I : randpa_round -> Prop) event s s' o :
  (forall v r, I r -> I (set_state v r)) ->
  (forall v r, I r -> I (set_proof v r)) ->
  (forall v r, I r -> I (set_best_node v r)) ->
  (forall v r, I r -> I (set_prevoted_keys v r)) ->
  (forall v r, I r -> I (set_precommited_keys v r)) ->
  on_accepted_block event s = Some (tt, s', o) ->
  (forall s0, _round s0 = _round s -> _is_block_producer s0 = _is_block_producer s ->
     should_start_round s0 (ev_block_id event) = true ->
     is_active_bp (round_removed s0) (ev_block_id event) = true ->
     forall r, num r = round_num (ev_block_id event) /\ primary r = ev_creator_key event ->
               I r) ->
  engine_keeps I s s'.
Proof.
  intros H1 H2 H3 H4 H5 H Hnew. rewrite on_accepted_block_eq in H.
  destruct (tree.insert _ _ _ _) as [t|]; [|by simplify_eq].
  destruct (_ || _); [simplify_eq; by apply same_round_keeps|].
  etrans; [by apply (same_round_keeps I s (after_insert event t s))|].
  eapply (schedule_round_invariant I); try exact H; try assumption.
  intros Hs Ha r (Hn & Hp & _). eapply Hnew; try exact Hs; try exact Ha; done.
Qed.

(** X10: a node that is not a block producer and has no round gets no
    round, whatever message or event it handles: rounds are constructed
    for active block producers only, and nothing else assigns
    [_round]. *)
Theorem full_node_has_no_round now msg s s' o :
  process_msg now msg s = Some (tt, s', o) ->
  _is_block_producer s = false ->
  _round s = None ->
  _round s' = None.
Proof.
  intros H Hbp Hr.
  assert (engine_keeps (fun _ => False) s s') as Hk.
  { destruct msg as [m|[e|e|e]]; simpl in H.
    - eapply (process_net_msg_invariant (fun _ => False)); try exact H; done.
    - eapply (on_accepted_block_invariant (fun _ => False)); try exact H; try done.
      intros s0 _ Hb _ Ha. apply is_active_bp_true in Ha as [Ha _].
      simpl in Ha. congruence.
    - eapply (on_irreversible_invariant (fun _ => False)); exact H.
    - apply on_new_peer_state in H as ->. done. }
  destruct (_round s') as [r'|] eqn:E; [|done].
  destruct (Hk (fun r Hs => ltac:(by rewrite Hr in Hs)) r' E).
Qed.

Lemma full_node_has_no_round_witness :
  _round (state_of (process_msg 0 (accepted block_2 genesis 11 three)) full_node) = None.
Proof.
  refine (full_node_has_no_round 0 (accepted block_2 genesis 11 three) full_node _
            (output_of (process_msg 0 (accepted block_2 genesis 11 three)) full_node)
            _ _ _).
  - vm_compute. reflexivity.
  - vm_compute. reflexivity.
  - vm_compute. reflexivity.
Defined.



(** ** What the engine puts on its channels *)

Section emits.
Context {S : Type} (R : S -> S -> Prop) (Q : S -> output -> Prop).
Hypothesis Q_back : forall s s1 x, R s s1 -> Q s1 x -> Q s x.

Lemma emits_silent {A} (m : M S A) :
  (forall s a s' o, m s = Some (a, s', o) -> o = []) -> emits Q m.
Proof. intros Hm s a s' o x H Hx. apply Hm in H as ->. by apply elem_of_nil in Hx. Qed.

Lemma emits_ret {A} (a : A) : emits Q (mret a : M S A).
Proof. apply emits_silent. intros s b s' o H. unfold_M. by simplify_eq. Qed.

Lemma emits_get : emits Q (get : M S S).
Proof. apply emits_silent. intros s b s' o H. unfold_M. by simplify_eq. Qed.

Lemma emits_throw {A} : emits Q (throw : M S A).
Proof. intros s b s' o x H. discriminate. Qed.

Lemma emits_modify (f : S -> S) : emits Q (modify f).
Proof. apply emits_silent. intros s b s' o H. unfold_M. by simplify_eq. Qed.

Lemma emits_bind {A B} (m : M S A) (f : A -> M S B) :
  preserves R m -> emits Q m -> (forall a, emits Q (f a)) -> emits Q (m ≫= f).
Proof.
  intros Hp Hm Hf s b s' o x H Hx. unfold mbind, M_bind in H.
  apply bind_Some in H as (a & s1 & o1 & o2 & H1 & H2 & ->).
  apply elem_of_app in Hx as [Hx|Hx].
  - exact (Hm _ _ _ _ _ H1 Hx).
  - eapply Q_back; [exact (Hp _ _ _ _ H1) | exact (Hf _ _ _ _ _ _ H2 Hx)].
Qed.

Lemma emits_for_each {X} (l : list X) (f : X -> M S unit) :
  (forall x, preserves R (f x)) -> (forall x, emits Q (f x)) -> emits Q (for_each l f).
Proof.
  intros Hp Hf. induction l as [|x l IH]; simpl.
  - apply (emits_ret tt).
  - apply emits_bind; auto.
Qed.
End emits.

Lemma emits_lift_engine {A} Q (m : M randpa A) :
  emits Q m -> emits (on_engine_out Q) (lift_engine m).
Proof.
  intros Hm [r s] a [r' s'] o x H Hx. unfold lift_engine in H; simpl in H.
  destruct (m s) as [[[a' s1] o1]|] eqn:E; [|done]. simplify_eq.
  exact (Hm _ _ _ _ _ E Hx).
Qed.

#[global] Instance calm_preorder : PreOrder calm.
Proof.
  split.
  - intros s. split; reflexivity.
  - intros a b c [H1 H2] [H3 H4]. split; [congruence | by etrans].
Qed.

Lemma preserves_calm {A} (m : M randpa A) :
  preserves same_peers m -> preserves lib_mono m -> preserves calm m.
Proof. intros H1 H2 s a s' o H. split; [exact (H1 _ _ _ _ H) | exact (H2 _ _ _ _ H)]. Qed.

Lemma preserves_on_engine_calm {A} (m : M (randpa_round * randpa) A) :
  preserves (on_engine same_peers) m -> preserves (on_engine stable) m ->
  preserves (on_engine calm) m.
Proof.
  intros H1 H2 s a s' o H.
  split; [exact (H1 _ _ _ _ H) | apply stable_lib_mono; exact (H2 _ _ _ _ H)].
Qed.

Lemma expected_back to s s1 x : calm s s1 -> expected to s1 x -> expected to s x.
Proof.
  intros [Hp Hl]. destruct x as [ses m|id]; simpl.
  - by rewrite Hp.
  - intros Hx Hs. destruct (Hl Hs) as [Hs1 Hle]. specialize (Hx Hs1). lia.
Qed.

Lemma expected_back_round to (rs rs1 : randpa_round * randpa) x :
  on_engine calm rs rs1 ->
  on_engine_out (expected to) rs1 x -> on_engine_out (expected to) rs x.
Proof. apply expected_back. Qed.

Lemma bcast_calm msg : preserves calm (bcast msg).
Proof.
  apply preserves_calm.
  - apply bcast_frame; try apply _; intros; exact eq_refl.
  - eapply preserves_weaken; [apply stable_lib_mono | apply bcast_stable].
Qed.

Lemma add_prevote_calm msg : preserves (on_engine calm) (round.add_prevote msg).
Proof.
  apply preserves_on_engine_calm; [apply add_prevote_frame; try apply _; intros; exact eq_refl | apply add_prevote_stable].
Qed.

Lemma finish_round_calm : preserves (on_engine calm) finish_round.
Proof.
  apply preserves_on_engine_calm; [|apply finish_round_stable].
  apply finish_round_frame; try apply _; intros; exact eq_refl.
Qed.

Lemma add_precommit_calm msg :
  preserves (on_engine calm) (round.add_precommit finish_round msg).
Proof.
  apply preserves_on_engine_calm.
  - apply add_precommit_frame; try apply _; intros; exact eq_refl.
  - apply add_precommit_stable, finish_round_stable.
Qed.

Lemma round_prevote_calm : preserves (on_engine calm) (round.prevote prevote_bcaster).
Proof.
  apply preserves_on_engine_calm.
  - apply round_prevote_frame; try apply _; intros; exact eq_refl.
  - apply prevote_stable, prevote_bcaster_stable.
Qed.

Lemma round_precommit_calm :
  preserves (on_engine calm) (round.precommit precommit_bcaster finish_round).
Proof.
  apply preserves_on_engine_calm.
  - apply round_precommit_frame; try apply _; intros; exact eq_refl.
  - apply precommit_stable; [apply precommit_bcaster_stable | apply finish_round_stable].
Qed.

Lemma call_round_calm m :
  preserves (on_engine calm) m -> preserves calm (call_round m).
Proof.
  intros Hm s a s' o H. unfold call_round in H.
  destruct (_round s) as [r|]; [|done].
  destruct (m (r, s)) as [[[[] [r' s1]] o1]|] eqn:E; [|done]. simplify_eq.
  etrans; [exact (Hm _ _ _ _ E)|]. split; [done|]. intros Hs. split; [done|]. simpl. lia.
Qed.

Lemma new_round_calm n primary active : preserves calm (new_round n primary active).
Proof.
  apply preserves_calm.
  - apply new_round_frame; try apply _; intros; exact eq_refl.
  - eapply preserves_weaken; [apply stable_lib_mono | apply new_round_stable].
Qed.

Lemma remove_round_calm : preserves calm remove_round.
Proof.
  apply preserves_calm.
  - apply remove_round_frame; try apply _; intros; exact eq_refl.
  - apply remove_round_lib_mono.
Qed.

Ltac calm_known :=
  first [ apply bcast_calm | apply add_prevote_calm | apply add_precommit_calm
        | apply finish_round_calm | apply round_prevote_calm | apply round_precommit_calm
        | apply new_round_calm | apply remove_round_calm
        | apply preserves_modify; intros; split; [exact eq_refl | by intros ?] ].

Ltac emits_step :=
  lazymatch goal with
  | |- emits (on_engine_out _) (mbind _ _) =>
      apply (emits_bind (on_engine calm));
        [apply expected_back_round | preserve; try calm_known | | intros ?]
  | |- emits _ (mbind _ _) =>
      apply (emits_bind calm); [apply expected_back | preserve; try calm_known | | intros ?]
  | |- emits _ (ret _) => apply (emits_ret _ _)
  | |- emits _ (mret _) => apply (emits_ret _ _)
  | |- emits _ get => apply emits_get
  | |- emits _ throw => apply emits_throw
  | |- emits _ (modify_round _) => apply emits_modify
  | |- emits _ (modify_tree _) => apply emits_modify
  | |- emits _ (modify _) => apply emits_modify
  | |- emits (on_engine_out _) (for_each _ _) =>
      apply (emits_for_each (on_engine calm));
        [apply expected_back_round | intros ?; preserve; try calm_known | intros ?]
  | |- emits _ (lift_engine _) => apply emits_lift_engine
  | |- emits _ (match ?x with _ => _ end) => destruct x eqn:?
  end.

Ltac emits_all := repeat emits_step.

Lemma bcast_emits to msg : emits (expected to) (bcast msg).
Proof.
  intros s a s' o x. rewrite bcast_eq.
  destruct (lru_cache.contains _ _); intros H Hx; simplify_eq.
  { by apply elem_of_nil in Hx. }
  rewrite app_nil_r in Hx. apply list_elem_of_fmap in Hx as ([k v] & -> & Hk).
  right. exists k. by apply elem_of_sorted_bindings.
Qed.

Lemma on_proof_gained_emits to proof s a s' o x :
  get_block_num (_lib s) < get_block_num (pf_best_block proof) ->
  on_proof_gained proof s = Some (a, s', o) -> x ∈ o -> expected to s x.
Proof.
  intros Hlt. rewrite on_proof_gained_eq. cbv zeta.
  destruct (bcast _ _) as [[[[] s2] o2]|] eqn:E; [|done]. intros [= <- <- <-] Hx.
  apply elem_of_cons in Hx as [->|Hx]; [by intros _|].
  apply (bcast_emits to _ _ _ _ _ _ E) in Hx. destruct x; [done|].
  simpl in *. done.
Qed.

Lemma finish_round_emits to : emits (on_engine_out (expected to)) finish_round.
Proof.
  intros [r s] a [r' s'] o x H Hx. unfold finish_round in H.
  unfold mbind, M_bind, bind at 1, get at 1 in H. cbn [fst snd] in H.
  destruct (round.finish r) as [r1 finished] eqn:Ef.
  unfold bind at 1, modify_round, modify in H. cbn [fst snd] in H.
  destruct finished; cbn [negb] in H;
    [|unfold ret in H; simplify_eq; by apply elem_of_nil in Hx].
  destruct (round.get_proof r1) as [proof|]; [|done].
  destruct (_ <? _) eqn:Hlt; [|unfold ret in H; simplify_eq; by apply elem_of_nil in Hx].
  apply N.ltb_lt in Hlt.
  unfold bind, lift_engine in H. cbn [fst snd] in H.
  destruct (on_proof_gained proof s) as [[[[] s1] o1]|] eqn:E1; [|done].
  cbn [fst snd] in H. rewrite update_lib_eq in H. simplify_eq.
  rewrite !app_nil_r in Hx. exact (on_proof_gained_emits to _ _ _ _ _ _ Hlt E1 Hx).
Qed.

Lemma add_prevote_emits Q msg : emits Q (round.add_prevote msg).
Proof.
  apply emits_silent. intros [r s] a [r' s'] o H. unfold round.add_prevote in H.
  destruct (msg_public_keys msg) as [|key [|]]; try done.
  unfold_M. simpl in H.
  destruct (tree.add_confirmations _ _ _ _) as [[t' n]|]; [|done].
  destruct (_ && _); simpl in H; by simplify_eq.
Qed.

Lemma add_precommit_emits to msg :
  emits (on_engine_out (expected to)) (round.add_precommit finish_round msg).
Proof. unfold round.add_precommit. emits_all. apply finish_round_emits. Qed.

Lemma round_prevote_emits to :
  emits (on_engine_out (expected to)) (round.prevote prevote_bcaster).
Proof.
  unfold round.prevote. emits_all; try apply add_prevote_emits. apply bcast_emits.
Qed.

Lemma round_precommit_emits to :
  emits (on_engine_out (expected to)) (round.precommit precommit_bcaster finish_round).
Proof.
  unfold round.precommit. emits_all; try apply add_precommit_emits. apply bcast_emits.
Qed.

Lemma on_prevote_msg_emits to msg :
  emits (on_engine_out (expected to)) (round.on_prevote_msg msg).
Proof. unfold round.on_prevote_msg. emits_all. apply add_prevote_emits. Qed.

Lemma on_precommit_msg_emits to msg :
  emits (on_engine_out (expected to)) (round.on_precommit_msg finish_round msg).
Proof. unfold round.on_precommit_msg. emits_all. apply add_precommit_emits. Qed.

Lemma end_prevote_emits to :
  emits (on_engine_out (expected to))
        (round.end_prevote precommit_bcaster finish_round).
Proof. unfold round.end_prevote. emits_all. apply round_precommit_emits. Qed.

Lemma call_round_emits Q m :
  emits (on_engine_out Q) m -> emits Q (call_round m).
Proof.
  intros Hm s a s' o x H Hx. unfold call_round in H.
  destruct (_round s) as [r|]; [|done].
  destruct (m (r, s)) as [[[[] [r' s1]] o1]|] eqn:E; [|done]. simplify_eq.
  exact (Hm _ _ _ _ _ E Hx).
Qed.

Lemma new_round_emits to n primary active : emits (expected to) (new_round n primary active).
Proof.
  intros s a s' o x H Hx. unfold new_round in H.
  destruct (round.prevote _ _) as [[[[] [r' s1]] o1]|] eqn:E; [|done]. simplify_eq.
  exact (round_prevote_emits to _ _ _ _ _ E Hx).
Qed.

Lemma process_round_msg_emits to msg n dispatch :
  emits (on_engine_out (expected to)) dispatch ->
  emits (expected to) (process_round_msg msg n dispatch).
Proof.
  intros Hd. unfold process_round_msg. emits_all; try apply bcast_emits.
  by apply call_round_emits.
Qed.

Lemma schedule_round_emits to event : emits (expected to) (schedule_round event).
Proof.
  unfold schedule_round. emits_all.
  - apply emits_silent. intros s0 x s1 o. rewrite remove_round_eq. by intros [= _ _ <-].
  - apply new_round_emits.
  - apply call_round_emits, end_prevote_emits.
Qed.

Lemma on_proof_emits to ses msg : emits (expected to) (on_proof ses msg).
Proof.
  intros s a s' o x H Hx. unfold on_proof in H. unfold mbind, M_bind in H.
  rewrite bind_get in H.
  destruct (_ || _); [unfold ret in H; simplify_eq; by apply elem_of_nil in Hx|].
  destruct (_ <=? _last_prooved_block_num s);
    [unfold ret in H; simplify_eq; by apply elem_of_nil in Hx|].
  destruct (_ <=? get_block_num (_lib s)) eqn:El;
    [unfold ret in H; simplify_eq; by apply elem_of_nil in Hx|].
  destruct (match _round s with Some r => _ | None => false end);
    [unfold ret in H; simplify_eq; by apply elem_of_nil in Hx|].
  destruct (negb _); [unfold ret in H; simplify_eq; by apply elem_of_nil in Hx|].
  apply N.leb_gt in El.
  destruct (bind _ _ s) as [[[[] s2] o2]|] eqn:E; [|done].
  assert (o2 = o) as -> by (by simplify_eq). clear H.
  apply bind_Some in E as ([] & s1 & o1 & o1' & E1 & E2 & ->).
  assert (o1 = [] /\ _lib s1 = _lib s /\ _peers s1 = _peers s
          /\ (lib_is_root s -> lib_is_root s1)) as (-> & Hl & Hp & Hr).
  { destruct (_round s) as [r|]; [destruct (decide _)|];
      unfold modify, ret in E1; by simplify_eq. }
  simpl in Hx. rewrite <- Hl in El.
  pose proof (on_proof_gained_emits to _ _ _ _ _ _ El E2 Hx) as Hq.
  destruct x as [ses' m|id]; simpl in *.
  - by rewrite <- Hp.
  - intros Hs. rewrite <- Hl. auto.
Qed.

Lemma on_accepted_block_emits to event : emits (expected to) (on_accepted_block event).
Proof.
  intros s a s' o x. rewrite on_accepted_block_eq.
  destruct (tree.insert _ _ _ _) as [t|] eqn:Et;
    [|intros; simplify_eq; by apply elem_of_nil in H0].
  destruct (_ || _); [intros; simplify_eq; by apply elem_of_nil in H0|].
  intros H Hx. pose proof (schedule_round_emits to _ _ _ _ _ _ H Hx) as Hq.
  apply insert_root in Et.
  destruct x as [ses' m|id]; simpl in *; [done|].
  intros Hs. apply Hq. unfold lib_is_root in *. simpl. congruence.
Qed.

Lemma process_msg_emits now msg : emits (expected (origin msg)) (process_msg now msg).
Proof.
  destruct msg as [m|[e|e|e]]; simpl.
  - unfold process_net_msg. destruct (_ <? _)%Z; [apply (emits_ret _ _)|].
    destruct (net_data m).
    + apply process_round_msg_emits, on_prevote_msg_emits.
    + apply process_round_msg_emits, on_precommit_msg_emits.
    + intros s a s' o x. rewrite on_finality_notice_eq. intros [= _ _ <-] Hx.
      destruct (_ && _); [by apply elem_of_nil in Hx|].
      apply list_elem_of_singleton in Hx as ->. by left.
    + intros s a s' o x H Hx. unfold on_finality_req_proof, send in H. unfold_M.
      destruct (List.find _ _); simplify_eq; [|by apply elem_of_nil in Hx].
      apply list_elem_of_singleton in Hx as ->. by left.
    + apply on_proof_emits.
    + intros s a s' o x. rewrite on_handshake_eq. intros [= _ _ <-] Hx.
      apply elem_of_replicate in Hx as [-> _]. by left.
    + intros s a s' o x. rewrite on_handshake_ans_eq. intros [= _ _ <-] Hx.
      by apply elem_of_nil in Hx.
  - apply on_accepted_block_emits.
  - unfold on_irreversible. apply emits_silent. intros s a s' o H.
    unfold mbind, M_bind in H. rewrite bind_get in H.
    destruct (_ <=? _); [unfold ret in H; by simplify_eq|].
    rewrite update_lib_eq in H. by simplify_eq.
  - intros s a s' o x H Hx. unfold on_new_peer, send in H. unfold_M. simplify_eq.
    apply list_elem_of_singleton in Hx as ->. by left.
Qed.





(** ** The round through the methods that drive it *)

#[global] Instance advances_preorder : PreOrder advances.
Proof.
  split.
  - intros r. by split.
  - intros a b c [] []. split.
    + congruence.
    + congruence.
    + congruence.
    + by etrans.
    + by etrans.
    + by etrans.
    + lia.
    + intros H. rewrite adv_best1 by lia. auto.
Qed.

Lemma for_each_round {X} (P : randpa_round -> Prop) (l : list X)
    (f : X -> M (randpa_round * randpa) unit) :
  (forall x r s r' s' o, P r -> f x (r, s) = Some (tt, (r', s'), o) -> advances r r' /\ P r') ->
  forall r s r' s' o,
    P r -> for_each l f (r, s) = Some (tt, (r', s'), o) -> advances r r' /\ P r'.
Proof.
  intros Hf. induction l as [|x l IH]; intros r s r' s' o Hp H.
  - simpl in H. unfold ret in H. by simplify_eq.
  - cbn [for_each] in H. unfold mbind, M_bind in H.
    apply bind_Some in H as ([] & [r1 s1] & o1 & o2 & H1 & H2 & ->).
    destruct (Hf _ _ _ _ _ _ Hp H1) as [Ha Hp1].
    destruct (IH _ _ _ _ _ Hp1 H2) as [Ha' Hp']. split; [by etrans | done].
Qed.

Lemma add_prevote_advances msg r s r' s' o :
  voting r ->
  round.add_prevote msg (r, s) = Some (tt, (r', s'), o) ->
  advances r r' /\ voting r'.
Proof.
  intros Hv H. unfold round.add_prevote in H.
  destruct (msg_public_keys msg) as [|key [|]]; try done.
  unfold_M. simpl in H.
  destruct (tree.add_confirmations _ _ _ _) as [[t' n]|]; [|done].
  destruct (bool_decide (state r ≠ state_type.ready_to_precommit)) eqn:Eb; simpl in H.
  - apply bool_decide_eq_true in Eb. destruct Hv as [Hv|Hv]; [|done].
    destruct (round.is_prevote_threshold_reached n); simpl in H; simplify_eq.
    + split; [|by right]. split; simpl; try done; try set_solver.
      * rewrite Hv. simpl. lia.
      * rewrite Hv. simpl. lia.
    + split; [|by left]. split; simpl; try done; set_solver.
  - simplify_eq. split; [|done]. split; simpl; try done; set_solver.
Qed.

Lemma finish_round_on_done r s r' s' o :
  state r = state_type.done ->
  finish_round (r, s) = Some (tt, (r', s'), o) -> r' = r.
Proof.
  intros Hd H. destruct (finish_round_done r s Hd) as (s1 & o1 & E).
  rewrite E in H. by simplify_eq.
Qed.

Lemma add_precommit_advances msg r s r' s' o :
  committing r ->
  round.add_precommit finish_round msg (r, s) = Some (tt, (r', s'), o) ->
  advances r r' /\ (state r' = state r \/ state r' = state_type.done).
Proof.
  intros Hc H. unfold round.add_precommit in H.
  destruct (msg_public_keys msg) as [|key [|]]; try done.
  unfold mbind, M_bind in H. unfold bind at 1 2, modify_round, modify in H.
  cbn [fst snd] in H. rewrite bind_get in H.
  cbn [fst snd state set_proof set_precommited_keys] in H.
  set (r1 := set_proof _ _) in H.
  assert (advances r r1) as H1.
  { split; simpl; try done; try set_solver. by apply prefix_app_r. }
  destruct (decide (state r = state_type.done)).
  { unfold ret in H. simplify_eq. split; [done | by left]. }
  destruct (round.is_precommit_threshold_reached r1) as [[]|]; [| |done].
  - unfold bind, modify in H. cbn [fst snd] in H.
    destruct (finish_round _) as [[[[] [r2 s2]] o2]|] eqn:Ef; [|done].
    apply finish_round_on_done in Ef; [|done]. simplify_eq.
    split; [|by right]. etrans; [exact H1|].
    split; simpl; try done. destruct Hc as [->| [->| ->]]; simpl; lia.
  - unfold ret in H. simplify_eq. split; [done | by left].
Qed.

Lemma add_precommit_committing msg r s r' s' o :
  committing r ->
  round.add_precommit finish_round msg (r, s) = Some (tt, (r', s'), o) ->
  advances r r' /\ committing r'.
Proof.
  intros Hc H. destruct (add_precommit_advances _ _ _ _ _ _ Hc H) as [Ha [Hs|Hs]].
  - split; [done|]. unfold committing. by rewrite Hs.
  - split; [done|]. right. by right.
Qed.

Lemma on_prevote_msg_advances msg r s r' s' o :
  round.on_prevote_msg msg (r, s) = Some (tt, (r', s'), o) -> advances r r'.
Proof.
  intros H. unfold round.on_prevote_msg in H. unfold mbind, M_bind in H.
  rewrite bind_get in H. cbn [fst snd] in H.
  destruct (bool_decide (state r ≠ state_type.prevote)) eqn:E1;
    [destruct (bool_decide (state r ≠ state_type.ready_to_precommit)) eqn:E2|];
    cbn [andb] in H.
  - unfold ret in H. by simplify_eq.
  - apply bool_decide_eq_false in E2. apply dec_stable in E2.
    destruct (for_each _ _ _) as [[[[] [r2 s2]] o2]|] eqn:E; [|done]. simplify_eq.
    eapply (for_each_round voting) in E as [Ha _]; [done| |by right].
    intros sig r0 s0 r1 s1 o1 Hv H0. rewrite bind_get in H0. cbn [fst snd] in H0.
    destruct (round.validate_prevote _ _ _ _).
    + destruct (round.add_prevote _ _) as [[[[] [r3 s3]] o3]|] eqn:Ea; [|done].
      simplify_eq. by eapply add_prevote_advances.
    + unfold ret in H0. by simplify_eq.
  - apply bool_decide_eq_false in E1. apply dec_stable in E1.
    destruct (for_each _ _ _) as [[[[] [r2 s2]] o2]|] eqn:E; [|done]. simplify_eq.
    eapply (for_each_round voting) in E as [Ha _]; [done| |by left].
    intros sig r0 s0 r1 s1 o1 Hv H0. rewrite bind_get in H0. cbn [fst snd] in H0.
    destruct (round.validate_prevote _ _ _ _).
    + destruct (round.add_prevote _ _) as [[[[] [r3 s3]] o3]|] eqn:Ea; [|done].
      simplify_eq. by eapply add_prevote_advances.
    + unfold ret in H0. by simplify_eq.
Qed.

Lemma on_precommit_msg_advances msg r s r' s' o :
  round.on_precommit_msg finish_round msg (r, s) = Some (tt, (r', s'), o) -> advances r r'.
Proof.
  intros H. unfold round.on_precommit_msg in H. unfold mbind, M_bind in H.
  rewrite bind_get in H. cbn [fst snd] in H.
  assert (forall sig r0 s0 r1 s1 o1, committing r0 ->
            bind get (fun rs : randpa_round * randpa =>
              match round.validate_precommit rs.1 (_prefix_tree rs.2) msg (recover sig) with
              | Some true => round.add_precommit finish_round (mk_msg (data msg) [sig])
              | Some false => ret tt
              | None => throw
              end) (r0, s0) = Some (tt, (r1, s1), o1) ->
            advances r0 r1 /\ committing r1) as Hstep.
  { intros sig r0 s0 r1 s1 o1 Hv H0. rewrite bind_get in H0. cbn [fst snd] in H0.
    destruct (round.validate_precommit _ _ _ _) as [[]|]; [| |done].
    + destruct (round.add_precommit _ _ _) as [[[[] [r3 s3]] o3]|] eqn:Ea; [|done].
      simplify_eq. by eapply add_precommit_committing.
    + unfold ret in H0. by simplify_eq. }
  destruct (bool_decide (state r ≠ state_type.precommit)) eqn:E1;
    [destruct (bool_decide (state r ≠ state_type.ready_to_precommit)) eqn:E2|];
    cbn [andb] in H.
  - unfold ret in H. by simplify_eq.
  - apply bool_decide_eq_false in E2. apply dec_stable in E2.
    destruct (for_each _ _ _) as [[[[] [r2 s2]] o2]|] eqn:E; [|done]. simplify_eq.
    eapply (for_each_round committing) in E as [Ha _]; [done|exact Hstep|by left].
  - apply bool_decide_eq_false in E1. apply dec_stable in E1.
    destruct (for_each _ _ _) as [[[[] [r2 s2]] o2]|] eqn:E; [|done]. simplify_eq.
    eapply (for_each_round committing) in E as [Ha _];
      [done | exact Hstep | right; by left].
Qed.

Lemma round_precommit_advances r s r' s' o :
  round.precommit precommit_bcaster finish_round (r, s) = Some (tt, (r', s'), o) ->
  advances r r'.
Proof.
  intros H. unfold round.precommit in H. unfold mbind, M_bind in H.
  rewrite bind_get in H. cbn [fst snd] in H.
  destruct (decide (state r ≠ state_type.ready_to_precommit)) as [|Hs%dec_stable]; [done|].
  unfold bind at 1, modify_round, modify in H. cbn [fst snd] in H.
  destruct (best_node r) as [bn|]; [|done].
  destruct (bind _ _ _) as [[[[] [r2 s2]] o2]|] eqn:E; [|done].
  assert (r2 = r') as -> by (by simplify_eq). clear H.
  apply bind_Some in E as ([] & [r1 s1] & o1 & o1' & E1 & E2 & ->).
  unfold lift_engine in E2. cbn [fst snd] in E2.
  destruct (precommit_bcaster _ _) as [[[? ?] ?]|]; [|done].
  assert (r1 = r') as -> by (by simplify_eq). clear E2.
  eapply (for_each_round committing) in E1 as [Ha _].
  - etrans; [|exact Ha]. split; simpl; try done. rewrite Hs. simpl. lia.
  - intros sig ra sa rb sb ob Hc H0. by eapply add_precommit_committing.
  - right. by left.
Qed.

Lemma end_prevote_advances r s r' s' o :
  round.end_prevote precommit_bcaster finish_round (r, s) = Some (tt, (r', s'), o) ->
  advances r r'.
Proof.
  intros H. unfold round.end_prevote in H. unfold mbind, M_bind in H.
  rewrite bind_get in H. cbn [fst snd] in H.
  destruct (decide (state r ≠ state_type.ready_to_precommit)) as [|Hs%dec_stable].
  { unfold modify_round, modify in H. simplify_eq. split; simpl; try done.
    destruct (state r); simpl; lia. }
  destruct (best_node r) as [bn|] eqn:Eb; [|done].
  destruct (tree.find _ _) as [live|]; [|done].
  unfold bind at 1, modify_round, modify in H. cbn [fst snd] in H.
  destruct (round.precommit _ _ _) as [[[[] [r2 s2]] o2]|] eqn:E; [|done].
  assert (r2 = r') as -> by (by simplify_eq). clear H.
  apply round_precommit_advances in E. etrans; [|exact E].
  split; simpl; done.
Qed.

Lemma run_call_advances c r s r' s' o :
  run_call c (r, s) = Some (tt, (r', s'), o) -> advances r r'.
Proof.
  destruct c as [msg|msg| |]; simpl.
  - apply on_prevote_msg_advances.
  - apply on_precommit_msg_advances.
  - apply end_prevote_advances.
  - unfold modify_round, modify. cbn [fst snd]. intros [= <- <- <-].
    unfold round.finish. case_decide; [|done]. split; simpl; try done.
    destruct (state r); simpl; lia.
Qed.







Lemma for_each_ignored {X} (l : list X) (f : X -> M (randpa_round * randpa) unit) rs :
  (forall x, x ∈ l -> f x rs = Some (tt, rs, [])) ->
  for_each l f rs = Some (tt, rs, []).
Proof.
  induction l as [|x l IH]; intros Hf; [done|].
  cbn [for_each]. unfold mbind, M_bind, bind. rewrite Hf by left.
  rewrite IH; [done|]. intros y Hy. apply Hf. by right.
Qed.

(** X17: a prevote message of another round, or one whose keys have all
    prevoted in this round, leaves the round and the engine as they are
    and sends nothing; so does a precommit message of another round, one
    whose keys have all precommitted, and one for a block that is not
    the best node of the round. *)
Theorem foreign_and_repeated_votes_are_ignored r s :
  (forall msg : prevote_msg,
     num r <> pv_round_num (data msg)
     \/ (forall key, key ∈ msg_public_keys msg -> key ∈ prevoted_keys r) ->
     round.on_prevote_msg msg (r, s) = Some (tt, (r, s), []))
  /\ (forall msg : precommit_msg,
        num r <> pc_round_num (data msg)
        \/ (forall key, key ∈ msg_public_keys msg -> key ∈ precommited_keys r)
        \/ (exists bn, best_node r = Some bn /\ pc_block_id (data msg) <> block_id bn) ->
        round.on_precommit_msg finish_round msg (r, s) = Some (tt, (r, s), [])).
Proof.
  split; intros msg H.
  - unfold round.on_prevote_msg. unfold mbind, M_bind. rewrite bind_get. cbn [fst snd].
    destruct (_ && _); [done|]. rewrite for_each_ignored; [done|].
    intros sig Hsig. rewrite bind_get. cbn [fst snd].
    unfold round.validate_prevote. destruct H as [H|H].
    + by rewrite decide_True.
    + destruct (decide (num r ≠ _)); [done|]. rewrite decide_True; [done|].
      apply H. unfold msg_public_keys. apply list_elem_of_fmap. eauto.
  - unfold round.on_precommit_msg. unfold mbind, M_bind. rewrite bind_get. cbn [fst snd].
    destruct (_ && _); [done|]. rewrite for_each_ignored; [done|].
    intros sig Hsig. rewrite bind_get. cbn [fst snd].
    unfold round.validate_precommit. destruct H as [H|[H|(bn & Hb & H)]].
    + by rewrite decide_True.
    + destruct (decide (num r ≠ _)); [done|]. rewrite decide_True; [done|].
      apply H. unfold msg_public_keys. apply list_elem_of_fmap. eauto.
    + destruct (decide (num r ≠ _)); [done|]. destruct (decide (_ ∈ _)); [done|].
      rewrite Hb. by rewrite decide_True.
Qed.

(** ** The last irreversible block *)

Lemma update_lib_root lib_id s a s' o :
  update_lib lib_id s = Some (a, s', o) ->
  _lib s' = lib_id /\ lib_is_root s' /\ o = []
  /\ _last_prooved_block_num s' = _last_prooved_block_num s
  /\ _last_proofs s' = _last_proofs s.
Proof.
  rewrite update_lib_eq. intros [= _ <- <-]. split; [done|]. split; [|done].
  unfold lib_is_root. simpl.
  destruct (tree.find _ _) eqn:E; simpl; [by apply tree_find_block_id in E | done].
Qed.

(** X18: [finish_round], the completion callback of a round.  A round
    that is not done is marked failed and nothing else happens.  A round
    that is done stays as it is; when the best block of its proof is
    ahead of [_lib], the proof is cached, [_last_prooved_block_num] and
    [_lib] move to that block, which becomes the root of the tree, and
    the block is the first thing put on the channels; when it is not
    ahead, nothing is changed and nothing is sent. *)
Theorem finish_round_outcome r s :
  exists r' s' o,
    finish_round (r, s) = Some (tt, (r', s'), o)
    /\ if decide (state r = state_type.done)
       then r' = r
            /\ if get_block_num (_lib s) <? get_block_num (pf_best_block (proof r))
               then _lib s' = pf_best_block (proof r)
                    /\ lib_is_root s'
                    /\ _last_prooved_block_num s' = get_block_num (pf_best_block (proof r))
                    /\ head (_last_proofs s') = Some (proof r)
                    /\ head o = Some (out_finality (pf_best_block (proof r)))
               else s' = s /\ o = []
       else r' = set_state state_type.fail r /\ s' = s /\ o = [].
Proof.
  unfold finish_round. unfold mbind, M_bind. rewrite bind_get.
  cbn [fst snd]. unfold round.finish.
  destruct (decide (state r = state_type.done)) as [Hd|Hd].
  - rewrite decide_False by (by intros []).
    unfold bind at 1, modify_round, modify. cbn [fst snd negb].
    unfold round.get_proof. rewrite decide_True by done.
    destruct (_ <? _); [|unfold ret; by eexists _, _, _].
    unfold bind, lift_engine. cbn [fst snd].
    destruct (on_proof_gained_total (proof r) s) as (s1 & o1 & E1). rewrite E1.
    cbn [fst snd].
    destruct (update_lib _ s1) as [[[[] s2] o2]|] eqn:E2;
      [|by rewrite update_lib_eq in E2].
    apply update_lib_root in E2 as (Hl & Hr & -> & Hn & Hp).
    eexists _, _, _. split; [reflexivity|]. split; [done|].
    split; [done|]. split; [done|].
    rewrite Hn, Hp. clear Hn Hp Hl Hr.
    rewrite on_proof_gained_eq in E1. cbv zeta in E1. rewrite bcast_eq in E1.
    destruct (lru_cache.contains _ _); simplify_eq; done.
  - rewrite decide_True by done.
    unfold bind at 1, modify_round, modify. cbn [fst snd negb]. unfold ret.
    by eexists _, _, _.
Qed.

(** X19: an irreversible block is compared with the root of the tree,
    by block number.  One that is not ahead of the root is ignored; one
    that is ahead becomes [_lib] and the root of the tree, and nothing is
    sent.  Either way, the same event once more changes nothing. *)
Theorem irreversible_block_moves_lib event s :
  exists s',
    on_irreversible event s = Some (tt, s', [])
    /\ on_irreversible event s' = Some (tt, s', [])
    /\ if get_block_num (irr_block_id event)
            <=? get_block_num (block_id (get_root (_prefix_tree s)))
       then s' = s
       else _lib s' = irr_block_id event /\ lib_is_root s'.
Proof.
  assert (forall s0, (get_block_num (irr_block_id event)
                        <=? get_block_num (block_id (get_root (_prefix_tree s0)))) = true ->
            on_irreversible event s0 = Some (tt, s0, [])) as Hno.
  { intros s0 E. unfold on_irreversible. unfold mbind, M_bind. rewrite bind_get.
    by rewrite E. }
  destruct (_ <=? _) eqn:E.
  - exists s. split; [by apply Hno|]. split; [by apply Hno | done].
  - destruct (update_lib (irr_block_id event) s) as [[[[] s'] o]|] eqn:Eu;
      [|by rewrite update_lib_eq in Eu].
    pose proof Eu as (Hl & Hr & -> & _)%update_lib_root.
    exists s'. split; [|split; [|done]].
    + unfold on_irreversible. unfold mbind, M_bind. rewrite bind_get.
      by rewrite E, Eu.
    + apply Hno. rewrite Hr, Hl. by apply N.leb_le.
Qed.

(** ** The message queue *)

(** X20: the message queue is first in, first out.  After any pushes,
    as many calls of [get_next_msg] as the queue has messages return the
    messages that were queued before, then the pushed ones, in the order
    they were pushed, and leave the queue empty.  [get_next_msg_wait] on
    a queue that is not terminated returns the oldest message, or waits
    when there is none; on a terminated queue it returns nothing and
    takes nothing, whatever the queue holds. *)
Theorem message_queue_is_fifo {T} (msgs : list T) (q : message_queue T) :
  let q' := foldl (fun q msg => queue.push_message msg q) q msgs in
  _message_queue q' = _message_queue q ++ msgs
  /\ (queue.take_messages (queue.size q') q').1 = _message_queue q ++ msgs
  /\ queue.size (queue.take_messages (queue.size q') q').2 = 0%nat
  /\ queue.get_next_msg_wait (queue.terminate q') = Some (None, queue.terminate q')
  /\ (_done q = false ->
      queue.get_next_msg_wait q'
      = match _message_queue q ++ msgs with
        | [] => None
        | msg :: rest => Some (Some msg, mk_queue false rest false)
        end).
Proof.
  intros q'.
  assert (_message_queue q' = _message_queue q ++ msgs /\ _done q' = _done q) as [Hq Hd].
  { subst q'. revert q. induction msgs as [|m msgs IH]; intros q; simpl.
    - by rewrite app_nil_r.
    - destruct (IH (queue.push_message m q)) as [-> ->]. simpl.
      by rewrite <- app_assoc. }
  assert (forall (l : list T) n d,
            queue.take_messages (length l) (mk_queue n l d)
            = (l, mk_queue (if l is [] then n else false) [] d)) as Ht.
  { induction l as [|x l IH]; intros n d; [done|].
    simpl. rewrite IH. by destruct l. }
  split; [done|].
  assert (q' = mk_queue (_need_notify q') (_message_queue q') (_done q')) as Eq
    by (by destruct q').
  unfold queue.size. rewrite Eq at 2 4. rewrite Ht. rewrite Hq.
  split; [done|]. split; [done|]. split.
  - unfold queue.get_next_msg_wait, queue.terminate. simpl.
    by rewrite andb_false_r.
  - intros Hf. unfold queue.get_next_msg_wait. rewrite Hd, Hf, Hq. simpl.
    rewrite andb_true_r. unfold queue.get_next_msg. rewrite Hq, Hd, Hf.
    destruct (_message_queue q ++ msgs); simpl.
    + by destruct (_need_notify q').
    + rewrite andb_false_r. done.
Qed.

(** ** Completion of a round *)

Lemma for_each_pair {X} (P : randpa_round * randpa -> Prop) (l : list X)
    (f : X -> M (randpa_round * randpa) unit) :
  (forall x rs rs' o, P rs -> f x rs = Some (tt, rs', o) -> P rs') ->
  forall rs rs' o, P rs -> for_each l f rs = Some (tt, rs', o) -> P rs'.
Proof.
  intros Hf. induction l as [|x l IH]; intros rs rs' o Hp H.
  - simpl in H. unfold ret in H. by simplify_eq.
  - cbn [for_each] in H. unfold mbind, M_bind in H.
    apply bind_Some in H as ([] & rs1 & o1 & o2 & H1 & H2 & ->).
    eapply IH; [|exact H2]. eapply Hf; [exact Hp | exact H1].
Qed.

Lemma finish_round_final r s r' s' o :
  state r = state_type.done ->
  finish_round (r, s) = Some (tt, (r', s'), o) ->
  r' = r /\ get_block_num (pf_best_block (proof r)) <= get_block_num (_lib s').
Proof.
  intros Hd H. unfold finish_round in H. unfold mbind, M_bind in H.
  rewrite bind_get in H. cbn [fst snd] in H. unfold round.finish in H.
  rewrite decide_False in H by (by intros []).
  unfold bind at 1, modify_round, modify in H. cbn [fst snd negb] in H.
  unfold round.get_proof in H. rewrite decide_True in H by done.
  destruct (_ <? _) eqn:Hlt.
  - unfold bind, lift_engine in H. cbn [fst snd] in H.
    destruct (on_proof_gained _ _) as [[[[] s1] o1]|]; [|done]. cbn [fst snd] in H.
    rewrite update_lib_eq in H. simplify_eq. split; [done|]. simpl. lia.
  - apply N.ltb_ge in Hlt. unfold ret in H. by simplify_eq.
Qed.

Lemma add_precommit_step msg r s r' s' o :
  round.add_precommit finish_round msg (r, s) = Some (tt, (r', s'), o) ->
  pf_round_num (proof r') = pf_round_num (proof r)
  /\ pf_best_block (proof r') = pf_best_block (proof r)
  /\ pf_prevotes (proof r') = pf_prevotes (proof r)
  /\ ((state r' = state r /\ s' = s)
      \/ (state r <> state_type.done /\ state r' = state_type.done
          /\ get_block_num (pf_best_block (proof r')) <= get_block_num (_lib s'))).
Proof.
  intros H. unfold round.add_precommit in H.
  destruct (msg_public_keys msg) as [|key [|]]; try done.
  unfold mbind, M_bind in H. unfold bind at 1 2, modify_round, modify in H.
  cbn [fst snd] in H. rewrite bind_get in H.
  cbn [fst snd state set_proof set_precommited_keys] in H.
  set (r1 := set_proof _ _) in H.
  destruct (decide (state r = state_type.done)).
  { unfold ret in H. simplify_eq. simpl. auto 10. }
  destruct (round.is_precommit_threshold_reached r1) as [[]|]; [| |done].
  - unfold bind, modify in H. cbn [fst snd] in H.
    destruct (finish_round _) as [[[[] [r2 s2]] o2]|] eqn:Ef; [|done].
    apply finish_round_final in Ef as [-> Hle]; [|done]. simplify_eq.
    simpl in *. split; [done|]. split; [done|]. split; [done|]. right. auto.
  - unfold ret in H. simplify_eq. simpl. auto 10.
Qed.

Lemma bcast_lib msg s a s' o : bcast msg s = Some (a, s', o) -> _lib s' = _lib s.
Proof.
  rewrite bcast_eq. destruct (lru_cache.contains _ _); intros; by simplify_eq.
Qed.

Lemma add_precommit_committed n b pv msg rs rs' o :
  (final_if_done rs
   /\ pf_round_num (proof rs.1) = n /\ pf_best_block (proof rs.1) = b
   /\ pf_prevotes (proof rs.1) = pv) ->
  round.add_precommit finish_round msg rs = Some (tt, rs', o) ->
  (final_if_done rs'
   /\ pf_round_num (proof rs'.1) = n /\ pf_best_block (proof rs'.1) = b
   /\ pf_prevotes (proof rs'.1) = pv)
  /\ (state rs'.1 = state rs.1 \/ state rs'.1 = state_type.done).
Proof.
  destruct rs as [r s], rs' as [r' s']. intros (Hj & Hn & Hb & Hp) H.
  apply add_precommit_step in H as (En & Eb & Ep & [[Es ->]|(Hnd & Hd & Hle)]).
  - split; [|by left]. split; [|simpl in *; split; [|split]; congruence].
    unfold final_if_done in *. simpl in *. rewrite Es, Eb. done.
  - split; [|by right]. split; [|simpl in *; split; [|split]; congruence].
    intros _. done.
Qed.

Lemma round_precommit_final r s r' s' o :
  round.precommit precommit_bcaster finish_round (r, s) = Some (tt, (r', s'), o) ->
  (final_if_done (r', s')
   /\ pf_round_num (proof r') = pf_round_num (proof r)
   /\ pf_best_block (proof r') = pf_best_block (proof r)
   /\ pf_prevotes (proof r') = pf_prevotes (proof r))
  /\ (state r' = state_type.precommit \/ state r' = state_type.done).
Proof.
  intros H. unfold round.precommit in H. unfold mbind, M_bind in H.
  rewrite bind_get in H. cbn [fst snd] in H.
  destruct (decide (state r ≠ state_type.ready_to_precommit)) as [|Hs%dec_stable]; [done|].
  unfold bind at 1, modify_round, modify in H. cbn [fst snd] in H.
  destruct (best_node r) as [bn|]; [|done].
  destruct (bind _ _ _) as [[[[] [r2 s2]] o2]|] eqn:E; [|done].
  assert (r2 = r' /\ s2 = s') as [-> ->] by (by simplify_eq). clear H.
  apply bind_Some in E as ([] & [r1 s1] & o1 & o1' & E1 & E2 & ->).
  unfold lift_engine in E2. cbn [fst snd] in E2.
  destruct (precommit_bcaster _ _) as [[[? s3] ?]|] eqn:Eb; [|done].
  assert (r1 = r' /\ s3 = s') as [-> ->] by (by simplify_eq). clear E2.
  apply bcast_lib in Eb.
  eapply (for_each_pair (fun rs =>
            (final_if_done rs
             /\ pf_round_num (proof rs.1) = pf_round_num (proof r)
             /\ pf_best_block (proof rs.1) = pf_best_block (proof r)
             /\ pf_prevotes (proof rs.1) = pf_prevotes (proof r))
            /\ (state rs.1 = state_type.precommit \/ state rs.1 = state_type.done)))
    in E1.
  - destruct E1 as [(Hj & Hh) Hst]. split; [|done]. split; [|done].
    unfold final_if_done in *. simpl in *. by rewrite Eb.
  - intros sig rs rs' ob [Hp Hst] H0.
    destruct (add_precommit_committed _ _ _ _ _ _ _ Hp H0) as [Hp' [Es|Es]].
    + split; [done|]. by rewrite Es.
    + split; [done | by right].
  - split; [|by left]. split; [|done]. intros Hd. discriminate Hd.
Qed.

Lemma end_prevote_final r s r' s' o :
  round.end_prevote precommit_bcaster finish_round (r, s) = Some (tt, (r', s'), o) ->
  final_if_done (r', s')
  /\ (state r' = state_type.fail \/ state r' = state_type.precommit
      \/ state r' = state_type.done).
Proof.
  intros H. unfold round.end_prevote in H. unfold mbind, M_bind in H.
  rewrite bind_get in H. cbn [fst snd] in H.
  destruct (decide (state r ≠ state_type.ready_to_precommit)) as [|Hs%dec_stable].
  { unfold modify_round, modify in H. simplify_eq. split; [|by left].
    intros Hd. discriminate Hd. }
  destruct (best_node r) as [bn|] eqn:Eb; [|done].
  destruct (tree.find _ _) as [live|]; [|done].
  unfold bind at 1, modify_round, modify in H. cbn [fst snd] in H.
  destruct (round.precommit _ _ _) as [[[[] [r2 s2]] o2]|] eqn:E; [|done].
  assert (r2 = r' /\ s2 = s') as [-> ->] by (by simplify_eq). clear H.
  apply round_precommit_final in E as [(Hj & _) Hst]. split; [done | by right].
Qed.

Lemma on_precommit_msg_final msg rs rs' o :
  final_if_done rs ->
  round.on_precommit_msg finish_round msg rs = Some (tt, rs', o) ->
  final_if_done rs'.
Proof.
  intros Hj H. unfold round.on_precommit_msg in H. unfold mbind, M_bind in H.
  rewrite bind_get in H.
  destruct (_ && _); [unfold ret in H; by simplify_eq|].
  destruct (for_each _ _ _) as [[[[] rs2] o2]|] eqn:E; [|done].
  assert (rs2 = rs') as -> by (by simplify_eq). clear H.
  eapply (for_each_pair final_if_done) in E; [done| |done].
  intros sig ra rb ob Ha H0. rewrite bind_get in H0.
  destruct (round.validate_precommit _ _ _ _) as [[]|]; [| |done].
  - destruct (round.add_precommit _ _ _) as [[[[] rc] oc]|] eqn:Ea; [|done].
    assert (rc = rb) as -> by (by simplify_eq).
    by destruct (add_precommit_committed
                   (pf_round_num (proof ra.1)) (pf_best_block (proof ra.1))
                   (pf_prevotes (proof ra.1)) _ _ _ _ (conj Ha (conj eq_refl (conj eq_refl eq_refl))) Ea)
      as [[? _] _].
  - unfold ret in H0. by simplify_eq.
Qed.

Lemma on_prevote_msg_not_done msg r s r' s' o :
  round.on_prevote_msg msg (r, s) = Some (tt, (r', s'), o) ->
  (r' = r /\ s' = s) \/ voting r'.
Proof.
  intros H. unfold round.on_prevote_msg in H. unfold mbind, M_bind in H.
  rewrite bind_get in H. cbn [fst snd] in H.
  destruct (bool_decide (state r ≠ state_type.prevote)) eqn:E1;
    [destruct (bool_decide (state r ≠ state_type.ready_to_precommit)) eqn:E2|];
    cbn [andb] in H.
  - unfold ret in H. left. by simplify_eq.
  - apply bool_decide_eq_false in E2. apply dec_stable in E2.
    destruct (for_each _ _ _) as [[[[] [r2 s2]] o2]|] eqn:E; [|done]. simplify_eq.
    right. eapply (for_each_round voting) in E as [_ Hv]; [done| |by right].
    intros sig r0 s0 r1 s1 o1 Hv H0. rewrite bind_get in H0. cbn [fst snd] in H0.
    destruct (round.validate_prevote _ _ _ _).
    + destruct (round.add_prevote _ _) as [[[[] [r3 s3]] o3]|] eqn:Ea; [|done].
      simplify_eq. by eapply add_prevote_advances.
    + unfold ret in H0. by simplify_eq.
  - apply bool_decide_eq_false in E1. apply dec_stable in E1.
    destruct (for_each _ _ _) as [[[[] [r2 s2]] o2]|] eqn:E; [|done]. simplify_eq.
    right. eapply (for_each_round voting) in E as [_ Hv]; [done| |by left].
    intros sig r0 s0 r1 s1 o1 Hv H0. rewrite bind_get in H0. cbn [fst snd] in H0.
    destruct (round.validate_prevote _ _ _ _).
    + destruct (round.add_prevote _ _) as [[[[] [r3 s3]] o3]|] eqn:Ea; [|done].
      simplify_eq. by eapply add_prevote_advances.
    + unfold ret in H0. by simplify_eq.
Qed.





(** ** The end of the prevote phase *)



(** ** Relaying and handshakes *)

Lemma process_round_msg_without_round msg n dispatch s :
  _is_syncing s || _is_frozen s = false ->
  lru_cache.contains (_self_messages s) msg = false ->
  _round s = None ->
  exists s',
    process_round_msg msg n dispatch s
    = Some (tt, s',
            if decide (round_num (block_id (tree.get_head (_prefix_tree s))) = n)
            then (if lru_cache.contains (_peer_messages s) msg then []
                  else map (fun peer => out_net peer.2 msg) (sorted_bindings (_peers s)))
            else [])
    /\ lru_cache.contains (_self_messages s') msg = true
    /\ _round s' = None /\ _prefix_tree s' = _prefix_tree s /\ _lib s' = _lib s.
Proof.
  intros Hg Hc Hr. unfold process_round_msg. unfold mbind, M_bind. rewrite bind_get.
  rewrite Hg, Hc. unfold bind at 1, modify at 1. cbn [_prefix_tree].
  set (s1 := set_self_messages _ s).
  destruct (decide (_ = n)).
  - unfold bind at 1. rewrite bcast_eq. change (_peer_messages s1) with (_peer_messages s).
    destruct (lru_cache.contains (_peer_messages s) msg).
    + rewrite bind_get. change (_round s1) with (_round s). rewrite Hr. unfold ret.
      eexists. split; [reflexivity|]. simpl. split; [apply lru_contains_insert | done].
    + rewrite bind_get. simpl. rewrite Hr. unfold ret.
      eexists. split; [by rewrite !app_nil_r|]. simpl.
      split; [apply lru_contains_insert | done].
  - unfold bind at 1. unfold ret at 1. rewrite bind_get.
    change (_round s1) with (_round s). rewrite Hr. unfold ret.
    eexists. split; [reflexivity|]. simpl. split; [apply lru_contains_insert | done].
Qed.

(** X24: a node without a round, neither syncing nor frozen, that
    handles a prevote or precommit message it has not handled before
    records its digest in [_self_messages] and relays it, by [bcast], if
    and only if the round number of the message is the round number of
    the head of its tree; it changes neither the tree nor [_lib] and
    gets no round. *)
Theorem votes_are_relayed_for_the_head_round s :
  _is_syncing s || _is_frozen s = false ->
  _round s = None ->
  let head_round := round_num (block_id (tree.get_head (_prefix_tree s))) in
  let relayed (msg : randpa_net_msg_data) (n : N) :=
    if decide (head_round = n)
    then (if lru_cache.contains (_peer_messages s) msg then []
          else map (fun peer => out_net peer.2 msg) (sorted_bindings (_peers s)))
    else [] in
  (forall ses (m : prevote_msg),
     lru_cache.contains (_self_messages s) (msg_prevote m) = false ->
     exists s', on_prevote ses m s
                = Some (tt, s', relayed (msg_prevote m) (pv_round_num (data m)))
                /\ lru_cache.contains (_self_messages s') (msg_prevote m) = true
                /\ _round s' = None /\ _prefix_tree s' = _prefix_tree s /\ _lib s' = _lib s)
  /\ (forall ses (m : precommit_msg),
        lru_cache.contains (_self_messages s) (msg_precommit m) = false ->
        exists s', on_precommit ses m s
                   = Some (tt, s', relayed (msg_precommit m) (pc_round_num (data m)))
                   /\ lru_cache.contains (_self_messages s') (msg_precommit m) = true
                   /\ _round s' = None /\ _prefix_tree s' = _prefix_tree s
                   /\ _lib s' = _lib s).
Proof.
  intros Hg Hr head_round relayed. split; intros ses m Hc.
  - by apply process_round_msg_without_round.
  - by apply process_round_msg_without_round.
Qed.

Lemma votes_are_relayed_for_the_head_round_witness :
  exists s',
    on_prevote 7 (prevote_of 1 [block_2; block_3; block_4] [11]) follower
    = Some (tt, s',
            if decide (round_num (block_id (tree.get_head (_prefix_tree follower))) = 1)
            then (if lru_cache.contains (_peer_messages follower)
                       (msg_prevote (prevote_of 1 [block_2; block_3; block_4] [11]))
                  then []
                  else map (fun peer =>
                              out_net peer.2
                                (msg_prevote (prevote_of 1 [block_2; block_3; block_4] [11])))
                           (sorted_bindings (_peers follower)))
            else [])
    /\ lru_cache.contains (_self_messages s')
         (msg_prevote (prevote_of 1 [block_2; block_3; block_4] [11])) = true
    /\ _round s' = None /\ _prefix_tree s' = _prefix_tree follower
    /\ _lib s' = _lib follower.
Proof.
  refine (proj1 (votes_are_relayed_for_the_head_round follower _ _) 7
            (prevote_of 1 [block_2; block_3; block_4] [11]) _).
  - vm_compute. reflexivity.
  - vm_compute. reflexivity.
  - vm_compute. reflexivity.
Defined.

(** X25: the handshake exchange.  A node [a] that learns of a new peer
    on a session sends one handshake with its [_lib], signed by its
    signature providers.  The node [b] that handles it maps every key of
    those signatures to the session it came from and answers once per
    signature with its own [_lib]; [a], handling an answer, maps every
    key of [b]'s signatures to its session.  After the exchange each node
    reaches the other by [bcast]. *)
Theorem handshake_exchange a b ses_a ses_b :
  let hello := mk_msg (mk_handshake (_lib a)) (_signature_providers a) in
  let answer := mk_msg (mk_handshake_ans (_lib b)) (_signature_providers b) in
  on_new_peer (mk_new_peer ses_a) a = Some (tt, a, [out_net ses_a (msg_handshake hello)])
  /\ exists b' a',
       on_handshake ses_b hello b
       = Some (tt, b', replicate (length (_signature_providers a))
                         (out_net ses_b (msg_handshake_ans answer)))
       /\ (forall sig, sig ∈ _signature_providers a -> _peers b' !! recover sig = Some ses_b)
       /\ on_handshake_ans ses_a answer a = Some (tt, a', [])
       /\ (forall sig, sig ∈ _signature_providers b -> _peers a' !! recover sig = Some ses_a).
Proof.
  intros hello answer. split; [done|].
  eexists _, _. split; [|split; [|split]].
  - rewrite on_handshake_eq. unfold msg_public_keys. by rewrite length_map.
  - intros sig Hs. simpl. rewrite foldl_register_lookup. rewrite decide_True; [done|].
    unfold msg_public_keys. apply list_elem_of_fmap. eauto.
  - apply on_handshake_ans_eq.
  - intros sig Hs. simpl. rewrite foldl_register_lookup. rewrite decide_True; [done|].
    unfold msg_public_keys. apply list_elem_of_fmap. eauto.
Qed.

(** ** The root of the tree and the gates *)



#[global] Instance same_syncing_preorder : PreOrder same_syncing.
Proof.
  split.
  - intros s. reflexivity.
  - intros a b c Hab Hbc. unfold same_syncing in *. congruence.
Qed.



(** X28: a syncing or frozen node takes no part in finality.  A
    prevote, a precommit or a proof that arrives while one of the flags
    is set, and an accepted block that sets one of them, produce no
    output and leave the round, [_lib], the proofs and both caches of
    digests as they were: nothing is voted, relayed or made final. *)
Theorem gated_node_takes_no_part now msg s s' o :
  process_msg now msg s = Some (tt, s', o) ->
  gated msg s = true ->
  o = [] /\ _round s' = _round s /\ _lib s' = _lib s
  /\ _last_prooved_block_num s' = _last_prooved_block_num s
  /\ _last_proofs s' = _last_proofs s
  /\ _self_messages s' = _self_messages s /\ _peer_messages s' = _peer_messages s.
Proof.
  destruct msg as [m|[e|e|e]]; simpl; intros H Hg; try done.
  - unfold process_net_msg in H.
    destruct (_ <? _)%Z; [unfold ret in H; by simplify_eq|].
    destruct (net_data m); try done.
    + unfold on_prevote in H. rewrite process_round_msg_dropped in H by (by left).
      by simplify_eq.
    + unfold on_precommit in H. rewrite process_round_msg_dropped in H by (by left).
      by simplify_eq.
    + unfold on_proof in H. unfold mbind, M_bind in H. rewrite bind_get, Hg in H.
      unfold ret in H. by simplify_eq.
  - rewrite on_accepted_block_eq in H.
    destruct (tree.insert _ _ _ _) as [t|]; [|by simplify_eq].
    change (_is_frozen (after_insert e t s))
      with (_max_finality_lag_blocks
              <? u32_sub (get_block_num (ev_block_id e)) (get_block_num (_lib s))) in H.
    rewrite Hg in H. by simplify_eq.
Qed.

Lemma gated_node_takes_no_part_witness :
  output_of (process_msg 0 (from_net 7 (msg_proof proof_msg_of_block_4))) frozen_node = []
  /\ _round (state_of (process_msg 0 (from_net 7 (msg_proof proof_msg_of_block_4)))
               frozen_node) = _round frozen_node
  /\ _lib (state_of (process_msg 0 (from_net 7 (msg_proof proof_msg_of_block_4)))
             frozen_node) = _lib frozen_node
  /\ _last_prooved_block_num
       (state_of (process_msg 0 (from_net 7 (msg_proof proof_msg_of_block_4))) frozen_node)
     = _last_prooved_block_num frozen_node
  /\ _last_proofs
       (state_of (process_msg 0 (from_net 7 (msg_proof proof_msg_of_block_4))) frozen_node)
     = _last_proofs frozen_node
  /\ _self_messages
       (state_of (process_msg 0 (from_net 7 (msg_proof proof_msg_of_block_4))) frozen_node)
     = _self_messages frozen_node
  /\ _peer_messages
       (state_of (process_msg 0 (from_net 7 (msg_proof proof_msg_of_block_4))) frozen_node)
     = _peer_messages frozen_node.
Proof.
  refine (gated_node_takes_no_part 0 (from_net 7 (msg_proof proof_msg_of_block_4))
            frozen_node _ _ _ _).
  - vm_compute. reflexivity.
  - vm_compute. reflexivity.
Defined.

(** ** Precommits from the network *)

Lemma add_precommit_records (msg : precommit_msg) sig r s r' s' o :
  round.add_precommit finish_round (mk_msg (data msg) [sig]) (r, s)
    = Some (tt, (r', s'), o) ->
  precommited_keys r' = {[recover sig]} ∪ precommited_keys r
  /\ pf_precommits (proof r') = pf_precommits (proof r) ++ [mk_msg (data msg) [sig]].
Proof.
  intros H. unfold round.add_precommit in H.
  cbn [msg_public_keys signatures map data] in H.
  unfold mbind, M_bind in H. unfold bind at 1 2, modify_round, modify in H.
  cbn [fst snd] in H. rewrite bind_get in H.
  cbn [fst snd state set_proof set_precommited_keys] in H.
  set (r1 := set_proof _ _) in H.
  destruct (decide (state r = state_type.done)).
  { unfold ret in H. by simplify_eq. }
  destruct (round.is_precommit_threshold_reached r1) as [[]|]; [| |done].
  - unfold bind, modify in H. cbn [fst snd] in H.
    destruct (finish_round _) as [[[[] [r2 s2]] o2]|] eqn:Ef; [|done].
    apply finish_round_on_done in Ef; [|done]. by simplify_eq.
  - unfold ret in H. by simplify_eq.
Qed.

Lemma validate_precommit_new r t msg key :
  round.validate_precommit r t msg key = Some true -> key ∉ precommited_keys r.
Proof.
  unfold round.validate_precommit. destruct (decide (num r ≠ _)); [done|].
  by destruct (decide (key ∈ precommited_keys r)).
Qed.

Lemma precommit_loop_counts (msg : precommit_msg) (sigs : list signature_type) :
  forall r s r' s' o,
  for_each sigs (fun sig : signature_type =>
      bind get (fun rs : randpa_round * randpa =>
        match round.validate_precommit rs.1 (_prefix_tree rs.2) msg (recover sig) with
        | Some true => round.add_precommit finish_round (mk_msg (data msg) [sig])
        | Some false => ret tt
        | None => throw
        end)) (r, s) = Some (tt, (r', s'), o) ->
  exists added : list signature_type,
    NoDup (map recover added)
    /\ (forall sig, sig ∈ added -> sig ∈ sigs /\ recover sig ∉ precommited_keys r)
    /\ precommited_keys r' = list_to_set (map recover added) ∪ precommited_keys r
    /\ pf_precommits (proof r')
       = pf_precommits (proof r) ++ map (fun sig => mk_msg (data msg) [sig]) added.
Proof.
  induction sigs as [|sig sigs IH]; intros r s r' s' o H.
  - simpl in H. unfold ret in H. simplify_eq. exists [].
    split; [constructor|]. split; [by intros ? ?%elem_of_nil|].
    simpl. split; [set_solver | by rewrite app_nil_r].
  - cbn [for_each] in H. unfold mbind, M_bind in H.
    apply bind_Some in H as ([] & [r1 s1] & o1 & o2 & H1 & H2 & ->).
    apply IH in H2 as (added & Hnd & Hin & Hk & Hp).
    rewrite bind_get in H1. cbn [fst snd] in H1.
    destruct (round.validate_precommit _ _ _ _) as [[]|] eqn:Ev; [| |done].
    + apply validate_precommit_new in Ev.
      destruct (round.add_precommit _ _ _) as [[[[] [r2 s2]] o3]|] eqn:Ea; [|done].
      assert (r2 = r1) as -> by (by simplify_eq).
      apply add_precommit_records in Ea as [Ek Ep].
      exists (sig :: added). split; [|split; [|split]].
      * simpl. constructor; [|done]. intros (sig' & Hr & Hs)%list_elem_of_fmap.
        destruct (Hin _ Hs) as [_ Hn]. apply Hn. rewrite Ek, Hr. set_solver.
      * intros sig' [->|Hs]%elem_of_cons; [split; [left | done]|].
        destruct (Hin _ Hs) as [? Hn]. split; [by right|].
        intros Hc. apply Hn. rewrite Ek. set_solver.
      * rewrite Hk, Ek. simpl. set_solver.
      * rewrite Hp, Ep. simpl. by rewrite <- app_assoc.
    + unfold ret in H1. assert (r1 = r) as -> by (by simplify_eq).
      exists added. split; [done|]. split; [|done].
      intros sig' Hs. destruct (Hin _ Hs). split; [by right | done].
Qed.


